(** * e3-core: the PyPI closure script and the anod text helpers

    A shallow embedding of

    - [src/src/e3/python/pypiscript.py] (function [main]),
    - [src/e3/anod/helper.py] (functions [text_replace] and [gplize] with
      its [remove_paragraph], classes [Make] and [Configure]),

    and of the closure resolver that the script drives
    ([e3.python.pypi.PyPIClosure], whose code is not part of the sources at
    hand and is modelled from the specification). *)

From Stdlib Require Import Ascii ZArith.
From stdpp Require Import gmap strings list fin_maps lexico pretty.

Local Open Scope Z_scope.
Local Open Scope stdpp_scope.

(** ** Python string and path primitives *)

Module PyStr.

(** [c in s] for a one-character string [c]. *)
Fixpoint contains (c : ascii) (s : string) : bool :=
  match s with
  | EmptyString => false
  | String a s' => if Ascii.eqb a c then true else contains c s'
  end.

(** [s.split(c)[0]]: everything before the first [c], the whole string when
    [c] does not occur. *)
Fixpoint before_first (c : ascii) (s : string) : string :=
  match s with
  | EmptyString => EmptyString
  | String a s' => if Ascii.eqb a c then EmptyString else String a (before_first c s')
  end.

(** [s.split(c, 1)[1]] when [c in s]: everything after the first [c]. *)
Fixpoint after_first (c : ascii) (s : string) : string :=
  match s with
  | EmptyString => EmptyString
  | String a s' => if Ascii.eqb a c then s' else after_first c s'
  end.

(** [s.split(c)[-1]]: everything after the last [c], the whole string when
    [c] does not occur. *)
Fixpoint after_last (c : ascii) (s : string) : string :=
  match s with
  | EmptyString => EmptyString
  | String a s' =>
      if contains c s' then after_last c s'
      else if Ascii.eqb a c then s'
      else s
  end.

(** [s.replace(a, b)] for one-character strings [a] and [b]. *)
Fixpoint replace (a b : ascii) (s : string) : string :=
  match s with
  | EmptyString => EmptyString
  | String x s' => String (if Ascii.eqb x a then b else x) (replace a b s')
  end.

(** [s.endswith(c)]. *)
Fixpoint endswith (c : ascii) (s : string) : bool :=
  match s with
  | EmptyString => false
  | String a EmptyString => Ascii.eqb a c
  | String _ s' => endswith c s'
  end.

(** [s.startswith(c)]. *)
Definition startswith (c : ascii) (s : string) : bool :=
  match s with
  | EmptyString => false
  | String a _ => Ascii.eqb a c
  end.

(** The line terminator, [chr(10)]. *)
Definition newline : string := String "010"%char EmptyString.

(** [posixpath.basename]. *)
Definition os_path_basename (p : string) : string := after_last "/" p.

(** [posixpath.join] of two components. *)
Definition os_path_join (a b : string) : string :=
  if startswith "/" b then b
  else if orb (String.eqb a EmptyString) (endswith "/" a) then a +:+ b
  else a +:+ "/" +:+ b.

(** Splitting at the first occurrence of a character. *)
Lemma contains_app_char c pre post :
  contains c (pre +:+ String c post) = true.
Proof.
  induction pre as [|a pre IH]; simpl.
  - by rewrite Ascii.eqb_refl.
  - destruct (Ascii.eqb a c); [reflexivity|exact IH].
Qed.

Lemma before_first_app c pre post :
  contains c pre = false -> before_first c (pre +:+ String c post) = pre.
Proof.
  induction pre as [|a pre IH]; simpl.
  - by rewrite Ascii.eqb_refl.
  - destruct (Ascii.eqb a c); [discriminate|]. intros Hc. by rewrite IH.
Qed.

Lemma after_first_app c pre post :
  contains c pre = false -> after_first c (pre +:+ String c post) = post.
Proof.
  induction pre as [|a pre IH]; simpl.
  - by rewrite Ascii.eqb_refl.
  - destruct (Ascii.eqb a c); [discriminate|]. exact IH.
Qed.

(** What is cut off at a character does not hold it, and the cut loses
    nothing. *)
Lemma before_first_free c s : contains c (before_first c s) = false.
Proof.
  induction s as [|a s IH]; simpl; [reflexivity|].
  destruct (Ascii.eqb a c) eqn:Hac; simpl; [reflexivity|]. by rewrite Hac.
Qed.

Lemma before_after_first c s :
  contains c s = true -> before_first c s +:+ String c (after_first c s) = s.
Proof.
  induction s as [|a s IH]; simpl; [discriminate|].
  destruct (Ascii.eqb a c) eqn:Hac.
  - intros _. apply Ascii.eqb_eq in Hac. by subst a.
  - intros Hc. unfold String.app. simpl. f_equal. by apply IH.
Qed.

Lemma before_first_absent c s : contains c s = false -> before_first c s = s.
Proof.
  induction s as [|a s IH]; simpl; [reflexivity|].
  destruct (Ascii.eqb a c); [discriminate|]. intros Hc. by rewrite IH.
Qed.

Lemma after_last_free c s : contains c (after_last c s) = false.
Proof.
  induction s as [|a s IH]; [reflexivity|].
  cbn [after_last]. destruct (contains c s) eqn:Hs; [exact IH|].
  destruct (Ascii.eqb a c) eqn:Hac; [exact Hs|]. simpl. by rewrite Hac.
Qed.

Lemma contains_before_first c d s :
  contains d s = false -> contains d (before_first c s) = false.
Proof.
  induction s as [|a s IH]; simpl; [reflexivity|].
  destruct (Ascii.eqb a d) eqn:Had; [discriminate|]. intros Hd.
  destruct (Ascii.eqb a c); simpl; [reflexivity|]. rewrite Had. by apply IH.
Qed.

Lemma contains_replace_old a b s : a <> b -> contains a (replace a b s) = false.
Proof.
  intros Hab. induction s as [|x s IH]; simpl; [reflexivity|].
  destruct (Ascii.eqb x a) eqn:Hxa.
  - destruct (Ascii.eqb b a) eqn:Hba; [|exact IH].
    apply Ascii.eqb_eq in Hba. by destruct Hab.
  - by rewrite Hxa.
Qed.

Lemma contains_replace_other a b d s :
  d <> b -> contains d s = false -> contains d (replace a b s) = false.
Proof.
  intros Hdb. induction s as [|x s IH]; simpl; [reflexivity|].
  destruct (Ascii.eqb x d) eqn:Hxd; [discriminate|]. intros Hd.
  destruct (Ascii.eqb x a).
  - destruct (Ascii.eqb b d) eqn:Hbd; [|by apply IH].
    apply Ascii.eqb_eq in Hbd. by destruct Hdb.
  - rewrite Hxd. by apply IH.
Qed.

Lemma app_empty_r s : s +:+ EmptyString = s.
Proof. induction s as [|a s IH]; [reflexivity|]. unfold String.app in *. simpl. by rewrite IH. Qed.

Lemma app_assoc_string a b c : (a +:+ b) +:+ c = a +:+ (b +:+ c).
Proof.
  induction a as [|x a IH]; [reflexivity|]. unfold String.app in *. simpl. by rewrite IH.
Qed.

End PyStr.

(** ** Programs with a trace of external calls and Python exceptions *)

Module Run.

Section Monad.
Context {E X : Type}.

(** A run: the external calls made so far, in order, and either the
    exception that ended the run or its value. *)
Definition M (A : Type) : Type := (list E * (X + A))%type.

Definition ret {A} (a : A) : M A := ([], inr a).
Definition raise {A} (x : X) : M A := ([], inl x).
Definition emit (e : E) : M unit := ([e], inr tt).

Definition bind {A B} (m : M A) (k : A -> M B) : M B :=
  match m with
  | (t, inl x) => (t, inl x)
  | (t, inr a) => let '(t', r) := k a in (t ++ t', r)
  end.

(** [for x in l: body x]. *)
Fixpoint for_each {A} (l : list A) (body : A -> M unit) : M unit :=
  match l with
  | [] => ret tt
  | x :: l' => bind (body x) (fun _ => for_each l' body)
  end.

(** A loop that threads a value through its iterations. *)
Fixpoint fold_each {A S} (l : list A) (body : S -> A -> M S) (s : S) : M S :=
  match l with
  | [] => ret s
  | x :: l' => bind (body s x) (fun s' => fold_each l' body s')
  end.

(** What a generator does when it is drained: the items it yields, then
    either exhaustion or an exception. *)
Definition gen (A : Type) : Type := (list A * option X)%type.

(** [for x in g: body x] over a generator [g]; [next x] is the external
    event of the generator handing out [x]. *)
Definition for_gen {A} (g : gen A) (next : A -> E) (body : A -> M unit) : M unit :=
  bind (for_each (fst g) (fun x => bind (emit (next x)) (fun _ => body x)))
       (fun _ => match snd g with
                 | Some x => raise x
                 | None => ret tt
                 end).
End Monad.

Arguments M : clear implicits.
Arguments gen : clear implicits.

Section Facts.
Context {E X : Type}.
Implicit Types (t : list E).

(** A loop over a generator whose body cannot raise: every yielded item
    is announced and worked on, then the generator's own end decides. *)
Lemma for_gen_total {A} (g : gen X A) (next : A -> E) (body : A -> M E X unit) :
  (forall x, snd (body x) = inr tt) ->
  for_gen g next body =
    (flat_map (fun x => next x :: fst (body x)) (fst g),
     match snd g with Some x => inl x | None => inr tt end).
Proof.
  intros Hbody. unfold for_gen.
  assert (Hloop : forall l,
    for_each l (fun x => bind (emit (next x)) (fun _ => body x)) =
    (flat_map (fun x => next x :: fst (body x)) l, inr tt)).
  { induction l as [|x l IH]; [reflexivity|].
    simpl. specialize (Hbody x). destruct (body x) as [t r]. simpl in *. subst r.
    rewrite IH. reflexivity. }
  rewrite Hloop. simpl. destruct (snd g); simpl; rewrite app_nil_r; reflexivity.
Qed.

Lemma bind_trace_Forall {A B} (P : E -> Prop) (m : M E X A) (k : A -> M E X B) :
  Forall P (fst m) -> (forall a, Forall P (fst (k a))) -> Forall P (fst (bind m k)).
Proof.
  intros Hm Hk. destruct m as [t [x|a]]; simpl in *; [assumption|].
  specialize (Hk a). destruct (k a). simpl in *. apply Forall_app; auto.
Qed.

Lemma fold_each_trace_Forall {A S} (P : E -> Prop) (l : list A)
    (body : S -> A -> M E X S) (s : S) :
  (forall s x, Forall P (fst (body s x))) -> Forall P (fst (fold_each l body s)).
Proof.
  intros Hbody. revert s. induction l as [|x l IH]; intros s; simpl.
  - constructor.
  - apply bind_trace_Forall; auto.
Qed.

(** A threaded loop whose body cannot raise runs to its end. *)
Lemma fold_each_total {A S} (l : list A) (body : S -> A -> M E X S) (s : S) :
  (forall s x, exists s', snd (body s x) = inr s') ->
  exists s', snd (fold_each l body s) = inr s'.
Proof.
  intros Hbody. revert s. induction l as [|x l IH]; intros s; simpl.
  - eexists; reflexivity.
  - destruct (Hbody s x) as [s1 Hs1]. destruct (body s x) as [t r]. simpl in *.
    subst r. simpl. destruct (IH s1) as [s2 Hs2].
    destruct (fold_each l body s1) as [t' r']. simpl in *. eauto.
Qed.

(** A loop that announces each item with [ev] before working on it and
    makes no other call: when it runs to its end, every item was
    announced, in order. *)
Lemma fold_each_announce {A S} (ev : A -> E) (f : S -> A -> X + S)
    (l : list A) (s s' : S) t :
  fold_each l (fun s x => bind (emit (ev x)) (fun _ => ([], f s x))) s = (t, inr s') ->
  t = map ev l.
Proof.
  revert s t. induction l as [|x l IH]; intros s t; simpl.
  - unfold ret. intros [= <- _]. reflexivity.
  - destruct (f s x) as [e|s1]; simpl; [discriminate|].
    destruct (fold_each l _ s1) as [t1 r1] eqn:Hrest.
    intros [= <- ->]. simpl. f_equal. eapply IH. eassumption.
Qed.

(** Such a loop, however it ends, has announced a prefix of its items. *)
Lemma fold_each_announce_prefix {A S} (ev : A -> E) (f : S -> A -> X + S)
    (l : list A) (s : S) :
  exists k,
    fst (fold_each l (fun s x => bind (emit (ev x)) (fun _ => ([], f s x))) s)
      = map ev (take k l).
Proof.
  revert s. induction l as [|x l IH]; intros s; simpl.
  - exists 0%nat. reflexivity.
  - destruct (f s x) as [e|s1]; simpl.
    + exists 1%nat. reflexivity.
    + destruct (IH s1) as [k Hk]. exists (Datatypes.S k).
      destruct (fold_each l _ s1) as [t1 r1]. simpl in *. by rewrite Hk.
Qed.
End Facts.


Declare Scope run_scope.
Delimit Scope run_scope with run.
Notation "x <- m ;; k" := (bind m (fun x => k))
  (at level 100, m at next level, right associativity) : run_scope.
Notation "m ;; k" := (bind m (fun _ => k))
  (at level 100, right associativity) : run_scope.

End Run.

(** ** Two facts about lists in step *)

Lemma Forall2_pick_l {A B} (P : A -> B -> Prop) l k x :
  Forall2 P l k -> x ∈ l -> exists y, y ∈ k /\ P x y.
Proof.
  induction 1 as [|a b l k Hab _ IH]; intros Hin.
  - by apply elem_of_nil in Hin.
  - apply elem_of_cons in Hin as [->|Hin].
    + exists b. split; [by left|assumption].
    + destruct (IH Hin) as (y & Hy & HP). exists y. split; [by right|assumption].
Qed.

Lemma Forall2_pick_r {A B} (P : A -> B -> Prop) l k y :
  Forall2 P l k -> y ∈ k -> exists x, x ∈ l /\ P x y.
Proof.
  induction 1 as [|a b l k Hab _ IH]; intros Hin.
  - by apply elem_of_nil in Hin.
  - apply elem_of_cons in Hin as [->|Hin].
    + exists a. split; [by left|assumption].
    + destruct (IH Hin) as (x & Hx & HP). exists x. split; [by right|assumption].
Qed.

(** ** [e3.python.pypiscript]: the closure script *)

Module Script.
Import PyStr Run.
Local Open Scope run_scope.

(** The YAML configuration file, by its recognised keys.  A key that
    [main] reads with [config.get] or guards with [in] is optional;
    [wheels] and [requirements] default to empty collections. *)
Record Config : Type := {
  wheels : list (string * string);
  requirements : list string;
  discard_from_closure : option string;
  frozen_requirement_file : option string;
  platforms : option (list string)
}.

(** The parsed command line. *)
Record Args : Type := {
  python3_version : Z;
  target_dir : string;
  cache_dir : string;
  skip_repo_updates : bool;
  local_clones : option string
}.

(** The exceptions a run can end with. *)
Inductive exn : Type :=
| InvalidRequirement (s : string)
| KeyError (key : string)
| ClosureError (msg : string).

Section Main.
Context {Req : Type} `{Countable Req}.

(** [pkg_resources.Requirement]: [parse] ([None] when it raises), [str]
    and the [project_name] attribute. *)
Variable parse : string -> option Req.
Variable req_str : Req -> string.
Variable project_name : Req -> string.
(** [re.search pattern text is not None]. *)
Variable re_search : string -> string -> bool.
Variable abspath : string -> string.
(** [CheckoutManager(name, working_dir).working_dir] and the path of the
    wheel that [Wheel.build source_dir dest_dir] produces. *)
Variable checkout_dir : string -> string -> string.
Variable wheel_build : string -> string -> string.
(** [e3.python.pypi.PyPIClosure]: the resolver the script feeds. *)
Variable Closure : Type.
Variable PyPIClosure : string -> string -> Z -> list string -> Closure.
Variable add_wheel : Closure -> string -> exn + Closure.
Variable add_requirement : Closure -> Req -> exn + Closure.
Variable file_closure : Closure -> gen exn string.
Variable closure_as_requirements : Closure -> gen exn Req.

(** The calls [main] makes to its collaborators. *)
Inductive event : Type :=
| Mkdir (d : string)
| CheckoutUpdate (name vcs url revision : string)
| WheelBuild (source_dir dest_dir : string)
| AddWheel (path : string)
| AddRequirement (r : Req)
| YieldFile (f : string)
| Cp (f dir : string)
| OpenW (path : string)
| YieldReq (r : Req)
| FdWrite (path s : string).

Definition lift {A} (r : exn + A) : M event exn A := ([], r).

(** Lines 92-95: the optional revision after the first [#]. *)
Definition split_rev (url : string) : string * string :=
  if contains "#" url then (before_first "#" url, after_first "#" url)
  else (url, "master").

(** Lines 91-114: one iteration of the loop over [wheels]. *)
Definition build_wheel (args : Args) (vcs_cache_dir wheel_cache_dir : string)
    (local_wheels : list string) (entry : string * string)
  : M event exn (list string) :=
  let '(name, url0) := entry in
  let '(url, rev) := split_rev url0 in
  let source_dir := checkout_dir name vcs_cache_dir in
  match local_clones args with
  | Some clones =>
      emit (CheckoutUpdate name "external" (os_path_join clones (after_last "/" url)) rev)
  | None =>
      if skip_repo_updates args then ret tt
      else emit (CheckoutUpdate name "git" url rev)
  end;;
  emit (WheelBuild source_dir wheel_cache_dir);;
  ret (local_wheels ++ [wheel_build source_dir wheel_cache_dir]).

(** A set comprehension [{Requirement.parse(s) for s in l}], before the
    set is built: the first string that does not parse raises. *)
Fixpoint parse_all (l : list string) : M event exn (list Req) :=
  match l with
  | [] => ret []
  | s :: l' =>
      match parse s with
      | None => raise (InvalidRequirement s)
      | Some r => rs <- parse_all l';; ret (r :: rs)
      end
  end.

(** Lines 117-119. *)
Definition toplevel_reqs (cfg : Config) : M event exn (gset Req) :=
  ws <- parse_all (map fst (wheels cfg));;
  rs <- parse_all (requirements cfg);;
  ret (list_to_set ws ∪ list_to_set rs).

(** Lines 137-139 and 150-152: the guard of both output loops. *)
Definition kept (cfg : Config) (name : string) : bool :=
  match discard_from_closure cfg with
  | None => true
  | Some pattern => negb (re_search pattern name)
  end.

(** Line 136. *)
Definition pkg_name (f : string) : string :=
  replace "_" "-" (before_first "-" (os_path_basename f)).

(** Lines 135-140. *)
Definition copy_files (cfg : Config) (args : Args) (files : gen exn string)
  : M event exn unit :=
  for_gen files YieldFile (fun f =>
    if kept cfg (pkg_name f) then emit (Cp f (target_dir args)) else ret tt).

(** Lines 142-146: the path of the frozen requirement file. *)
Definition frozen_path (cfg : Config) (args : Args) : string :=
  os_path_join (target_dir args)
    (default "requirements.txt" (frozen_requirement_file cfg)).

(** Lines 142-153. *)
Definition write_frozen (cfg : Config) (args : Args) (reqs : gen exn Req)
  : M event exn unit :=
  let path := frozen_path cfg args in
  emit (OpenW path);;
  for_gen reqs YieldReq (fun req =>
    if kept cfg (project_name req) then emit (FdWrite path (req_str req +:+ newline))
    else ret tt).

(** Lines 77-78. *)
Definition vcs_cache_dir (args : Args) : string :=
  abspath (os_path_join (cache_dir args) "vcs").
Definition wheel_cache_dir (args : Args) : string :=
  abspath (os_path_join (cache_dir args) "wheels").

(** Lines 88-114: the loop that builds the local wheels. *)
Definition build_wheels (cfg : Config) (args : Args) : M event exn (list string) :=
  fold_each (wheels cfg)
    (build_wheel args (vcs_cache_dir args) (wheel_cache_dir args)) [].

(** Lines 77-133: build the local wheels, parse the top-level
    requirements, open the resolver and feed it. *)
Definition feed_closure (cfg : Config) (args : Args) : M event exn Closure :=
  emit (Mkdir (vcs_cache_dir args));;
  emit (Mkdir (wheel_cache_dir args));;
  emit (Mkdir (target_dir args));;
  local_wheels <- build_wheels cfg args;;
  reqs <- toplevel_reqs cfg;;
  targets <- match platforms cfg with
             | Some l => ret l
             | None => raise (KeyError "platforms")
             end;;
  let pypi0 := PyPIClosure (os_path_join (cache_dir args) "pip.cache")
                 (wheel_cache_dir args) (python3_version args) targets in
  pypi1 <- fold_each local_wheels
             (fun pypi wheel => emit (AddWheel wheel);; lift (add_wheel pypi wheel)) pypi0;;
  fold_each (elements reqs)
    (fun pypi req => emit (AddRequirement req);; lift (add_requirement pypi req)) pypi1.

(** Lines 77-153. *)
Definition main (cfg : Config) (args : Args) : M event exn unit :=
  pypi <- feed_closure cfg args;;
  copy_files cfg args (file_closure pypi);;
  write_frozen cfg args (closure_as_requirements pypi).

(** *** What a trace says was done *)

Definition copied (t : list event) : list (string * string) :=
  omap (fun e => match e with Cp f d => Some (f, d) | _ => None end) t.
Definition yielded_files (t : list event) : list string :=
  omap (fun e => match e with YieldFile f => Some f | _ => None end) t.
Definition yielded_reqs (t : list event) : list Req :=
  omap (fun e => match e with YieldReq r => Some r | _ => None end) t.
Definition opened (t : list event) : list string :=
  omap (fun e => match e with OpenW p => Some p | _ => None end) t.
Definition written (t : list event) : list (string * string) :=
  omap (fun e => match e with FdWrite p s => Some (p, s) | _ => None end) t.
Definition added_reqs (t : list event) : list Req :=
  omap (fun e => match e with AddRequirement r => Some r | _ => None end) t.
Definition checkouts (t : list event) : list (string * string * string * string) :=
  omap (fun e => match e with
                 | CheckoutUpdate n v u r => Some (n, v, u, r)
                 | _ => None
                 end) t.

(** The events of lines 77-119, before the resolver exists. *)
Definition is_setup (e : event) : bool :=
  match e with
  | Mkdir _ | CheckoutUpdate _ _ _ _ | WheelBuild _ _ => true
  | _ => false
  end.

(** The events of the two output loops, lines 135-153. *)
Definition is_output (e : event) : bool :=
  match e with
  | YieldFile _ | Cp _ _ | OpenW _ | YieldReq _ | FdWrite _ _ => true
  | _ => false
  end.

(** *** The two output loops *)

(** The calls of the loop of lines 135-140 over the files [l]. *)
Definition copy_trace (cfg : Config) (args : Args) (l : list string) : list event :=
  flat_map (fun f => YieldFile f ::
              if kept cfg (pkg_name f) then [Cp f (target_dir args)] else []) l.

(** The calls of the loop of lines 149-153 over the requirements [l]. *)
Definition write_trace (cfg : Config) (args : Args) (l : list Req) : list event :=
  flat_map (fun r => YieldReq r ::
              if kept cfg (project_name r)
              then [FdWrite (frozen_path cfg args) (req_str r +:+ newline)] else []) l.

Lemma copy_files_run cfg args g :
  copy_files cfg args g =
    (copy_trace cfg args (fst g), match snd g with Some x => inl x | None => inr tt end).
Proof.
  unfold copy_files. rewrite for_gen_total.
  - f_equal. apply flat_map_ext. intros f. destruct (kept cfg (pkg_name f)); reflexivity.
  - intros f. destruct (kept cfg (pkg_name f)); reflexivity.
Qed.

Lemma write_frozen_run cfg args g :
  write_frozen cfg args g =
    (OpenW (frozen_path cfg args) :: write_trace cfg args (fst g),
     match snd g with Some x => inl x | None => inr tt end).
Proof.
  unfold write_frozen. cbv zeta. rewrite for_gen_total.
  - simpl. f_equal. f_equal. apply flat_map_ext. intros r.
    destruct (kept cfg (project_name r)); reflexivity.
  - intros r. destruct (kept cfg (project_name r)); reflexivity.
Qed.

(** How a run of [main] unfolds: it stops at the first exception. *)
Lemma main_run cfg args :
  main cfg args =
    match feed_closure cfg args with
    | (t0, inl x) => (t0, inl x)
    | (t0, inr pypi) =>
        let fs := file_closure pypi in
        let rs := closure_as_requirements pypi in
        match snd fs with
        | Some x => (t0 ++ copy_trace cfg args (fst fs), inl x)
        | None =>
            (t0 ++ copy_trace cfg args (fst fs)
                ++ OpenW (frozen_path cfg args) :: write_trace cfg args (fst rs),
             match snd rs with Some x => inl x | None => inr tt end)
        end
    end.
Proof.
  unfold main. destruct (feed_closure cfg args) as [t0 [x|pypi]]; [reflexivity|].
  cbv zeta. simpl. rewrite copy_files_run, write_frozen_run.
  destruct (snd (file_closure pypi)); simpl; [reflexivity|].
  reflexivity.
Qed.

Lemma omap_quiet {B} (f : event -> option B) (t : list event) :
  Forall (fun e => f e = None) t -> omap f t = [].
Proof.
  induction 1 as [|e t He _ IH]; [reflexivity|].
  change (omap f (e :: t)) with (match f e with Some y => y :: omap f t | None => omap f t end).
  rewrite He. exact IH.
Qed.

Lemma copy_trace_yielded cfg args l : yielded_files (copy_trace cfg args l) = l.
Proof.
  induction l as [|f l IH]; [reflexivity|]. unfold copy_trace in *. simpl.
  destruct (kept cfg (pkg_name f)); simpl; unfold yielded_files in *; simpl;
    f_equal; exact IH.
Qed.

Lemma copy_trace_copied cfg args l :
  copied (copy_trace cfg args l) =
    map (fun f => (f, target_dir args)) (filter (fun f => kept cfg (pkg_name f)) l).
Proof.
  induction l as [|f l IH]; [reflexivity|]. unfold copy_trace in *. simpl.
  rewrite filter_cons. destruct (kept cfg (pkg_name f)) eqn:Hk; simpl;
    unfold copied in *; simpl; [f_equal|]; exact IH.
Qed.

Lemma write_trace_yielded cfg args l : yielded_reqs (write_trace cfg args l) = l.
Proof.
  induction l as [|r l IH]; [reflexivity|]. unfold write_trace in *. simpl.
  destruct (kept cfg (project_name r)); simpl; unfold yielded_reqs in *; simpl;
    f_equal; exact IH.
Qed.

Lemma write_trace_written cfg args l :
  written (write_trace cfg args l) =
    map (fun r => (frozen_path cfg args, req_str r +:+ newline))
        (filter (fun r => kept cfg (project_name r)) l).
Proof.
  induction l as [|r l IH]; [reflexivity|]. unfold write_trace in *. simpl.
  rewrite filter_cons. destruct (kept cfg (project_name r)) eqn:Hk; simpl;
    unfold written in *; simpl; [f_equal|]; exact IH.
Qed.

Lemma copy_trace_only cfg args l :
  Forall (fun e => match e with YieldFile _ | Cp _ _ => True | _ => False end)
         (copy_trace cfg args l).
Proof.
  induction l as [|f l IH]; [constructor|]. unfold copy_trace in *. simpl.
  constructor; [exact I|]. destruct (kept cfg (pkg_name f)); simpl; auto.
Qed.

Lemma write_trace_only cfg args l :
  Forall (fun e => match e with YieldReq _ | FdWrite _ _ => True | _ => False end)
         (write_trace cfg args l).
Proof.
  induction l as [|r l IH]; [constructor|]. unfold write_trace in *. simpl.
  constructor; [exact I|]. destruct (kept cfg (project_name r)); simpl; auto.
Qed.

(** *** Parsing the top-level requirements *)

Lemma parse_all_run l :
  (exists s, s ∈ l /\ parse s = None /\ parse_all l = ([], inl (InvalidRequirement s))) \/
  (exists rs, Forall2 (fun s r => parse s = Some r) l rs /\ parse_all l = ([], inr rs)).
Proof.
  induction l as [|s l IH]; simpl.
  - right. exists []. split; [constructor|reflexivity].
  - destruct (parse s) as [r|] eqn:Hs.
    + destruct IH as [(s' & Hin & Hnone & ->)|(rs & Hall & ->)].
      * left. exists s'. repeat split; auto. by right.
      * right. exists (r :: rs). split; [by constructor|reflexivity].
    + left. exists s. repeat split; auto. by left.
Qed.

(** The strings that lines 117-119 parse: the keys of [wheels], then the
    entries of [requirements]. *)
Definition requirement_strings (cfg : Config) : list string :=
  map fst (wheels cfg) ++ requirements cfg.

Lemma toplevel_reqs_run cfg :
  (exists s, s ∈ requirement_strings cfg /\ parse s = None /\
             toplevel_reqs cfg = ([], inl (InvalidRequirement s))) \/
  (exists reqs,
      (forall s, s ∈ requirement_strings cfg -> exists r, parse s = Some r /\ r ∈ reqs) /\
      (forall r, r ∈ reqs -> exists s, s ∈ requirement_strings cfg /\ parse s = Some r) /\
      toplevel_reqs cfg = ([], inr reqs)).
Proof.
  unfold toplevel_reqs, requirement_strings.
  destruct (parse_all_run (map fst (wheels cfg))) as [(s & Hin & Hs & ->)|(ws & Hws & ->)].
  { left. exists s. repeat split; auto. apply elem_of_app. by left. }
  destruct (parse_all_run (requirements cfg)) as [(s & Hin & Hs & ->)|(rs & Hrs & ->)].
  { left. exists s. repeat split; auto. apply elem_of_app. by right. }
  right. exists (list_to_set ws ∪ list_to_set rs). split; [|split; [|reflexivity]].
  - intros s [Hin|Hin]%elem_of_app.
    + destruct (Forall2_pick_l _ _ _ _ Hws Hin) as (r & Hr & Hp).
      exists r. split; [exact Hp|]. apply elem_of_union. left. by apply elem_of_list_to_set.
    + destruct (Forall2_pick_l _ _ _ _ Hrs Hin) as (r & Hr & Hp).
      exists r. split; [exact Hp|]. apply elem_of_union. right. by apply elem_of_list_to_set.
  - intros r [Hin|Hin]%elem_of_union; apply elem_of_list_to_set in Hin.
    + destruct (Forall2_pick_r _ _ _ _ Hws Hin) as (s & Hs & Hp).
      exists s. split; [|exact Hp]. apply elem_of_app. by left.
    + destruct (Forall2_pick_r _ _ _ _ Hrs Hin) as (s & Hs & Hp).
      exists s. split; [|exact Hp]. apply elem_of_app. by right.
Qed.

(** *** Feeding the resolver *)

Lemma build_wheel_total args v w acc entry :
  exists acc', snd (build_wheel args v w acc entry) = inr acc'.
Proof.
  destruct entry as [name url0]. unfold build_wheel.
  destruct (split_rev url0) as [url rev].
  destruct (local_clones args); [|destruct (skip_repo_updates args)];
    simpl; eexists; reflexivity.
Qed.

Lemma build_wheel_setup args v w acc entry :
  Forall (fun e => is_setup e = true) (fst (build_wheel args v w acc entry)).
Proof.
  destruct entry as [name url0]. unfold build_wheel.
  destruct (split_rev url0) as [url rev].
  destruct (local_clones args); [|destruct (skip_repo_updates args)];
    simpl; repeat constructor.
Qed.

Definition is_feed (e : event) : Prop :=
  match e with AddWheel _ | AddRequirement _ => True | _ => False end.

Lemma feed_loop_trace {A} (ev : A -> event) (f : Closure -> A -> exn + Closure)
    (l : list A) (s : Closure) :
  (forall x, is_feed (ev x)) ->
  Forall is_feed
    (fst (fold_each l (fun s x => emit (ev x);; lift (f s x)) s)).
Proof.
  intros Hev. apply fold_each_trace_Forall. intros s' x. simpl.
  destruct (f s' x); simpl; repeat constructor; apply Hev.
Qed.

Lemma build_wheels_total cfg args : exists ws, snd (build_wheels cfg args) = inr ws.
Proof. apply fold_each_total. intros. apply build_wheel_total. Qed.

(** The calls of lines 79-114. *)
Definition setup_trace (cfg : Config) (args : Args) : list event :=
  Mkdir (vcs_cache_dir args) :: Mkdir (wheel_cache_dir args) :: Mkdir (target_dir args)
    :: fst (build_wheels cfg args).

Lemma setup_trace_setup cfg args :
  Forall (fun e => is_setup e = true) (setup_trace cfg args).
Proof.
  repeat constructor. apply fold_each_trace_Forall. intros. apply build_wheel_setup.
Qed.

(** How the feeding phase unfolds. *)
Lemma feed_closure_run cfg args :
  exists ws,
    snd (build_wheels cfg args) = inr ws /\
    match snd (toplevel_reqs cfg) with
    | inl x => feed_closure cfg args = (setup_trace cfg args, inl x)
    | inr reqs =>
        match platforms cfg with
        | None => feed_closure cfg args = (setup_trace cfg args, inl (KeyError "platforms"))
        | Some _ =>
            exists t_add r,
              feed_closure cfg args = (setup_trace cfg args ++ t_add, r) /\
              Forall is_feed t_add /\
              (forall pypi, r = inr pypi ->
                 t_add = map AddWheel ws ++ map AddRequirement (elements reqs)) /\
              ((forall c w, exists c', add_wheel c w = inr c') ->
               (forall c q, exists c', add_requirement c q = inr c') ->
               exists pypi, r = inr pypi)
        end
    end.
Proof.
  unfold feed_closure, setup_trace.
  destruct (build_wheels_total cfg args) as [ws Hws]. exists ws. split; [exact Hws|].
  destruct (build_wheels cfg args) as [tb rb]. simpl in Hws. subst rb.
  assert (Htop : fst (toplevel_reqs cfg) = []).
  { destruct (toplevel_reqs_run cfg) as [(? & _ & _ & ->)|(? & _ & _ & ->)]; reflexivity. }
  destruct (toplevel_reqs cfg) as [tt0 [x|reqs]]; simpl in Htop; subst tt0; simpl.
  { rewrite app_nil_r. reflexivity. }
  destruct (platforms cfg) as [targets|]; simpl.
  2:{ rewrite app_nil_r. reflexivity. }
  set (pypi0 := PyPIClosure _ _ _ _).
  pose proof (feed_loop_trace AddWheel add_wheel ws pypi0 (fun _ => I)) as Hw.
  destruct (fold_each ws _ pypi0) as [tw [x|pypi1]] eqn:Hloop1; simpl in Hw |- *.
  { exists tw, (inl x). split; [reflexivity|]. split; [exact Hw|].
    split; [discriminate|]. intros Hadd _.
    destruct (fold_each_total ws
                (fun pypi wheel => emit (AddWheel wheel);; lift (add_wheel pypi wheel)) pypi0)
      as [c Hc].
    - intros c w'. destruct (Hadd c w') as [c' Hc']. exists c'. simpl. by rewrite Hc'.
    - rewrite Hloop1 in Hc. discriminate. }
  apply fold_each_announce in Hloop1. subst tw.
  pose proof (feed_loop_trace AddRequirement add_requirement (elements reqs) pypi1
                (fun _ => I)) as Hr.
  destruct (fold_each (elements reqs) _ pypi1) as [tr r] eqn:Hloop2; simpl in Hr |- *.
  exists (map AddWheel ws ++ tr), r. split; [reflexivity|].
  split; [apply Forall_app; auto|]. split.
  - intros pypi ->. apply fold_each_announce in Hloop2. by subst tr.
  - intros _ Hadd.
    destruct (fold_each_total (elements reqs)
                (fun pypi req => emit (AddRequirement req);; lift (add_requirement pypi req))
                pypi1) as [c Hc].
    + intros c q. destruct (Hadd c q) as [c' Hc']. exists c'. simpl. by rewrite Hc'.
    + rewrite Hloop2 in Hc. simpl in Hc. eauto.
Qed.

Lemma feed_closure_quiet cfg args :
  Forall (fun e => is_output e = false) (fst (feed_closure cfg args)).
Proof.
  destruct (feed_closure_run cfg args) as (ws & _ & Hrun).
  assert (Forall (fun e => is_output e = false) (setup_trace cfg args)) as Hq.
  { eapply Forall_impl; [apply setup_trace_setup|]. by intros []. }
  destruct (snd (toplevel_reqs cfg)); [by rewrite Hrun|].
  destruct (platforms cfg); [|by rewrite Hrun].
  destruct Hrun as (t_add & r & -> & Hadd & _ & _). cbn [fst].
  apply Forall_app. split; [exact Hq|].
  eapply Forall_impl; [exact Hadd|]. by intros [].
Qed.

(** *** What [main] copies and writes *)

Local Ltac quiet H :=
  apply omap_quiet; eapply Forall_impl; [exact H|]; by intros [].

Lemma main_outputs cfg args :
  let t := fst (main cfg args) in
  copied t = map (fun f => (f, target_dir args))
               (filter (fun f => kept cfg (pkg_name f)) (yielded_files t)) /\
  written t = map (fun r => (frozen_path cfg args, req_str r +:+ newline))
                (filter (fun r => kept cfg (project_name r)) (yielded_reqs t)) /\
  (opened t = [frozen_path cfg args] \/ opened t = [] /\ yielded_reqs t = []).
Proof.
  cbv zeta. rewrite main_run.
  pose proof (feed_closure_quiet cfg args) as Hq.
  destruct (feed_closure cfg args) as [t0 [x|pypi]]; simpl in Hq.
  { simpl. unfold copied, written, yielded_files, yielded_reqs, opened.
    rewrite !omap_quiet by (eapply Forall_impl; [exact Hq|]; by intros []).
    auto. }
  cbv zeta.
  pose proof (copy_trace_only cfg args (fst (file_closure pypi))) as Hc.
  pose proof (write_trace_only cfg args (fst (closure_as_requirements pypi))) as Hw.
  assert (copied t0 = []) as Hc0 by quiet Hq.
  assert (written t0 = []) as Hw0 by quiet Hq.
  assert (yielded_files t0 = []) as Hf0 by quiet Hq.
  assert (yielded_reqs t0 = []) as Hr0 by quiet Hq.
  assert (opened t0 = []) as Ho0 by quiet Hq.
  assert (written (copy_trace cfg args (fst (file_closure pypi))) = []) as Hw1 by quiet Hc.
  assert (yielded_reqs (copy_trace cfg args (fst (file_closure pypi))) = []) as Hr1
    by quiet Hc.
  assert (opened (copy_trace cfg args (fst (file_closure pypi))) = []) as Ho1 by quiet Hc.
  assert (copied (write_trace cfg args (fst (closure_as_requirements pypi))) = []) as Hc2
    by quiet Hw.
  assert (yielded_files (write_trace cfg args (fst (closure_as_requirements pypi))) = [])
    as Hf2 by quiet Hw.
  assert (opened (write_trace cfg args (fst (closure_as_requirements pypi))) = []) as Ho2
    by quiet Hw.
  pose proof (copy_trace_copied cfg args (fst (file_closure pypi))) as Hcc.
  pose proof (copy_trace_yielded cfg args (fst (file_closure pypi))) as Hcy.
  pose proof (write_trace_written cfg args (fst (closure_as_requirements pypi))) as Hww.
  pose proof (write_trace_yielded cfg args (fst (closure_as_requirements pypi))) as Hwy.
  unfold copied, written, yielded_files, yielded_reqs, opened in *.
  destruct (snd (file_closure pypi)); simpl.
  - rewrite !omap_app, Hc0, Hw0, Hf0, Hr0, Ho0, Hw1, Hr1, Ho1, Hcc, Hcy. simpl. auto.
  - rewrite !omap_app. change (OpenW ?p :: ?l) with ([OpenW p] ++ l).
    rewrite !omap_app, Hc0, Hw0, Hf0, Hr0, Ho0, Hw1, Hr1, Ho1, Hc2, Hf2, Ho2,
      Hcc, Hcy, Hww, Hwy.
    simpl. rewrite !app_nil_r. auto.
Qed.

(** C1.  In a run whose configuration has a [discard_from_closure]
    pattern, the files copied into the target directory are exactly the
    files yielded by [file_closure()] whose package name (the basename up
    to the first dash, underscores replaced by dashes) the pattern does
    not match, and the lines written to the frozen requirement file are
    exactly those of the requirements yielded by
    [closure_as_requirements()] whose project name the pattern does not
    match: a matching file is never copied, a matching requirement is
    never written, and every other one is. *)
Theorem discard_filters_both_outputs cfg args pattern :
  discard_from_closure cfg = Some pattern ->
  let t := fst (main cfg args) in
  copied t = map (fun f => (f, target_dir args))
               (filter (fun f => re_search pattern (pkg_name f) = false)
                       (yielded_files t)) /\
  written t = map (fun r => (frozen_path cfg args, req_str r +:+ newline))
                (filter (fun r => re_search pattern (project_name r) = false)
                        (yielded_reqs t)) /\
  (forall f, f ∈ yielded_files t ->
     if re_search pattern (pkg_name f) then forall d, (f, d) ∉ copied t
     else (f, target_dir args) ∈ copied t) /\
  (forall r, r ∈ yielded_reqs t -> re_search pattern (project_name r) = false ->
     (frozen_path cfg args, req_str r +:+ newline) ∈ written t) /\
  (forall p line, (p, line) ∈ written t ->
     exists r, r ∈ yielded_reqs t /\ re_search pattern (project_name r) = false /\
               line = req_str r +:+ newline).
Proof.
  intros Hcfg. cbv zeta.
  destruct (main_outputs cfg args) as (Hc & Hw & _).
  assert (Hkept : forall name, kept cfg name <-> re_search pattern name = false).
  { intros name. unfold kept. rewrite Hcfg. by destruct (re_search pattern name). }
  rewrite (list_filter_iff _ (fun f => re_search pattern (pkg_name f) = false)) in Hc
    by (intros f; apply Hkept).
  rewrite (list_filter_iff _ (fun r => re_search pattern (project_name r) = false)) in Hw
    by (intros r; apply Hkept).
  split; [exact Hc|]. split; [exact Hw|]. split; [|split].
  - intros f Hf. destruct (re_search pattern (pkg_name f)) eqn:Hm.
    + intros d. rewrite Hc. intros (f' & [= <- _] & Hin)%list_elem_of_fmap.
      apply list_elem_of_filter in Hin as [Hno _]. congruence.
    + rewrite Hc. apply (list_elem_of_fmap_2 (fun f => (f, target_dir args))).
      by apply list_elem_of_filter.
  - intros r Hr Hm. rewrite Hw.
    apply (list_elem_of_fmap_2 (fun r => (frozen_path cfg args, req_str r +:+ newline))).
    by apply list_elem_of_filter.
  - intros p line. rewrite Hw. intros (r & [= -> ->] & Hin)%list_elem_of_fmap.
    apply list_elem_of_filter in Hin as [Hno Hin]. eauto.
Qed.

(** *** The requirements handed to the resolver *)

Lemma added_reqs_wheels ws : added_reqs (map AddWheel ws) = [].
Proof. induction ws; [reflexivity|assumption]. Qed.

Lemma added_reqs_reqs l : added_reqs (map AddRequirement l) = l.
Proof.
  induction l as [|r l IH]; [reflexivity|].
  change (r :: added_reqs (map AddRequirement l) = r :: l). by rewrite IH.
Qed.

Lemma feed_closure_added cfg args t pypi :
  feed_closure cfg args = (t, inr pypi) ->
  exists reqs, toplevel_reqs cfg = ([], inr reqs) /\ added_reqs t = elements reqs.
Proof.
  intros Hfeed. destruct (feed_closure_run cfg args) as (ws & _ & Hrun).
  destruct (toplevel_reqs_run cfg) as [(s & _ & _ & Htop)|(reqs & _ & _ & Htop)];
    rewrite Htop in Hrun |- *; cbn [snd] in Hrun.
  { rewrite Hrun in Hfeed. discriminate. }
  exists reqs. split; [reflexivity|].
  destruct (platforms cfg); [|rewrite Hrun in Hfeed; discriminate].
  destruct Hrun as (t_add & r & Hrun & _ & Hok & _).
  assert (t = setup_trace cfg args ++ t_add /\ r = inr pypi) as [-> ->]
    by (rewrite Hrun in Hfeed; by injection Hfeed).
  rewrite (Hok pypi eq_refl). unfold added_reqs. rewrite !omap_app.
  fold (added_reqs (setup_trace cfg args)) (added_reqs (map AddWheel ws))
       (added_reqs (map AddRequirement (elements reqs))).
  rewrite added_reqs_wheels, added_reqs_reqs.
  assert (added_reqs (setup_trace cfg args) = []) as ->; [|reflexivity].
  apply omap_quiet. eapply Forall_impl; [apply setup_trace_setup|]. by intros [].
Qed.

Lemma feed_closure_total cfg args :
  (forall s, s ∈ requirement_strings cfg -> is_Some (parse s)) ->
  is_Some (platforms cfg) ->
  (forall c w, exists c', add_wheel c w = inr c') ->
  (forall c q, exists c', add_requirement c q = inr c') ->
  exists t pypi, feed_closure cfg args = (t, inr pypi).
Proof.
  intros Hparse [targets Htargets] Hw Hr.
  destruct (feed_closure_run cfg args) as (ws & _ & Hrun).
  destruct (toplevel_reqs_run cfg) as [(s & Hin & Hnone & _)|(reqs & _ & _ & Htop)].
  { destruct (Hparse s Hin) as [r Hr']. congruence. }
  rewrite Htop, Htargets in Hrun. simpl in Hrun.
  destruct Hrun as (t_add & r & Hrun & _ & _ & Htotal).
  destruct (Htotal Hw Hr) as [pypi ->]. eauto.
Qed.

(** The output loops hand nothing to the resolver. *)
Lemma main_added_reqs cfg args :
  added_reqs (fst (main cfg args)) = added_reqs (fst (feed_closure cfg args)).
Proof.
  rewrite main_run. destruct (feed_closure cfg args) as [t0 [x|pypi]]; [reflexivity|].
  cbv zeta.
  pose proof (copy_trace_only cfg args (fst (file_closure pypi))) as Hc.
  pose proof (write_trace_only cfg args (fst (closure_as_requirements pypi))) as Hw.
  assert (added_reqs (copy_trace cfg args (fst (file_closure pypi))) = []) as Hc'
    by quiet Hc.
  assert (added_reqs (write_trace cfg args (fst (closure_as_requirements pypi))) = [])
    as Hw' by quiet Hw.
  unfold added_reqs in *.
  destruct (snd (file_closure pypi)); simpl.
  - by rewrite omap_app, Hc', app_nil_r.
  - change (OpenW ?p :: ?l) with ([OpenW p] ++ l).
    by rewrite !omap_app, Hc', Hw', !app_nil_r.
Qed.

Lemma strings_added cfg args t pypi :
  feed_closure cfg args = (t, inr pypi) ->
  forall s, s ∈ requirement_strings cfg ->
    exists r, parse s = Some r /\ r ∈ added_reqs (fst (main cfg args)).
Proof.
  intros Hfeed s Hs. rewrite main_added_reqs, Hfeed. simpl.
  destruct (feed_closure_added _ _ _ _ Hfeed) as (reqs & Htop & ->).
  destruct (toplevel_reqs_run cfg) as [(s' & _ & _ & Hfail)|(reqs' & Hall & _ & Htop')].
  { rewrite Hfail in Htop. discriminate. }
  rewrite Htop' in Htop. injection Htop as ->.
  destruct (Hall s Hs) as (r & Hr & Hin). exists r. split; [exact Hr|].
  by apply elem_of_elements.
Qed.


(** C8.  The set of top-level requirements is the union of the parsed
    keys of [wheels] and the parsed entries of [requirements]; so when
    the resolver has been fed, the requirement parsed from each wheel
    name was passed to [add_requirement], whatever [requirements] holds
    (and the resolver is fed whenever every string parses, [platforms] is
    present and the resolver accepts what it is given). *)
Theorem wheel_names_are_toplevel_requirements cfg args :
  (forall reqs, snd (toplevel_reqs cfg) = inr reqs ->
     forall r, r ∈ reqs <->
       (exists name, name ∈ map fst (wheels cfg) /\ parse name = Some r) \/
       (exists s, s ∈ requirements cfg /\ parse s = Some r)) /\
  (forall t pypi, feed_closure cfg args = (t, inr pypi) ->
     forall name, name ∈ map fst (wheels cfg) ->
       exists r, parse name = Some r /\ r ∈ added_reqs (fst (main cfg args))) /\
  ((forall s, s ∈ requirement_strings cfg -> is_Some (parse s)) ->
   is_Some (platforms cfg) ->
   (forall c w, exists c', add_wheel c w = inr c') ->
   (forall c q, exists c', add_requirement c q = inr c') ->
   exists t pypi, feed_closure cfg args = (t, inr pypi)).
Proof.
  split; [|split; [|apply feed_closure_total]].
  - intros reqs Hreqs r.
    destruct (toplevel_reqs_run cfg) as [(s' & _ & _ & Hfail)|(reqs' & Hall & Hback & Htop)].
    { rewrite Hfail in Hreqs. discriminate. }
    rewrite Htop in Hreqs. injection Hreqs as ->. split.
    + intros Hr. destruct (Hback r Hr) as (s & Hs & Hp).
      apply elem_of_app in Hs as [Hs|Hs]; [left|right]; eauto.
    + intros [(s & Hs & Hp)|(s & Hs & Hp)].
      * destruct (Hall s) as (r' & Hr' & Hin); [apply elem_of_app; by left|]. congruence.
      * destruct (Hall s) as (r' & Hr' & Hin); [apply elem_of_app; by right|]. congruence.
  - intros t pypi Hfeed name Hname. eapply strings_added; [exact Hfeed|].
    apply elem_of_app. by left.
Qed.

(** *** The checkouts of the wheel sources *)

(** The [checkout_manager.update] call of one iteration of lines 90-114,
    if any: its [name], [vcs], [url] and [revision]. *)
Definition checkout_call (args : Args) (entry : string * string)
  : list (string * string * string * string) :=
  let '(name, url0) := entry in
  let '(url, rev) := split_rev url0 in
  match local_clones args with
  | Some clones => [(name, "external", os_path_join clones (after_last "/" url), rev)]
  | None => if skip_repo_updates args then [] else [(name, "git", url, rev)]
  end.

Lemma build_wheel_checkouts args v w acc entry :
  checkouts (fst (build_wheel args v w acc entry)) = checkout_call args entry.
Proof.
  destruct entry as [name url0]. unfold build_wheel, checkout_call.
  destruct (split_rev url0) as [url rev].
  destruct (local_clones args); [|destruct (skip_repo_updates args)]; reflexivity.
Qed.

Lemma build_loop_checkouts args v w l acc :
  checkouts (fst (fold_each l (build_wheel args v w) acc)) =
    flat_map (checkout_call args) l.
Proof.
  revert acc. induction l as [|entry l IH]; intros acc; [reflexivity|].
  simpl. destruct (build_wheel_total args v w acc entry) as [acc' Hacc].
  pose proof (build_wheel_checkouts args v w acc entry) as Hc.
  destruct (build_wheel args v w acc entry) as [t r]. simpl in Hacc, Hc. subst r.
  simpl. specialize (IH acc'). destruct (fold_each l _ acc') as [t' r']. simpl in *.
  unfold checkouts in *. by rewrite omap_app, Hc, IH.
Qed.

Lemma main_checkouts cfg args :
  checkouts (fst (main cfg args)) = flat_map (checkout_call args) (wheels cfg).
Proof.
  assert (Hsetup : checkouts (setup_trace cfg args) =
                   flat_map (checkout_call args) (wheels cfg)).
  { unfold setup_trace, build_wheels. apply build_loop_checkouts. }
  assert (Hfeed : checkouts (fst (feed_closure cfg args)) =
                  flat_map (checkout_call args) (wheels cfg)).
  { destruct (feed_closure_run cfg args) as (ws & _ & Hrun).
    destruct (snd (toplevel_reqs cfg)); [by rewrite Hrun|].
    destruct (platforms cfg); [|by rewrite Hrun].
    destruct Hrun as (t_add & r & -> & Hadd & _ & _). cbn [fst].
    assert (checkouts t_add = []) as Hq by quiet Hadd.
    unfold checkouts in *. by rewrite omap_app, Hq, app_nil_r. }
  rewrite main_run. destruct (feed_closure cfg args) as [t0 [x|pypi]]; [exact Hfeed|].
  cbv zeta. simpl in Hfeed.
  pose proof (copy_trace_only cfg args (fst (file_closure pypi))) as Hc.
  pose proof (write_trace_only cfg args (fst (closure_as_requirements pypi))) as Hw.
  assert (checkouts (copy_trace cfg args (fst (file_closure pypi))) = []) as Hc'
    by quiet Hc.
  assert (checkouts (write_trace cfg args (fst (closure_as_requirements pypi))) = [])
    as Hw' by quiet Hw.
  unfold checkouts in *.
  destruct (snd (file_closure pypi)); simpl.
  - by rewrite omap_app, Hc', app_nil_r.
  - change (OpenW ?p :: ?l) with ([OpenW p] ++ l).
    by rewrite !omap_app, Hc', Hw', !app_nil_r.
Qed.

Lemma split_rev_spec url0 :
  (forall pre post, url0 = pre +:+ String "#" post -> contains "#" pre = false ->
     split_rev url0 = (pre, post)) /\
  (contains "#" url0 = false -> split_rev url0 = (url0, "master")).
Proof.
  unfold split_rev. split.
  - intros pre post -> Hpre.
    by rewrite contains_app_char, before_first_app, after_first_app.
  - by intros ->.
Qed.

(** C4, as the code has it.  For an entry of [wheels], the URL value is
    cut at its first [#]: what precedes is the URL and what follows is the
    revision, and the revision is [master] when there is no [#].  Without
    [--local-clones] and without [--skip-repo-updates], the run updates
    the checkout from that URL at that revision with git.  With
    [--local-clones], it updates from the clones directory joined with the
    last component of that URL instead, at the same revision.  With
    [--skip-repo-updates] alone, it updates no checkout. *)
Theorem wheel_url_and_revision cfg args name url0 :
  (name, url0) ∈ wheels cfg ->
  exists url rev,
    split_rev url0 = (url, rev) /\
    (forall pre post, url0 = pre +:+ String "#" post -> contains "#" pre = false ->
       url = pre /\ rev = post) /\
    (contains "#" url0 = false -> url = url0 /\ rev = "master") /\
    match local_clones args with
    | Some clones =>
        (name, "external", os_path_join clones (after_last "/" url), rev)
          ∈ checkouts (fst (main cfg args))
    | None =>
        if skip_repo_updates args then checkouts (fst (main cfg args)) = []
        else (name, "git", url, rev) ∈ checkouts (fst (main cfg args))
    end.
Proof.
  intros Hin. destruct (split_rev url0) as [url rev] eqn:Hsplit.
  exists url, rev. split; [reflexivity|].
  destruct (split_rev_spec url0) as [Hsharp Hnone].
  split; [|split].
  - intros pre post Hurl Hpre. rewrite (Hsharp pre post Hurl Hpre) in Hsplit.
    by injection Hsplit as -> ->.
  - intros Hno. rewrite (Hnone Hno) in Hsplit. by injection Hsplit as -> ->.
  - rewrite main_checkouts.
    assert (Hcall : forall c, c ∈ checkout_call args (name, url0) ->
              c ∈ flat_map (checkout_call args) (wheels cfg)).
    { intros c Hc. apply list_elem_of_In, in_flat_map. exists (name, url0).
      split; by apply list_elem_of_In. }
    destruct (local_clones args) as [clones|] eqn:Hclones.
    + apply Hcall. unfold checkout_call. rewrite Hsplit, Hclones. by left.
    + destruct (skip_repo_updates args) eqn:Hskip.
      * clear Hcall Hin. induction (wheels cfg) as [|[n u] l IH]; [reflexivity|].
        simpl. rewrite IH, app_nil_r. unfold checkout_call.
        destruct (split_rev u). by rewrite Hclones, Hskip.
      * apply Hcall. unfold checkout_call. rewrite Hsplit, Hclones, Hskip. by left.
Qed.

(** *** Further facts about a run *)

Definition built (t : list event) : list (string * string) :=
  omap (fun e => match e with WheelBuild s d => Some (s, d) | _ => None end) t.
Definition added_wheels (t : list event) : list string :=
  omap (fun e => match e with AddWheel w => Some w | _ => None end) t.

(** The wheel that line 111 builds for an entry of [wheels]. *)
Definition wheel_path (args : Args) (entry : string * string) : string :=
  wheel_build (checkout_dir (fst entry) (vcs_cache_dir args)) (wheel_cache_dir args).

Lemma build_wheel_result args acc entry :
  snd (build_wheel args (vcs_cache_dir args) (wheel_cache_dir args) acc entry)
    = inr (acc ++ [wheel_path args entry]) /\
  built (fst (build_wheel args (vcs_cache_dir args) (wheel_cache_dir args) acc entry))
    = [(checkout_dir (fst entry) (vcs_cache_dir args), wheel_cache_dir args)].
Proof.
  destruct entry as [name url0]. unfold build_wheel, wheel_path.
  destruct (split_rev url0) as [url rev].
  destruct (local_clones args); [|destruct (skip_repo_updates args)]; split; reflexivity.
Qed.

Lemma build_loop_result args l acc :
  snd (fold_each l (build_wheel args (vcs_cache_dir args) (wheel_cache_dir args)) acc)
    = inr (acc ++ map (wheel_path args) l) /\
  built (fst (fold_each l (build_wheel args (vcs_cache_dir args) (wheel_cache_dir args)) acc))
    = map (fun entry => (checkout_dir (fst entry) (vcs_cache_dir args), wheel_cache_dir args)) l.
Proof.
  revert acc. induction l as [|entry l IH]; intros acc; simpl.
  - by rewrite app_nil_r.
  - destruct (build_wheel_result args acc entry) as [Hr Hb].
    destruct (build_wheel args _ _ acc entry) as [t1 r1]. simpl in Hr, Hb. subst r1.
    simpl. destruct (IH (acc ++ [wheel_path args entry])) as [Hr' Hb'].
    destruct (fold_each l _ _) as [t2 r2]. simpl in *.
    split; [by rewrite Hr', <- app_assoc|].
    unfold built in *. by rewrite omap_app, Hb, Hb'.
Qed.

(** How the feeding phase unfolds, whatever its outcome. *)
Lemma feed_closure_shape cfg args :
  fst (feed_closure cfg args) = setup_trace cfg args \/
  exists reqs k1 k2,
    toplevel_reqs cfg = ([], inr reqs) /\
    fst (feed_closure cfg args) =
      setup_trace cfg args
        ++ map AddWheel (take k1 (map (wheel_path args) (wheels cfg)))
        ++ map AddRequirement (take k2 (elements reqs)).
Proof.
  unfold feed_closure, setup_trace, build_wheels.
  destruct (build_loop_result args (wheels cfg) []) as [Hws _]. simpl in Hws.
  destruct (fold_each (wheels cfg) _ []) as [tb rb]. simpl in Hws. subst rb.
  destruct (toplevel_reqs_run cfg) as [(s & _ & _ & ->)|(reqs & _ & _ & Htop)].
  { left. simpl. by rewrite app_nil_r. }
  rewrite Htop. destruct (platforms cfg) as [targets|]; simpl.
  2:{ left. by rewrite app_nil_r. }
  right. exists reqs.
  set (pypi0 := PyPIClosure _ _ _ _).
  destruct (fold_each_announce_prefix (E := event) (X := exn) AddWheel add_wheel
              (map (wheel_path args) (wheels cfg)) pypi0) as [k1 Hk1].
  unfold lift.
  destruct (fold_each (map (wheel_path args) (wheels cfg)) _ pypi0) as [tw [x|pypi1]] eqn:Hl1;
    simpl in Hk1 |- *.
  { exists k1, 0%nat. split; [reflexivity|]. rewrite Hk1. simpl. by rewrite !app_nil_r. }
  apply fold_each_announce in Hl1. subst tw.
  destruct (fold_each_announce_prefix (E := event) (X := exn) AddRequirement add_requirement
              (elements reqs) pypi1) as [k2 Hk2].
  destruct (fold_each (elements reqs) _ pypi1) as [tr r]. simpl in Hk2 |- *.
  exists (length (map (wheel_path args) (wheels cfg))), k2. split; [reflexivity|].
  rewrite firstn_all, Hk2. reflexivity.
Qed.

(** What the output loops add to a run. *)
Lemma main_shape cfg args :
  exists outs,
    fst (main cfg args) = fst (feed_closure cfg args) ++ outs /\
    Forall (fun e => is_output e = true) outs.
Proof.
  rewrite main_run. destruct (feed_closure cfg args) as [t0 [x|pypi]].
  { exists []. split; [by rewrite app_nil_r|constructor]. }
  cbv zeta.
  pose proof (copy_trace_only cfg args (fst (file_closure pypi))) as Hc.
  pose proof (write_trace_only cfg args (fst (closure_as_requirements pypi))) as Hw.
  assert (Hc' : Forall (fun e => is_output e = true)
                  (copy_trace cfg args (fst (file_closure pypi)))).
  { eapply Forall_impl; [exact Hc|]. by intros []. }
  assert (Hw' : Forall (fun e => is_output e = true)
                  (write_trace cfg args (fst (closure_as_requirements pypi)))).
  { eapply Forall_impl; [exact Hw|]. by intros []. }
  destruct (snd (file_closure pypi)); simpl.
  - eexists. split; [reflexivity|exact Hc'].
  - eexists. split; [reflexivity|]. apply Forall_app. split; [exact Hc'|].
    constructor; [reflexivity|exact Hw'].
Qed.

(** The run of a configuration without [platforms], all of whose
    requirement strings parse: the wheels are built, then line 125 raises
    [KeyError]; the resolver is never created or fed, and nothing is
    copied or written. *)
Theorem missing_platforms_ends_run_after_setup cfg args :
  platforms cfg = None ->
  (forall s, s ∈ requirement_strings cfg -> is_Some (parse s)) ->
  main cfg args = (setup_trace cfg args, inl (KeyError "platforms")) /\
  Forall (fun e => is_setup e = true) (setup_trace cfg args).
Proof.
  intros Hnone Hparse. split; [|apply setup_trace_setup].
  destruct (feed_closure_run cfg args) as (ws & _ & Hrun).
  destruct (toplevel_reqs_run cfg) as [(s & Hin & Hs & _)|(reqs & _ & _ & Htop)].
  { destruct (Hparse s Hin) as [r Hr]. congruence. }
  rewrite Htop, Hnone in Hrun. cbn [snd] in Hrun. by rewrite main_run, Hrun.
Qed.

(** In every run, whatever its outcome, the three directories are made
    first and every entry of [wheels] has its wheel built, once and in the
    order of the configuration: as long as the checkouts and the builds
    themselves return, a failure (of the parser, of a missing key, of the
    resolver) can only come after all the builds. *)
Theorem every_wheel_is_built_first cfg args :
  built (fst (main cfg args))
    = map (fun entry => (checkout_dir (fst entry) (vcs_cache_dir args), wheel_cache_dir args))
        (wheels cfg) /\
  exists rest,
    fst (main cfg args) = setup_trace cfg args ++ rest /\
    Forall (fun e => is_setup e = false) rest /\
    take 3 (setup_trace cfg args)
      = [Mkdir (vcs_cache_dir args); Mkdir (wheel_cache_dir args); Mkdir (target_dir args)].
Proof.
  destruct (main_shape cfg args) as (outs & Hmain & Houts).
  assert (Hrest : exists adds, fst (feed_closure cfg args) = setup_trace cfg args ++ adds /\
                               Forall (fun e => is_setup e = false) adds).
  { destruct (feed_closure_shape cfg args) as [->|(reqs & k1 & k2 & _ & ->)].
    - exists []. split; [by rewrite app_nil_r|constructor].
    - eexists. split; [reflexivity|]. apply Forall_app. split; apply Forall_forall.
      + by intros e (w & -> & _)%list_elem_of_fmap.
      + by intros e (w & -> & _)%list_elem_of_fmap. }
  destruct Hrest as (adds & Hfeed & Hadds).
  assert (Hall : Forall (fun e => is_setup e = false) (adds ++ outs)).
  { apply Forall_app. split; [exact Hadds|].
    eapply Forall_impl; [exact Houts|]. by intros []. }
  split.
  - rewrite Hmain, Hfeed, <- app_assoc. unfold built. rewrite omap_app.
    fold (built (setup_trace cfg args)).
    rewrite (omap_quiet _ (adds ++ outs)), app_nil_r.
    + unfold setup_trace, build_wheels. apply (build_loop_result args (wheels cfg) []).
    + eapply Forall_impl; [exact Hall|]. by intros [].
  - exists (adds ++ outs). rewrite Hmain, Hfeed, <- app_assoc. auto.
Qed.

(** When the resolver has been fed, it was handed the wheel built for
    every entry of [wheels], in the order of the configuration, and only
    then the top-level requirements. *)
Theorem wheels_registered_before_requirements cfg args t pypi :
  feed_closure cfg args = (t, inr pypi) ->
  exists reqs,
    toplevel_reqs cfg = ([], inr reqs) /\
    t = setup_trace cfg args
          ++ map AddWheel (map (wheel_path args) (wheels cfg))
          ++ map AddRequirement (elements reqs).
Proof.
  intros Hfeed. destruct (feed_closure_run cfg args) as (ws & Hws & Hrun).
  destruct (build_loop_result args (wheels cfg) []) as [Hres _].
  unfold build_wheels in Hws. rewrite Hres in Hws. injection Hws as <-.
  destruct (toplevel_reqs_run cfg) as [(s & _ & _ & Htop)|(reqs & _ & _ & Htop)];
    rewrite Htop in Hrun; cbn [snd] in Hrun.
  { rewrite Hrun in Hfeed. discriminate. }
  exists reqs. split; [exact Htop|].
  destruct (platforms cfg); [|rewrite Hrun in Hfeed; discriminate].
  destruct Hrun as (t_add & r & Hrun & _ & Hok & _).
  assert (t = setup_trace cfg args ++ t_add /\ r = inr pypi) as [-> ->]
    by (rewrite Hrun in Hfeed; by injection Hfeed).
  by rewrite (Hok pypi eq_refl).
Qed.

(** In every run, no requirement is handed to the resolver twice: strings
    that parse to the same requirement, in [requirements] or as a wheel
    name, are added once. *)
Theorem requirement_never_added_twice cfg args :
  NoDup (added_reqs (fst (main cfg args))).
Proof.
  rewrite main_added_reqs.
  assert (Hsetup : added_reqs (setup_trace cfg args) = []).
  { apply omap_quiet. eapply Forall_impl; [apply setup_trace_setup|]. by intros []. }
  destruct (feed_closure_shape cfg args) as [->|(reqs & k1 & k2 & _ & ->)].
  { rewrite Hsetup. constructor. }
  unfold added_reqs. rewrite !omap_app.
  fold (added_reqs (setup_trace cfg args))
       (added_reqs (map AddWheel (take k1 (map (wheel_path args) (wheels cfg)))))
       (added_reqs (map AddRequirement (take k2 (elements reqs)))).
  rewrite Hsetup, added_reqs_wheels, added_reqs_reqs. simpl.
  apply (sublist_NoDup _ (elements reqs)); [apply NoDup_elements|apply sublist_take].
Qed.

(** *** Generators that raise *)

Lemma main_after_feed cfg args t0 pypi :
  feed_closure cfg args = (t0, inr pypi) ->
  Forall (fun e => is_output e = false) t0 /\
  main cfg args =
    match snd (file_closure pypi) with
    | Some x => (t0 ++ copy_trace cfg args (fst (file_closure pypi)), inl x)
    | None =>
        (t0 ++ copy_trace cfg args (fst (file_closure pypi))
            ++ OpenW (frozen_path cfg args)
               :: write_trace cfg args (fst (closure_as_requirements pypi)),
         match snd (closure_as_requirements pypi) with
         | Some x => inl x
         | None => inr tt
         end)
    end.
Proof.
  intros Hfeed. pose proof (feed_closure_quiet cfg args) as Hq.
  rewrite main_run, Hfeed. rewrite Hfeed in Hq. split; [exact Hq|reflexivity].
Qed.

Lemma outputs_after_copy cfg args t0 files :
  Forall (fun e => is_output e = false) t0 ->
  copied (t0 ++ copy_trace cfg args files)
    = map (fun f => (f, target_dir args)) (filter (fun f => kept cfg (pkg_name f)) files) /\
  opened (t0 ++ copy_trace cfg args files) = [] /\
  written (t0 ++ copy_trace cfg args files) = [].
Proof.
  intros Hq. pose proof (copy_trace_only cfg args files) as Hc.
  assert (copied t0 = []) as Hc0 by quiet Hq.
  assert (written t0 = []) as Hw0 by quiet Hq.
  assert (opened t0 = []) as Ho0 by quiet Hq.
  assert (written (copy_trace cfg args files) = []) as Hw1 by quiet Hc.
  assert (opened (copy_trace cfg args files) = []) as Ho1 by quiet Hc.
  pose proof (copy_trace_copied cfg args files) as Hcc.
  unfold copied, written, opened in *.
  by rewrite !omap_app, Hc0, Hw0, Ho0, Hw1, Ho1, Hcc.
Qed.

Lemma outputs_after_write cfg args t0 files reqs :
  Forall (fun e => is_output e = false) t0 ->
  let t := t0 ++ copy_trace cfg args files
              ++ OpenW (frozen_path cfg args) :: write_trace cfg args reqs in
  copied t
    = map (fun f => (f, target_dir args)) (filter (fun f => kept cfg (pkg_name f)) files) /\
  opened t = [frozen_path cfg args] /\
  written t
    = map (fun r => (frozen_path cfg args, req_str r +:+ newline))
        (filter (fun r => kept cfg (project_name r)) reqs).
Proof.
  intros Hq. cbv zeta.
  destruct (outputs_after_copy cfg args t0 files Hq) as (Hc & Ho & Hw).
  pose proof (write_trace_only cfg args reqs) as Hwo.
  assert (copied (write_trace cfg args reqs) = []) as Hc2 by quiet Hwo.
  assert (opened (write_trace cfg args reqs) = []) as Ho2 by quiet Hwo.
  pose proof (write_trace_written cfg args reqs) as Hww.
  rewrite !app_assoc. change (OpenW ?p :: ?l) with ([OpenW p] ++ l).
  unfold copied, written, opened in *.
  rewrite (omap_app _ _ ([OpenW (frozen_path cfg args)] ++ _)).
  rewrite (omap_app _ _ ([OpenW (frozen_path cfg args)] ++ _)).
  rewrite (omap_app _ _ ([OpenW (frozen_path cfg args)] ++ _)).
  rewrite Hc, Ho, Hw, !omap_app, Hc2, Ho2, Hww. simpl. by rewrite !app_nil_r.
Qed.


(** When [file_closure()] raises after yielding some files, the run ends
    with that exception: the files yielded before it and not discarded
    were copied all the same, and the frozen requirement file is neither
    opened nor written. *)
Theorem failing_file_closure_leaves_copies cfg args t0 pypi x :
  feed_closure cfg args = (t0, inr pypi) ->
  snd (file_closure pypi) = Some x ->
  snd (main cfg args) = inl x /\
  copied (fst (main cfg args))
    = map (fun f => (f, target_dir args))
        (filter (fun f => kept cfg (pkg_name f)) (fst (file_closure pypi))) /\
  opened (fst (main cfg args)) = [] /\
  written (fst (main cfg args)) = [].
Proof.
  intros Hfeed Hraise. destruct (main_after_feed _ _ _ _ Hfeed) as [Hq ->].
  rewrite Hraise. cbn [fst snd]. split; [reflexivity|]. by apply outputs_after_copy.
Qed.

(** When [closure_as_requirements()] raises after yielding some
    requirements, the run ends with that exception, after every file of
    the closure was copied: the frozen requirement file was opened for
    writing and holds the lines of the requirements yielded before the
    exception and not discarded. *)
Theorem failing_requirements_leave_partial_file cfg args t0 pypi x :
  feed_closure cfg args = (t0, inr pypi) ->
  snd (file_closure pypi) = None ->
  snd (closure_as_requirements pypi) = Some x ->
  snd (main cfg args) = inl x /\
  copied (fst (main cfg args))
    = map (fun f => (f, target_dir args))
        (filter (fun f => kept cfg (pkg_name f)) (fst (file_closure pypi))) /\
  opened (fst (main cfg args)) = [frozen_path cfg args] /\
  written (fst (main cfg args))
    = map (fun r => (frozen_path cfg args, req_str r +:+ newline))
        (filter (fun r => kept cfg (project_name r)) (fst (closure_as_requirements pypi))).
Proof.
  intros Hfeed Hfiles Hraise. destruct (main_after_feed _ _ _ _ Hfeed) as [Hq ->].
  rewrite Hfiles, Hraise. cbn [fst snd]. split; [reflexivity|].
  by apply outputs_after_write.
Qed.

Lemma filter_all {A} (P : A -> Prop) `{!forall x, Decision (P x)} (l : list A) :
  (forall x, P x) -> filter P l = l.
Proof.
  intros HP. induction l as [|x l IH]; [reflexivity|].
  rewrite filter_cons, decide_True by apply HP. by rewrite IH.
Qed.

(** Without a [discard_from_closure] key, every file that
    [file_closure()] yields is copied and the line of every requirement
    that [closure_as_requirements()] yields is written. *)
Theorem without_discard_everything_is_kept cfg args :
  discard_from_closure cfg = None ->
  copied (fst (main cfg args))
    = map (fun f => (f, target_dir args)) (yielded_files (fst (main cfg args))) /\
  written (fst (main cfg args))
    = map (fun r => (frozen_path cfg args, req_str r +:+ newline))
        (yielded_reqs (fst (main cfg args))).
Proof.
  intros Hnone. destruct (main_outputs cfg args) as (Hc & Hw & _).
  assert (Hkept : forall name, kept cfg name) by (intros name; unfold kept; by rewrite Hnone).
  rewrite filter_all in Hc by (intros f; apply Hkept).
  rewrite filter_all in Hw by (intros r; apply Hkept).
  split; assumption.
Qed.

(** *** Names and URLs *)

(** The URL and revision of a wheel entry lose nothing of the configured
    value: the URL holds no [#]; when the value holds one, the URL, a [#]
    and the revision make the value again (the revision may be empty and
    may hold further [#]); when it holds none, the URL is the value and
    the revision is [master]. *)
Theorem split_rev_loses_nothing url0 :
  contains "#" (fst (split_rev url0)) = false /\
  (contains "#" url0 = true ->
     url0 = fst (split_rev url0) +:+ String "#" (snd (split_rev url0))) /\
  (contains "#" url0 = false -> split_rev url0 = (url0, "master")).
Proof.
  unfold split_rev. destruct (contains "#" url0) eqn:Hc; simpl.
  - split; [apply before_first_free|]. split; [|discriminate].
    intros _. symmetry. by apply before_after_first.
  - split; [exact Hc|]. split; [discriminate|reflexivity].
Qed.

(** The package name derived from a file never holds an underscore or a
    slash; for a file whose basename is a name without dash, a dash and
    more, it is that name with underscores turned into dashes; and for a
    basename without dash it is the whole basename so rewritten. *)
Theorem pkg_name_shape f :
  contains "_" (pkg_name f) = false /\
  contains "/" (pkg_name f) = false /\
  (forall name rest,
     os_path_basename f = name +:+ String "-" rest -> contains "-" name = false ->
     pkg_name f = replace "_" "-" name) /\
  (contains "-" (os_path_basename f) = false ->
   pkg_name f = replace "_" "-" (os_path_basename f)).
Proof.
  unfold pkg_name. split; [by apply contains_replace_old|]. split; [|split].
  - apply contains_replace_other; [done|].
    apply contains_before_first, after_last_free.
  - intros name rest -> Hname. by rewrite before_first_app.
  - intros Hnone. by rewrite before_first_absent.
Qed.

End Main.

End Script.

(** ** A concrete world for the script *)

Module ScriptDemo.
Import PyStr Run Script.

(** Stand-ins for the collaborators: a requirement is its string and parses
    unless it holds a space; a pattern is searched as a literal substring;
    a wheel file is named after its project with underscores for dashes;
    the resolver hands back the wheels it was given, one more wheel for
    every pinned requirement, and every requirement pinned. *)
Fixpoint is_substring (pat text : string) : bool :=
  orb (String.prefix pat text)
      (match text with
       | EmptyString => false
       | String _ text' => is_substring pat text'
       end).

Definition parse (s : string) : option string :=
  if contains " " s then None else Some s.

Definition project_name (r : string) : string := before_first "=" r.

Definition wheel_file (dir project version : string) : string :=
  os_path_join dir (replace "-" "_" project +:+ "-" +:+ version +:+ "-py3-none-any.whl").

Definition resolver : Type := (list string * list string)%type.

Definition add_wheel (c : resolver) (w : string) : exn + resolver :=
  inr (fst c ++ [w], snd c).

Definition add_requirement (c : resolver) (r : string) : exn + resolver :=
  inr (fst c, snd c ++ [r]).

Definition file_closure (c : resolver) : gen exn string :=
  (fst c ++ omap (fun r => if contains "=" r
                           then Some (wheel_file "/cache/wheels" (project_name r)
                                        (after_last "=" r))
                           else None) (snd c),
   None).

Definition closure_as_requirements (c : resolver) : gen exn string :=
  (map (fun r => if contains "=" r then r else r +:+ "==1.0") (snd c), None).

Definition run (cfg : Config) (args : Args) : M (event (Req := string)) exn unit :=
  main parse id project_name is_substring id
    (fun name dir => os_path_join dir name)
    (fun src dest => wheel_file dest (os_path_basename src) "1.0")
    resolver (fun _ _ _ _ => ([], []))
    add_wheel add_requirement file_closure closure_as_requirements
    cfg args.

Definition cfg : Config := {|
  wheels := [("internal-tools", "https://example.org/it/internal-tools#develop")];
  requirements := ["requests==2.31"];
  discard_from_closure := Some "internal-";
  frozen_requirement_file := None;
  platforms := Some ["x86_64-linux"]
|}.

Definition args : Args := {|
  python3_version := 10;
  target_dir := "out";
  cache_dir := "/cache";
  skip_repo_updates := false;
  local_clones := None
|}.

(** The same command line with [--local-clones /clones]. *)
Definition clone_args : Args := {|
  python3_version := 10;
  target_dir := "out";
  cache_dir := "/cache";
  skip_repo_updates := false;
  local_clones := Some "/clones"
|}.

(** A run with a second, unparsable requirement. *)
Definition bad_cfg : Config := {|
  wheels := [("internal-tools", "https://example.org/it/internal-tools#develop")];
  requirements := ["requests==2.31"; "not a requirement"];
  discard_from_closure := None;
  frozen_requirement_file := Some "frozen.txt";
  platforms := Some ["x86_64-linux"]
|}.

Example run_bad_cfg :
  run bad_cfg args =
    ([Mkdir "/cache/vcs"; Mkdir "/cache/wheels"; Mkdir "out";
      CheckoutUpdate "internal-tools" "git" "https://example.org/it/internal-tools" "develop";
      WheelBuild "/cache/vcs/internal-tools" "/cache/wheels"],
     inl (InvalidRequirement "not a requirement")).
Proof. vm_compute. reflexivity. Qed.

(** The discard pattern at work: of the two wheels of the closure only the
    one of [requests] is copied, and only its requirement is written. *)
Lemma discard_filters_witness :
  discard_from_closure cfg = Some "internal-" /\
  yielded_files (fst (run cfg args)) =
    ["/cache/wheels/internal_tools-1.0-py3-none-any.whl";
     "/cache/wheels/requests-2.31-py3-none-any.whl"] /\
  copied (fst (run cfg args)) = [("/cache/wheels/requests-2.31-py3-none-any.whl", "out")] /\
  yielded_reqs (fst (run cfg args)) = ["internal-tools==1.0"; "requests==2.31"] /\
  written (fst (run cfg args)) = [("out/requirements.txt", "requests==2.31" +:+ newline)].
Proof.
  destruct (discard_filters_both_outputs parse id project_name is_substring id
              (fun name dir => os_path_join dir name)
              (fun src dest => wheel_file dest (os_path_basename src) "1.0")
              resolver (fun _ _ _ _ => ([], []))
              add_wheel add_requirement file_closure closure_as_requirements
              cfg args "internal-" eq_refl) as (Hcopied & Hwritten & _).
  fold (run cfg args) in Hcopied, Hwritten.
  split; [reflexivity|]. split; [vm_compute; reflexivity|].
  split; [rewrite Hcopied; vm_compute; reflexivity|].
  split; [vm_compute; reflexivity|].
  rewrite Hwritten. vm_compute. reflexivity.
Defined.

(** The wheel entry of [cfg] is checked out with git from the URL before
    the [#], at the revision after it. *)
Lemma wheel_url_and_revision_witness :
  ("internal-tools", "https://example.org/it/internal-tools#develop") ∈ wheels cfg /\
  ("internal-tools", "git", "https://example.org/it/internal-tools", "develop")
    ∈ checkouts (fst (run cfg args)).
Proof.
  split; [by left|].
  destruct (wheel_url_and_revision parse id project_name is_substring id
              (fun name dir => os_path_join dir name)
              (fun src dest => wheel_file dest (os_path_basename src) "1.0")
              resolver (fun _ _ _ _ => ([], []))
              add_wheel add_requirement file_closure closure_as_requirements
              cfg args "internal-tools" "https://example.org/it/internal-tools#develop")
    as (url & rev & Hsplit & _ & _ & Hcall); [by left|].
  vm_compute in Hsplit. injection Hsplit as <- <-. exact Hcall.
Defined.

(** C4 as stated fails under [--local-clones]: the one checkout of the run
    is updated from the local clone, not from the URL before the [#]. *)
Lemma local_clones_checkout_url :
  ("internal-tools", "https://example.org/it/internal-tools#develop") ∈ wheels cfg /\
  checkouts (fst (run cfg clone_args)) =
    [("internal-tools", "external", "/clones/internal-tools", "develop")] /\
  "/clones/internal-tools" <> "https://example.org/it/internal-tools".
Proof. split; [by left|]. split; [vm_compute; reflexivity|discriminate]. Qed.

(** *** More runs *)

(** The feeding phase of [run], and the same run with other generators. *)
Definition feed (cfg : Config) (args : Args) : M (event (Req := string)) exn resolver :=
  feed_closure parse id (fun name dir => os_path_join dir name)
    (fun src dest => wheel_file dest (os_path_basename src) "1.0")
    resolver (fun _ _ _ _ => ([], [])) add_wheel add_requirement cfg args.

Definition run_with (files : resolver -> gen exn string)
    (reqs : resolver -> gen exn string) (cfg : Config) (args : Args)
  : M (event (Req := string)) exn unit :=
  main parse id project_name is_substring id
    (fun name dir => os_path_join dir name)
    (fun src dest => wheel_file dest (os_path_basename src) "1.0")
    resolver (fun _ _ _ _ => ([], []))
    add_wheel add_requirement files reqs cfg args.

(** The resolver at the end of a feeding phase that completed. *)
Definition fed (m : M (event (Req := string)) exn resolver) : resolver :=
  match snd m with
  | inr c => c
  | inl _ => ([], [])
  end.

Lemma fed_spec (m : M (event (Req := string)) exn resolver) :
  match snd m with inl _ => false | inr _ => true end = true ->
  m = (fst m, inr (fed m)).
Proof. destruct m as [t [e|c]]; simpl; [discriminate|reflexivity]. Qed.

(** Generators that raise after their first item. *)
Definition failing_files (c : resolver) : gen exn string :=
  (take 1 (fst (file_closure c)), Some (ClosureError "index unreachable")).
Definition failing_reqs (c : resolver) : gen exn string :=
  (take 1 (fst (closure_as_requirements c)), Some (ClosureError "index unreachable")).

(** [cfg] without its [platforms] key, and without its discard pattern. *)
Definition no_platforms : Config := {|
  wheels := wheels cfg;
  requirements := requirements cfg;
  discard_from_closure := discard_from_closure cfg;
  frozen_requirement_file := None;
  platforms := None
|}.

Definition no_discard : Config := {|
  wheels := wheels cfg;
  requirements := requirements cfg;
  discard_from_closure := None;
  frozen_requirement_file := Some "frozen.txt";
  platforms := platforms cfg
|}.

Lemma cfg_strings_parse s :
  s ∈ requirement_strings no_platforms -> is_Some (parse s).
Proof.
  intros Hs. change (s ∈ ["internal-tools"; "requests==2.31"]) in Hs.
  apply elem_of_cons in Hs as [->|Hs]; [eexists; reflexivity|].
  apply elem_of_cons in Hs as [->|Hs]; [eexists; reflexivity|].
  by apply elem_of_nil in Hs.
Qed.

Lemma missing_platforms_witness :
  platforms no_platforms = None /\
  snd (run no_platforms args) = inl (KeyError "platforms") /\
  added_wheels (fst (run no_platforms args)) = [].
Proof.
  split; [reflexivity|].
  destruct (missing_platforms_ends_run_after_setup parse id project_name is_substring id
              (fun name dir => os_path_join dir name)
              (fun src dest => wheel_file dest (os_path_basename src) "1.0")
              resolver (fun _ _ _ _ => ([], []))
              add_wheel add_requirement file_closure closure_as_requirements
              no_platforms args eq_refl cfg_strings_parse) as [Hrun _].
  unfold run. rewrite Hrun. split; [reflexivity|]. vm_compute. reflexivity.
Defined.

Lemma wheels_registered_witness :
  feed cfg args = (fst (feed cfg args), inr (fed (feed cfg args))) /\
  added_wheels (fst (feed cfg args))
    = ["/cache/wheels/internal_tools-1.0-py3-none-any.whl"] /\
  exists reqs : gset string,
    fst (feed cfg args)
      = setup_trace id (fun name dir => os_path_join dir name)
          (fun src dest => wheel_file dest (os_path_basename src) "1.0") cfg args
        ++ map AddWheel ["/cache/wheels/internal_tools-1.0-py3-none-any.whl"]
        ++ map AddRequirement (elements reqs).
Proof.
  assert (Hfeed : feed cfg args = (fst (feed cfg args), inr (fed (feed cfg args))))
    by (apply fed_spec; vm_compute; reflexivity).
  split; [exact Hfeed|]. split; [vm_compute; reflexivity|].
  destruct (wheels_registered_before_requirements parse id
              (fun name dir => os_path_join dir name)
              (fun src dest => wheel_file dest (os_path_basename src) "1.0")
              resolver (fun _ _ _ _ => ([], [])) add_wheel add_requirement
              cfg args (fst (feed cfg args)) (fed (feed cfg args)) Hfeed)
    as (reqs & _ & Htrace).
  exists reqs. exact Htrace.
Defined.

Lemma failing_file_closure_witness :
  feed no_discard args = (fst (feed no_discard args), inr (fed (feed no_discard args))) /\
  snd (failing_files (fed (feed no_discard args)))
    = Some (ClosureError "index unreachable") /\
  snd (run_with failing_files closure_as_requirements no_discard args)
    = inl (ClosureError "index unreachable") /\
  copied (fst (run_with failing_files closure_as_requirements no_discard args))
    = [("/cache/wheels/internal_tools-1.0-py3-none-any.whl", "out")] /\
  opened (fst (run_with failing_files closure_as_requirements no_discard args)) = [].
Proof.
  assert (Hfeed : feed no_discard args
                  = (fst (feed no_discard args), inr (fed (feed no_discard args))))
    by (apply fed_spec; vm_compute; reflexivity).
  split; [exact Hfeed|]. split; [reflexivity|].
  destruct (failing_file_closure_leaves_copies parse id project_name is_substring id
              (fun name dir => os_path_join dir name)
              (fun src dest => wheel_file dest (os_path_basename src) "1.0")
              resolver (fun _ _ _ _ => ([], []))
              add_wheel add_requirement failing_files closure_as_requirements
              no_discard args (fst (feed no_discard args)) (fed (feed no_discard args))
              (ClosureError "index unreachable") Hfeed eq_refl)
    as (Hres & Hcopied & Hopened & _).
  split; [exact Hres|]. split; [|exact Hopened].
  unfold run_with. rewrite Hcopied. vm_compute. reflexivity.
Defined.

Lemma failing_requirements_witness :
  feed no_discard args = (fst (feed no_discard args), inr (fed (feed no_discard args))) /\
  snd (run_with file_closure failing_reqs no_discard args)
    = inl (ClosureError "index unreachable") /\
  opened (fst (run_with file_closure failing_reqs no_discard args)) = ["out/frozen.txt"] /\
  written (fst (run_with file_closure failing_reqs no_discard args))
    = [("out/frozen.txt", "internal-tools==1.0" +:+ newline)].
Proof.
  assert (Hfeed : feed no_discard args
                  = (fst (feed no_discard args), inr (fed (feed no_discard args))))
    by (apply fed_spec; vm_compute; reflexivity).
  split; [exact Hfeed|].
  destruct (failing_requirements_leave_partial_file parse id project_name is_substring id
              (fun name dir => os_path_join dir name)
              (fun src dest => wheel_file dest (os_path_basename src) "1.0")
              resolver (fun _ _ _ _ => ([], []))
              add_wheel add_requirement file_closure failing_reqs
              no_discard args (fst (feed no_discard args)) (fed (feed no_discard args))
              (ClosureError "index unreachable") Hfeed eq_refl eq_refl)
    as (Hres & _ & Hopened & Hwritten).
  split; [exact Hres|]. split; [exact Hopened|].
  unfold run_with. rewrite Hwritten. vm_compute. reflexivity.
Defined.




Lemma without_discard_witness :
  discard_from_closure no_discard = None /\
  copied (fst (run no_discard args))
    = [("/cache/wheels/internal_tools-1.0-py3-none-any.whl", "out");
       ("/cache/wheels/requests-2.31-py3-none-any.whl", "out")].
Proof.
  split; [reflexivity|].
  destruct (without_discard_everything_is_kept parse id project_name is_substring id
              (fun name dir => os_path_join dir name)
              (fun src dest => wheel_file dest (os_path_basename src) "1.0")
              resolver (fun _ _ _ _ => ([], []))
              add_wheel add_requirement file_closure closure_as_requirements
              no_discard args eq_refl) as [Hcopied _].
  unfold run. rewrite Hcopied. vm_compute. reflexivity.
Defined.

(** The package name of a wheel file is its project name, dashes
    restored. *)
Example pkg_name_of_wheel :
  pkg_name "/cache/wheels/internal_tools-1.0-py3-none-any.whl" = "internal-tools".
Proof. reflexivity. Qed.

(** The package name of a source archive stops at the first dash of the
    project name. *)
Example pkg_name_of_sdist : pkg_name "/cache/sdist/internal-tools-1.0.tar.gz" = "internal".
Proof. reflexivity. Qed.

End ScriptDemo.

(** ** [e3.anod.helper]: text substitution in files *)

Module Helper.
Import PyStr.
Local Open Scope nat_scope.

(** [for line in f]: the lines of a file, each with its terminator. *)
Fixpoint readlines (content : string) : list string :=
  match content with
  | EmptyString => []
  | String c rest =>
      if Ascii.eqb c "010" then String c EmptyString :: readlines rest
      else match readlines rest with
           | [] => [String c EmptyString]
           | line :: lines => String c line :: lines
           end
  end.

(** The exceptions of the two helpers. *)
Inductive exn : Type :=
| IOError (filename : string)
| UnboundLocalError (variable : string)
| AnodError (message : string).

(** The [open] calls made. *)
Inductive io : Type :=
| OpenRead (filename : string)
| OpenWrite (filename : string).

(** What a call leaves behind: the files it opened, the contents of the
    disk afterwards, and its exception or value. *)
Record outcome (A : Type) : Type := {
  calls : list io;
  disk : gmap string string;
  result : exn + A
}.
Arguments calls {A}.
Arguments disk {A}.
Arguments result {A}.

Section TextReplace.
(** [re.subn regexp replacement line]: the new line and the number of
    substitutions made. *)
Variable subn : string -> string -> string -> string * nat.

(** Lines 256-260: the inner loop, from pattern number [pattern_index] on. *)
Fixpoint sub_patterns (pattern_index : nat) (pattern : list (string * string))
    (line : string) (nb_substitution : list nat) : string * list nat :=
  match pattern with
  | [] => (line, nb_substitution)
  | (regexp, replacement) :: rest =>
      let '(line', count) := subn regexp replacement line in
      let nb' := if Nat.eqb count 0 then nb_substitution
                 else alter (fun n => n + count) pattern_index nb_substitution in
      sub_patterns (S pattern_index) rest line' nb'
  end.

(** Lines 255-261: the loop over the lines, writing to [output]. *)
Fixpoint sub_lines (pattern : list (string * string)) (lines : list string)
    (output : string) (nb_substitution : list nat) : string * list nat :=
  match lines with
  | [] => (output, nb_substitution)
  | line :: rest =>
      let '(line', nb') := sub_patterns 0 pattern line nb_substitution in
      sub_lines pattern rest (output +:+ line') nb'
  end.

(** [any(nb for nb in nb_substitution)]. *)
Definition any_nonzero (nb_substitution : list nat) : bool :=
  existsb (fun nb => negb (Nat.eqb nb 0)) nb_substitution.

(** Lines 237-267. *)
Definition text_replace (fs : gmap string string) (filename : string)
    (pattern : list (string * string)) : outcome (list nat) :=
  match fs !! filename with
  | None => {| calls := [OpenRead filename]; disk := fs; result := inl (IOError filename) |}
  | Some content =>
      let '(output, nb_substitution) :=
        sub_lines pattern (readlines content) EmptyString (replicate (length pattern) 0) in
      if any_nonzero nb_substitution
      then {| calls := [OpenRead filename; OpenWrite filename];
              disk := <[filename := output]> fs;
              result := inr nb_substitution |}
      else {| calls := [OpenRead filename]; disk := fs; result := inr nb_substitution |}
  end.

(** *** What the counters should hold *)

(** A line after the patterns of [pattern] were applied to it in turn. *)
Definition line_after (pattern : list (string * string)) (line : string) : string :=
  fold_left (fun l p => fst (subn (fst p) (snd p) l)) pattern line.

(** The substitutions made for pattern number [i] on [line]: by then the
    patterns before it have rewritten the line. *)
Definition count_at (pattern : list (string * string)) (i : nat) (line : string) : nat :=
  match pattern !! i with
  | Some (regexp, replacement) =>
      snd (subn regexp replacement (line_after (take i pattern) line))
  | None => 0
  end.

Lemma count_at_head regexp replacement rest line :
  count_at ((regexp, replacement) :: rest) 0 line = snd (subn regexp replacement line).
Proof. reflexivity. Qed.

Lemma count_at_tail regexp replacement rest k line :
  count_at ((regexp, replacement) :: rest) (S k) line =
    count_at rest k (fst (subn regexp replacement line)).
Proof. reflexivity. Qed.

Lemma sub_patterns_length pattern i line nb :
  length (snd (sub_patterns i pattern line nb)) = length nb.
Proof.
  revert i line nb. induction pattern as [|[regexp replacement] rest IH];
    intros i line nb; simpl; [reflexivity|].
  destruct (subn regexp replacement line) as [line' count].
  rewrite IH. destruct (Nat.eqb count 0); [reflexivity|apply length_alter].
Qed.

(** The inner loop adds to counter [j] what pattern [j] substituted, and
    leaves the counters of other positions alone. *)
Lemma sub_patterns_lookup pattern i line nb j :
  snd (sub_patterns i pattern line nb) !! j =
    if decide (i <= j < i + length pattern)
    then (fun n => n + count_at pattern (j - i) line) <$> nb !! j
    else nb !! j.
Proof.
  revert i line nb. induction pattern as [|[regexp replacement] rest IH];
    intros i line nb.
  - simpl. case_decide; [lia|reflexivity].
  - cbn [sub_patterns length].
    destruct (subn regexp replacement line) as [line' count] eqn:Hsub.
    rewrite IH.
    assert (Hnb : forall k,
      (if Nat.eqb count 0 then nb else alter (fun n => n + count) i nb) !! k =
      if decide (k = i) then (fun n => n + count) <$> nb !! k else nb !! k).
    { intros k. destruct (Nat.eqb count 0) eqn:Hc.
      - apply Nat.eqb_eq in Hc. subst count. case_decide; [|reflexivity].
        destruct (nb !! k); simpl; [f_equal; lia|reflexivity].
      - case_decide.
        + subst k. apply list_lookup_alter_eq.
        + by apply list_lookup_alter_ne. }
    rewrite Hnb. repeat case_decide; try lia.
    + replace (j - i) with (S (j - S i)) by lia.
      by rewrite count_at_tail, Hsub.
    + subst j. replace (i - i) with 0 by lia. by rewrite count_at_head, Hsub.
    + reflexivity.
Qed.

Lemma sub_lines_length pattern lines output nb :
  length (snd (sub_lines pattern lines output nb)) = length nb.
Proof.
  revert output nb. induction lines as [|line rest IH]; intros output nb; simpl;
    [reflexivity|].
  pose proof (sub_patterns_length pattern 0 line nb) as Hlen.
  destruct (sub_patterns 0 pattern line nb) as [line' nb']. simpl in Hlen.
  by rewrite IH.
Qed.

Lemma sub_lines_lookup pattern lines output nb j :
  j < length pattern ->
  snd (sub_lines pattern lines output nb) !! j =
    (fun n => n + sum_list (map (count_at pattern j) lines)) <$> nb !! j.
Proof.
  intros Hj. revert output nb. induction lines as [|line rest IH]; intros output nb.
  - simpl. destruct (nb !! j); simpl; [f_equal; lia|reflexivity].
  - cbn [sub_lines map sum_list].
    pose proof (sub_patterns_lookup pattern 0 line nb j) as Hone.
    destruct (sub_patterns 0 pattern line nb) as [line' nb']. simpl in Hone.
    rewrite IH, Hone. case_decide; [|lia].
    replace (j - 0) with j by lia.
    destruct (nb !! j); simpl; [f_equal; lia|reflexivity].
Qed.

Lemma any_nonzero_false nb : any_nonzero nb = false <-> Forall (fun n => n = 0) nb.
Proof.
  unfold any_nonzero. induction nb as [|n nb IH]; simpl.
  - split; [constructor|reflexivity].
  - rewrite orb_false_iff, IH, Forall_cons, negb_false_iff, Nat.eqb_eq. reflexivity.
Qed.

(** C9.  On a file that exists, [text_replace] returns a list as long as
    the pattern list, whose entry [i] is the number of substitutions made
    for pattern [i] summed over the lines of the file (each line being
    rewritten by the patterns in turn); and when all entries are zero the
    file was opened for reading only, and the disk is as it was. *)
Theorem text_replace_counts_and_frame fs filename content pattern :
  fs !! filename = Some content ->
  exists nb,
    result (text_replace fs filename pattern) = inr nb /\
    length nb = length pattern /\
    (forall i, i < length pattern ->
       nb !! i = Some (sum_list (map (count_at pattern i) (readlines content)))) /\
    (Forall (fun n => n = 0) nb ->
       calls (text_replace fs filename pattern) = [OpenRead filename] /\
       disk (text_replace fs filename pattern) = fs).
Proof.
  intros Hfile. unfold text_replace. rewrite Hfile.
  pose proof (sub_lines_length pattern (readlines content) EmptyString
                (replicate (length pattern) 0)) as Hlen.
  pose proof (fun j => sub_lines_lookup pattern (readlines content) EmptyString
                         (replicate (length pattern) 0) j) as Hlookup.
  destruct (sub_lines pattern (readlines content) EmptyString
              (replicate (length pattern) 0)) as [output nb].
  simpl in Hlen, Hlookup. rewrite length_replicate in Hlen.
  exists nb.
  assert (Hcounts : forall i, i < length pattern ->
            nb !! i = Some (sum_list (map (count_at pattern i) (readlines content)))).
  { intros i Hi. rewrite (Hlookup i Hi), lookup_replicate_2 by exact Hi. reflexivity. }
  destruct (any_nonzero nb) eqn:Hany; simpl.
  - split; [reflexivity|]. split; [exact Hlen|]. split; [exact Hcounts|].
    intros Hzero. apply any_nonzero_false in Hzero. congruence.
  - split; [reflexivity|]. split; [exact Hlen|]. split; [exact Hcounts|].
    intros _. split; reflexivity.
Qed.

(** *** What is written back *)

(** What [output.getvalue()] holds after the lines were written to it. *)
Definition join_lines (lines : list string) : string :=
  foldr String.append EmptyString lines.

(** Reading a file line by line loses nothing. *)
Lemma join_lines_readlines content : join_lines (readlines content) = content.
Proof.
  induction content as [|c rest IH]; [reflexivity|].
  cbn [readlines]. destruct (Ascii.eqb c "010").
  - cbn [join_lines foldr]. fold (join_lines (readlines rest)). by rewrite IH.
  - destruct (readlines rest) as [|line lines].
    + simpl in IH. by subst rest.
    + cbn [join_lines foldr] in *. fold (join_lines lines) in *. by rewrite <- IH.
Qed.

Lemma sub_patterns_line pattern i line nb :
  fst (sub_patterns i pattern line nb) = line_after pattern line.
Proof.
  revert i line nb. induction pattern as [|[regexp replacement] rest IH];
    intros i line nb; [reflexivity|].
  cbn [sub_patterns]. unfold line_after. cbn [fold_left fst snd].
  destruct (subn regexp replacement line) as [line' count]. apply IH.
Qed.

Lemma sub_lines_output pattern lines output nb :
  fst (sub_lines pattern lines output nb)
    = output +:+ join_lines (map (line_after pattern) lines).
Proof.
  revert output nb. induction lines as [|line rest IH]; intros output nb.
  - simpl. by rewrite app_empty_r.
  - cbn [sub_lines map join_lines foldr].
    pose proof (sub_patterns_line pattern 0 line nb) as Hline.
    destruct (sub_patterns 0 pattern line nb) as [line' nb']. simpl in Hline. subst line'.
    rewrite IH. apply app_assoc_string.
Qed.

(** When some substitution was counted, the file is opened for writing
    and receives its lines, each rewritten by all the patterns in turn, in
    the order of the list; no other file changes. *)
Theorem text_replace_writes_rewritten_lines fs filename content pattern nb :
  fs !! filename = Some content ->
  result (text_replace fs filename pattern) = inr nb ->
  ~ Forall (fun n => n = 0) nb ->
  calls (text_replace fs filename pattern) = [OpenRead filename; OpenWrite filename] /\
  disk (text_replace fs filename pattern)
    = <[filename := join_lines (map (line_after pattern) (readlines content))]> fs.
Proof.
  intros Hfile. unfold text_replace. rewrite Hfile.
  pose proof (sub_lines_output pattern (readlines content) EmptyString
                (replicate (length pattern) 0)) as Hout.
  destruct (sub_lines pattern (readlines content) EmptyString
              (replicate (length pattern) 0)) as [output nb'].
  simpl in Hout. subst output.
  destruct (any_nonzero nb') eqn:Hany; simpl; intros [= ->] Hsome.
  - split; reflexivity.
  - destruct Hsome. by apply any_nonzero_false.
Qed.

(** Whatever its outcome, [text_replace] leaves every other file as it
    was; a missing file raises [IOError] with nothing changed; and the
    file is opened for writing exactly when some counter is not zero. *)
Theorem text_replace_touches_one_file fs filename pattern :
  (forall other, other <> filename ->
     disk (text_replace fs filename pattern) !! other = fs !! other) /\
  (fs !! filename = None ->
     text_replace fs filename pattern
       = {| calls := [OpenRead filename]; disk := fs; result := inl (IOError filename) |}) /\
  (OpenWrite filename ∈ calls (text_replace fs filename pattern) <->
     exists nb, result (text_replace fs filename pattern) = inr nb /\
                ~ Forall (fun n => n = 0) nb).
Proof.
  unfold text_replace. destruct (fs !! filename) as [content|] eqn:Hfile.
  - destruct (sub_lines pattern (readlines content) EmptyString
                (replicate (length pattern) 0)) as [output nb].
    destruct (any_nonzero nb) eqn:Hany; simpl.
    + split; [intros other Hne; by rewrite lookup_insert_ne|]. split; [discriminate|].
      split.
      * intros _. exists nb. split; [reflexivity|]. intros Hzero.
        apply any_nonzero_false in Hzero. congruence.
      * intros _. right. left.
    + split; [reflexivity|]. split; [discriminate|]. split.
      * intros Hin. apply elem_of_cons in Hin as [Heq|Hin]; [discriminate|].
        by apply elem_of_nil in Hin.
      * intros (nb' & [= <-] & Hsome). destruct Hsome. by apply any_nonzero_false.
  - simpl. split; [reflexivity|]. split; [reflexivity|]. split.
    + intros Hin. apply elem_of_cons in Hin as [Heq|Hin]; [discriminate|].
      by apply elem_of_nil in Hin.
    + intros (nb & Hres & _). discriminate.
Qed.

(** With no pattern or with an empty file there is nothing to do: the
    counters, one per pattern, are all zero and the file is not written. *)
Theorem text_replace_nothing_to_do fs filename content pattern :
  fs !! filename = Some content ->
  pattern = [] \/ content = EmptyString ->
  text_replace fs filename pattern
    = {| calls := [OpenRead filename]; disk := fs;
         result := inr (replicate (length pattern) 0) |}.
Proof.
  intros Hfile Hcase. unfold text_replace. rewrite Hfile.
  assert (Hzero : any_nonzero (replicate (length pattern) 0) = false).
  { apply any_nonzero_false, Forall_forall. intros n Hn.
    by apply elem_of_replicate in Hn as [-> _]. }
  destruct Hcase as [->| ->].
  - assert (Hlines : forall lines output,
              sub_lines [] lines output [] = (output +:+ join_lines lines, [])).
    { induction lines as [|line rest IH]; intros output; simpl.
      - by rewrite app_empty_r.
      - rewrite IH. by rewrite app_assoc_string. }
    simpl. rewrite Hlines. reflexivity.
  - simpl. by rewrite Hzero.
Qed.

End TextReplace.

Section Gplize.
(** [re.match(begin, line)] and [re.match(end, line)], as truth values, for
    the two regular expressions of lines 284-304. *)
Variable match_begin : string -> bool.
Variable match_end : string -> bool.

(** The local variables of [remove_paragraph]; [comment1] and [comment2]
    are unbound until line 314 is reached. *)
Record scan : Type := {
  state : nat;
  i : nat;
  comment1 : option string;
  comment2 : option string;
  output : string
}.

(** [n * " "]. *)
Fixpoint spaces (n : nat) : string :=
  match n with
  | 0 => EmptyString
  | S n' => String " " (spaces n')
  end.

(** [comment1 + (74 * " ") + comment2 + newline], lines 324, 331 and 339. *)
Definition blank_line (s : scan) : exn + string :=
  match comment1 s, comment2 s with
  | None, _ => inl (UnboundLocalError "comment1")
  | Some _, None => inl (UnboundLocalError "comment2")
  | Some c1, Some c2 => inr (c1 +:+ spaces 74 +:+ c2 +:+ newline)
  end.

(** [state = new_state] followed by [output.write(blank line); continue]. *)
Definition write_blank (new_state : nat) (s : scan) : exn + scan :=
  match blank_line s with
  | inl e => inl e
  | inr blank =>
      inr {| state := new_state; i := i s; comment1 := comment1 s;
             comment2 := comment2 s; output := output s +:+ blank |}
  end.

(** Lines 312-343: the body of the loop, for one line. *)
Definition scan_line (s : scan) (line : string) : exn + scan :=
  let comment := String.substring 0 2 line in
  let detect := Nat.eqb (i s) 1 in
  let s1 := {| state := state s;
               i := S (i s);
               comment1 := if detect then Some comment else comment1 s;
               comment2 := if detect
                           then Some (if String.eqb comment " *" then "* " else comment)
                           else comment2 s;
               output := output s |} in
  if match_begin line then write_blank 0 s1
  else if andb (match_end line) (Nat.eqb (state s1) 0) then write_blank 1 s1
  else
    let state2 := if Nat.eqb (state s1) 1 then 3 else state s1 in
    if Nat.eqb state2 0 then write_blank 0 s1
    else
      inr {| state := state2; i := i s1; comment1 := comment1 s1;
             comment2 := comment2 s1;
             output := if orb (Nat.eqb state2 2) (Nat.eqb state2 3)
                       then output s1 +:+ line else output s1 |}.

(** Line 311: the loop. *)
Fixpoint scan_lines (s : scan) (lines : list string) : exn + scan :=
  match lines with
  | [] => inr s
  | line :: rest =>
      match scan_line s line with
      | inl e => inl e
      | inr s' => scan_lines s' rest
      end
  end.

(** Lines 306-308. *)
Definition scan_start : scan :=
  {| state := 2; i := 0; comment1 := None; comment2 := None; output := EmptyString |}.

(** Lines 345-347. *)
Definition no_end_message (filename : string) : string :=
  "gplize: End of paragraph was not detected in " +:+ filename.

(** Lines 283-351. *)
Definition remove_paragraph (fs : gmap string string) (filename : string)
  : outcome unit :=
  match fs !! filename with
  | None => {| calls := [OpenRead filename]; disk := fs; result := inl (IOError filename) |}
  | Some content =>
      match scan_lines scan_start (readlines content) with
      | inl e => {| calls := [OpenRead filename]; disk := fs; result := inl e |}
      | inr s =>
          if Nat.eqb (state s) 0
          then {| calls := [OpenRead filename]; disk := fs;
                  result := inl (AnodError (no_end_message filename)) |}
          else {| calls := [OpenRead filename; OpenWrite filename];
                  disk := <[filename := output s]> fs;
                  result := inr tt |}
      end
  end.

(** *** The scan, once the comment style is known *)

(** After the first line: the comment style is detected on the line being
    read ([i = 1]) or was detected before. *)
Definition past_first (s : scan) : Prop :=
  1 <= i s /\ (i s = 1 \/ (is_Some (comment1 s) /\ is_Some (comment2 s))).

Lemma scan_line_past_first s line :
  past_first s ->
  exists s', scan_line s line = inr s' /\ past_first s' /\
    (match_begin line = true -> state s' = 0) /\
    (state s = 0 -> match_end line = false -> state s' = 0).
Proof.
  intros [Hi Hbound]. unfold scan_line. cbv zeta.
  set (s1 := {| state := state s; i := S (i s);
                comment1 := _; comment2 := _; output := output s |}).
  assert (Hb1 : exists c1 c2, comment1 s1 = Some c1 /\ comment2 s1 = Some c2).
  { subst s1. simpl. destruct Hbound as [->|[[c1 ->] [c2 ->]]].
    - simpl. eauto.
    - destruct (Nat.eqb (i s) 1); eauto. }
  assert (Hi1 : i s1 = S (i s)) by reflexivity.
  assert (Hst1 : state s1 = state s) by reflexivity.
  clearbody s1. destruct Hb1 as (c1 & c2 & Hc1 & Hc2).
  assert (Hpast : forall n out,
            past_first {| state := n; i := i s1; comment1 := comment1 s1;
                          comment2 := comment2 s1; output := out |}).
  { intros n out. split; simpl; [lia|]. right. rewrite Hc1, Hc2. split; eauto. }
  assert (Hblank : forall n, exists s',
            write_blank n s1 = inr s' /\ past_first s' /\ state s' = n).
  { intros n. unfold write_blank, blank_line. rewrite Hc1, Hc2.
    eexists. split; [reflexivity|]. split; [|reflexivity].
    rewrite <- Hc1, <- Hc2. apply Hpast. }
  rewrite Hst1.
  destruct (match_begin line) eqn:Hbegin.
  { destruct (Hblank 0) as (s' & -> & Hp & Hst). exists s'. auto. }
  destruct (match_end line) eqn:Hend; simpl.
  - destruct (Nat.eqb (state s) 0) eqn:Hs0.
    + destruct (Hblank 1) as (s' & -> & Hp & Hst). exists s'.
      split; [reflexivity|]. split; [exact Hp|]. split; discriminate.
    + apply Nat.eqb_neq in Hs0.
      destruct (Nat.eqb (if Nat.eqb (state s) 1 then 3 else state s) 0) eqn:Hs2.
      { destruct (Nat.eqb (state s) 1) eqn:Hs1; [discriminate|].
        apply Nat.eqb_eq in Hs2. contradiction. }
      eexists. split; [reflexivity|]. split; [apply Hpast|].
      split; [discriminate|intros; contradiction].
  - destruct (Nat.eqb (if Nat.eqb (state s) 1 then 3 else state s) 0) eqn:Hs2.
    + destruct (Hblank 0) as (s' & -> & Hp & Hst). exists s'. auto.
    + eexists. split; [reflexivity|]. split; [apply Hpast|]. split; [discriminate|].
      intros Hs0 _. rewrite Hs0 in Hs2. discriminate.
Qed.

Lemma scan_lines_past_first s lines :
  past_first s -> exists s', scan_lines s lines = inr s' /\ past_first s'.
Proof.
  revert s. induction lines as [|line rest IH]; intros s Hs; simpl; [eauto|].
  destruct (scan_line_past_first s line Hs) as (s1 & -> & Hs1 & _). auto.
Qed.

Lemma scan_lines_no_end s lines :
  past_first s -> state s = 0 -> Forall (fun line => match_end line = false) lines ->
  exists s', scan_lines s lines = inr s' /\ state s' = 0.
Proof.
  revert s. induction lines as [|line rest IH]; intros s Hs Hstate Hlines; simpl;
    [eauto|].
  apply Forall_cons in Hlines as [Hline Hrest].
  destruct (scan_line_past_first s line Hs) as (s1 & -> & Hs1 & _ & Hkeep). auto.
Qed.

Lemma scan_lines_app s lines1 lines2 :
  scan_lines s (lines1 ++ lines2) =
    match scan_lines s lines1 with
    | inl e => inl e
    | inr s' => scan_lines s' lines2
    end.
Proof.
  revert s. induction lines1 as [|line rest IH]; intros s; simpl; [reflexivity|].
  destruct (scan_line s line); [reflexivity|apply IH].
Qed.

(** The first line is read with the comment style still unknown. *)
Lemma scan_first_line line :
  scan_line scan_start line =
    if match_begin line then inl (UnboundLocalError "comment1")
    else inr {| state := 2; i := 1; comment1 := None; comment2 := None; output := line |}.
Proof.
  unfold scan_line, scan_start. simpl. destruct (match_begin line); [reflexivity|].
  by rewrite andb_false_r.
Qed.

(** C10, where the code does as claimed: the paragraph begins after the
    first line of the file and no later line ends it.  The call raises
    [AnodError] with a message that ends with the file name, the file was
    opened for reading only, and the disk is as it was. *)
Lemma remove_paragraph_unterminated fs filename content first before start rest :
  fs !! filename = Some content ->
  readlines content = first :: before ++ start :: rest ->
  match_begin first = false ->
  match_begin start = true ->
  Forall (fun line => match_end line = false) rest ->
  remove_paragraph fs filename =
    {| calls := [OpenRead filename]; disk := fs;
       result := inl (AnodError (no_end_message filename)) |}.
Proof.
  intros Hfile Hlines Hfirst Hstart Hrest. unfold remove_paragraph.
  rewrite Hfile, Hlines. cbn [scan_lines]. rewrite scan_first_line, Hfirst.
  set (s1 := {| state := 2; i := 1; comment1 := None; comment2 := None; output := first |}).
  assert (Hs1 : past_first s1) by (split; simpl; [lia|by left]).
  rewrite scan_lines_app.
  destruct (scan_lines_past_first s1 before Hs1) as (s2 & -> & Hs2).
  cbn [scan_lines].
  destruct (scan_line_past_first s2 start Hs2) as (s3 & -> & Hs3 & Hzero & _).
  destruct (scan_lines_no_end s3 rest Hs3 (Hzero Hstart) Hrest) as (s4 & -> & ->).
  reflexivity.
Qed.

(** C10, where the code departs from the claim: when the first line of the
    file begins the paragraph, the blank comment line is built from
    [comment1] before any line has set it, and the call ends with
    [UnboundLocalError], not [AnodError]; the disk is as it was. *)
Theorem remove_paragraph_begin_on_first_line fs filename content first rest :
  fs !! filename = Some content ->
  readlines content = first :: rest ->
  match_begin first = true ->
  remove_paragraph fs filename =
    {| calls := [OpenRead filename]; disk := fs;
       result := inl (UnboundLocalError "comment1") |}.
Proof.
  intros Hfile Hlines Hfirst. unfold remove_paragraph.
  rewrite Hfile, Hlines. cbn [scan_lines]. by rewrite scan_first_line, Hfirst.
Qed.

(** *** The rewritten file *)

(** The blank comment line for the comment style [comment] detected on
    the second line of the file: lines 314-318, 324, 331 and 339. *)
Definition blank_for (comment : string) : string :=
  comment +:+ spaces 74 +:+ (if String.eqb comment " *" then "* " else comment) +:+ newline.

(** The comment style [comment] is detected on the line being read, or
    was detected before. *)
Definition ready (comment line : string) (s : scan) : Prop :=
  (i s = 1 /\ String.substring 0 2 line = comment) \/
  (2 <= i s /\ comment1 s = Some comment /\
   comment2 s = Some (if String.eqb comment " *" then "* " else comment)).

(** One line, once the comment style is known: what is written and the
    state that follows. *)
Lemma scan_line_ready comment s line :
  ready comment line s -> state s <= 3 ->
  exists s',
    scan_line s line = inr s' /\
    (forall next, ready comment next s') /\ state s' <= 3 /\
    (if match_begin line
     then state s' = 0 /\ output s' = output s +:+ blank_for comment
     else if andb (match_end line) (Nat.eqb (state s) 0)
     then state s' = 1 /\ output s' = output s +:+ blank_for comment
     else if Nat.eqb (state s) 0
     then state s' = 0 /\ output s' = output s +:+ blank_for comment
     else state s' = (if Nat.eqb (state s) 1 then 3 else state s) /\
          output s' = output s +:+ line).
Proof.
  intros Hready Hstate. unfold scan_line. cbv zeta.
  set (s1 := {| state := state s; i := S (i s);
                comment1 := _; comment2 := _; output := output s |}).
  assert (Hc1 : comment1 s1 = Some comment /\
                comment2 s1 = Some (if String.eqb comment " *" then "* " else comment)).
  { subst s1. simpl. destruct Hready as [[-> <-]|(Hi & -> & ->)]; [split; reflexivity|].
    destruct (Nat.eqb (i s) 1) eqn:Hone; [|split; reflexivity].
    apply Nat.eqb_eq in Hone. lia. }
  assert (Hi1 : 2 <= i s1).
  { subst s1. simpl. destruct Hready as [[-> _]|[Hi _]]; lia. }
  assert (Hst1 : state s1 = state s) by reflexivity.
  assert (Hout1 : output s1 = output s) by reflexivity.
  clearbody s1. destruct Hc1 as [Hc1 Hc2].
  assert (Hnext : forall n out next,
            ready comment next {| state := n; i := i s1; comment1 := comment1 s1;
                                  comment2 := comment2 s1; output := out |}).
  { intros n out next. right. simpl. rewrite Hc1, Hc2. auto. }
  assert (Hblank : forall n, n <= 3 -> exists s',
            write_blank n s1 = inr s' /\ (forall next, ready comment next s') /\
            state s' <= 3 /\ state s' = n /\ output s' = output s +:+ blank_for comment).
  { intros n Hn. unfold write_blank, blank_line. rewrite Hc1, Hc2.
    eexists. split; [reflexivity|]. split; [|split; [exact Hn|split; [reflexivity|]]].
    - intros next. rewrite <- Hc1, <- Hc2. apply Hnext.
    - simpl. rewrite Hout1. reflexivity. }
  rewrite Hst1.
  destruct (match_begin line).
  { destruct (Hblank 0) as (s' & -> & Hr & Hle & Hs & Ho); [lia|]. exists s'. auto. }
  destruct (andb (match_end line) (Nat.eqb (state s) 0)).
  { destruct (Hblank 1) as (s' & -> & Hr & Hle & Hs & Ho); [lia|]. exists s'. auto. }
  destruct (Nat.eqb (state s) 0) eqn:Hzero.
  { apply Nat.eqb_eq in Hzero. rewrite Hzero. simpl.
    destruct (Hblank 0) as (s' & -> & Hr & Hle & Hs & Ho); [lia|]. exists s'. auto. }
  apply Nat.eqb_neq in Hzero.
  set (state2 := if Nat.eqb (state s) 1 then 3 else state s).
  assert (Hs2 : state2 = 2 \/ state2 = 3).
  { subst state2. destruct (Nat.eqb (state s) 1) eqn:Hone; [by right|].
    apply Nat.eqb_neq in Hone. lia. }
  assert (Hnz : Nat.eqb state2 0 = false) by (apply Nat.eqb_neq; lia).
  assert (Hw : orb (Nat.eqb state2 2) (Nat.eqb state2 3) = true)
    by (destruct Hs2 as [-> | ->]; reflexivity).
  rewrite Hnz, Hw. eexists. split; [reflexivity|].
  split; [intros next; apply Hnext|]. split; [simpl; lia|].
  split; [reflexivity|]. simpl. by rewrite Hout1.
Qed.

(** Outside a paragraph ([state] 1, 2 or 3), lines that begin none are
    copied as they are; [next] is the line read after them. *)
Lemma scan_lines_copy comment s lines next :
  ready comment (hd next lines) s -> 1 <= state s <= 3 ->
  Forall (fun line => match_begin line = false) lines ->
  exists s',
    scan_lines s lines = inr s' /\ ready comment next s' /\ 1 <= state s' <= 3 /\
    output s' = output s +:+ join_lines lines.
Proof.
  revert s. induction lines as [|line rest IH]; intros s Hready Hstate Hlines.
  - exists s. simpl. by rewrite app_empty_r.
  - apply Forall_cons in Hlines as [Hline Hrest]. cbn [scan_lines].
    destruct (scan_line_ready comment s line Hready) as (s1 & -> & Hr1 & Hle & Hcase);
      [lia|].
    rewrite Hline in Hcase.
    assert (Hz : Nat.eqb (state s) 0 = false) by (apply Nat.eqb_neq; lia).
    rewrite Hz, andb_false_r in Hcase. destruct Hcase as [Hs1 Ho1].
    destruct (IH s1 (Hr1 _)) as (s' & -> & Hr' & Hs' & Ho'); [|exact Hrest|].
    { rewrite Hs1. destruct (Nat.eqb (state s) 1); lia. }
    exists s'. split; [reflexivity|]. split; [exact Hr'|]. split; [exact Hs'|].
    rewrite Ho', Ho1. cbn [join_lines foldr]. apply app_assoc_string.
Qed.

(** Inside a paragraph ([state] 0), lines that end none are blanked. *)
Lemma scan_lines_blank comment s lines next :
  ready comment (hd next lines) s -> state s = 0 ->
  Forall (fun line => match_end line = false) lines ->
  exists s',
    scan_lines s lines = inr s' /\ ready comment next s' /\ state s' = 0 /\
    output s' = output s +:+ join_lines (replicate (length lines) (blank_for comment)).
Proof.
  revert s. induction lines as [|line rest IH]; intros s Hready Hstate Hlines.
  - exists s. simpl. by rewrite app_empty_r.
  - apply Forall_cons in Hlines as [Hline Hrest]. cbn [scan_lines].
    destruct (scan_line_ready comment s line Hready) as (s1 & -> & Hr1 & Hle & Hcase);
      [lia|].
    rewrite Hline, Hstate in Hcase. simpl in Hcase.
    assert (Hs1 : state s1 = 0 /\ output s1 = output s +:+ blank_for comment)
      by (destruct (match_begin line); exact Hcase).
    destruct Hs1 as [Hs1 Ho1].
    destruct (IH s1 (Hr1 _) Hs1 Hrest) as (s' & -> & Hr' & Hs' & Ho').
    exists s'. split; [reflexivity|]. split; [exact Hr'|]. split; [exact Hs'|].
    rewrite Ho', Ho1. cbn [length replicate join_lines foldr]. apply app_assoc_string.
Qed.

Lemma join_lines_app l1 l2 : join_lines (l1 ++ l2) = join_lines l1 +:+ join_lines l2.
Proof.
  induction l1 as [|line l1 IH]; [reflexivity|].
  cbn [app join_lines foldr] in *. fold (join_lines (l1 ++ l2)) (join_lines l1).
  rewrite IH. symmetry. apply app_assoc_string.
Qed.

(** The scan of lines none of which begins a paragraph copies them. *)
Lemma scan_plain lines :
  Forall (fun line => match_begin line = false) lines ->
  exists s, scan_lines scan_start lines = inr s /\ state s <> 0 /\
    output s = join_lines lines.
Proof.
  intros Hplain. destruct lines as [|first rest].
  - exists scan_start. by repeat split.
  - apply Forall_cons in Hplain as [Hfirst Hrest].
    cbn [scan_lines]. rewrite scan_first_line, Hfirst.
    set (s1 := {| state := 2; i := 1; comment1 := None; comment2 := None;
                  output := first |}).
    destruct (scan_lines_copy (String.substring 0 2 (hd EmptyString rest)) s1 rest
                EmptyString) as (s' & -> & _ & Hs' & Ho'); [by left|simpl; lia|exact Hrest|].
    exists s'. split; [reflexivity|]. split; [lia|]. by rewrite Ho'.
Qed.

(** The lines written for a file with one exception paragraph: the lines
    from the beginning to the end of the paragraph, both included, are
    blanked in the comment style of the second line of the file. *)
Definition blanked (first : string) (before : list string) (start : string)
    (body rest : list string) : list string :=
  first :: before
    ++ replicate (2 + length body) (blank_for (String.substring 0 2 (hd start before)))
    ++ rest.

Lemma scan_paragraph first before start body stop rest :
  match_begin first = false ->
  Forall (fun line => match_begin line = false) before ->
  match_begin start = true ->
  Forall (fun line => match_end line = false) body ->
  match_begin stop = false -> match_end stop = true ->
  Forall (fun line => match_begin line = false) rest ->
  exists s,
    scan_lines scan_start (first :: before ++ start :: body ++ stop :: rest) = inr s /\
    state s <> 0 /\
    output s = join_lines (blanked first before start body rest).
Proof.
  intros Hfirst Hbefore Hstart Hbody Hstop Hend Hrest. unfold blanked.
  set (comment := String.substring 0 2 (hd start before)).
  cbn [scan_lines]. rewrite scan_first_line, Hfirst.
  set (s1 := {| state := 2; i := 1; comment1 := None; comment2 := None; output := first |}).
  rewrite scan_lines_app.
  destruct (scan_lines_copy comment s1 before start) as (s2 & -> & Hr2 & Hs2 & Ho2);
    [by left|simpl; lia|exact Hbefore|].
  cbn [scan_lines].
  destruct (scan_line_ready comment s2 start Hr2) as (s3 & -> & Hr3 & _ & Hcase3); [lia|].
  rewrite Hstart in Hcase3. destruct Hcase3 as [Hs3 Ho3].
  rewrite scan_lines_app.
  destruct (scan_lines_blank comment s3 body stop (Hr3 _) Hs3 Hbody)
    as (s4 & -> & Hr4 & Hs4 & Ho4).
  cbn [scan_lines].
  destruct (scan_line_ready comment s4 stop Hr4) as (s5 & -> & Hr5 & _ & Hcase5); [lia|].
  rewrite Hstop, Hend, Hs4 in Hcase5. simpl in Hcase5. destruct Hcase5 as [Hs5 Ho5].
  destruct (scan_lines_copy comment s5 rest EmptyString (Hr5 _)) as (s6 & -> & _ & Hs6 & Ho6);
    [lia|exact Hrest|].
  exists s6. split; [reflexivity|]. split; [lia|].
  rewrite Ho6, Ho5, Ho4, Ho3, Ho2. simpl output.
  change (first :: before ++ ?l) with ([first] ++ before ++ l).
  rewrite !join_lines_app.
  replace (2 + length body) with (S (length body + 1)) by lia.
  rewrite replicate_S, replicate_add. simpl replicate.
  change (blank_for comment :: ?l) with ([blank_for comment] ++ l).
  rewrite !join_lines_app. simpl. rewrite !app_empty_r, !app_assoc_string. reflexivity.
Qed.

(** A file in which no line begins an exception paragraph (an empty file
    too) is read, and written back with the contents it had: it is opened
    for writing although nothing changes. *)
Theorem remove_paragraph_rewrites_plain_file fs filename content :
  fs !! filename = Some content ->
  Forall (fun line => match_begin line = false) (readlines content) ->
  remove_paragraph fs filename
    = {| calls := [OpenRead filename; OpenWrite filename]; disk := fs; result := inr tt |}.
Proof.
  intros Hfile Hplain. unfold remove_paragraph. rewrite Hfile.
  destruct (scan_plain _ Hplain) as (s & -> & Hs & ->).
  destruct (Nat.eqb (state s) 0) eqn:Hz; [by apply Nat.eqb_eq in Hz|].
  rewrite join_lines_readlines. by rewrite insert_id.
Qed.

(** A file with one exception paragraph: after its first line, lines that
    begin no paragraph, the line that begins it, lines that do not end it,
    the line that ends it, and lines that begin no paragraph.  The file is
    rewritten with the lines from the beginning to the end of the
    paragraph, both included, each replaced by a blank comment line in the
    comment style of the second line of the file; all other lines are
    kept. *)
Theorem remove_paragraph_blanks_paragraph
    fs filename content first before start body stop rest :
  fs !! filename = Some content ->
  readlines content = first :: before ++ start :: body ++ stop :: rest ->
  match_begin first = false ->
  Forall (fun line => match_begin line = false) before ->
  match_begin start = true ->
  Forall (fun line => match_end line = false) body ->
  match_begin stop = false -> match_end stop = true ->
  Forall (fun line => match_begin line = false) rest ->
  remove_paragraph fs filename
    = {| calls := [OpenRead filename; OpenWrite filename];
         disk := <[filename := join_lines (blanked first before start body rest)]> fs;
         result := inr tt |}.
Proof.
  intros Hfile Hlines Hfirst Hbefore Hstart Hbody Hstop Hend Hrest.
  unfold remove_paragraph. rewrite Hfile, Hlines.
  destruct (scan_paragraph first before start body stop rest) as (s & -> & Hs & ->);
    try assumption.
  by destruct (Nat.eqb (state s) 0) eqn:Hz; [apply Nat.eqb_eq in Hz|].
Qed.

(** *** Running it again *)

(** A line as [for line in f] gives it when it is not the last one:
    characters other than the newline, then the newline. *)
Fixpoint complete_line (line : string) : bool :=
  match line with
  | EmptyString => false
  | String c rest =>
      if Ascii.eqb c "010" then String.eqb rest EmptyString else complete_line rest
  end.

(** The lines of a file: complete lines, and a last line that may lack
    its newline. *)
Fixpoint file_lines (lines : list string) : bool :=
  match lines with
  | [] => true
  | line :: rest =>
      match rest with
      | [] => orb (complete_line line)
                  (andb (negb (String.eqb line EmptyString)) (negb (contains "010" line)))
      | _ => andb (complete_line line) (file_lines rest)
      end
  end.

Lemma readlines_complete line content :
  complete_line line = true -> readlines (line +:+ content) = line :: readlines content.
Proof.
  induction line as [|c rest IH]; [discriminate|]. intros Hline.
  change (String c rest +:+ content) with (String c (rest +:+ content)).
  cbn [complete_line] in Hline. cbn [readlines]. destruct (Ascii.eqb c "010").
  - apply String.eqb_eq in Hline. by subst rest.
  - by rewrite (IH Hline).
Qed.

Lemma readlines_partial line :
  line <> EmptyString -> contains "010" line = false -> readlines line = [line].
Proof.
  induction line as [|c rest IH]; [done|]. intros _.
  cbn [contains readlines]. destruct (Ascii.eqb c "010"); [discriminate|].
  intros Hrest. destruct rest as [|c' rest']; [reflexivity|].
  by rewrite IH.
Qed.

Lemma readlines_join_lines lines :
  file_lines lines = true -> readlines (join_lines lines) = lines.
Proof.
  induction lines as [|line rest IH]; [reflexivity|].
  cbn [file_lines join_lines foldr]. fold (join_lines rest).
  destruct rest as [|next rest'].
  - simpl join_lines. rewrite app_empty_r.
    intros [Hline|[Hne Hnl]%andb_prop]%orb_prop.
    + rewrite <- (app_empty_r line) at 1. by rewrite (readlines_complete _ _ Hline).
    + apply readlines_partial; [|by apply negb_true_iff].
      apply negb_true_iff in Hne. by apply String.eqb_neq.
  - intros [Hline Hrest]%andb_prop. by rewrite (readlines_complete _ _ Hline), IH.
Qed.

Lemma file_lines_readlines content : file_lines (readlines content) = true.
Proof.
  induction content as [|c rest IH]; [reflexivity|].
  cbn [readlines]. destruct (Ascii.eqb c "010") eqn:Hc.
  - cbn [file_lines]. destruct (readlines rest) eqn:Hrest.
    + simpl. by rewrite Hc.
    + cbn [complete_line]. by rewrite Hc, IH.
  - destruct (readlines rest) as [|line lines] eqn:Hrest.
    + simpl. rewrite Hc. destruct c; reflexivity.
    + cbn [file_lines] in *. cbn [complete_line contains]. rewrite Hc.
      destruct lines; [|exact IH].
      apply orb_prop in IH as [->|[_ Hnl]%andb_prop]; [reflexivity|].
      rewrite Hnl. by rewrite orb_true_r.
Qed.

Lemma file_lines_app_inv l1 l2 :
  file_lines (l1 ++ l2) = true -> l2 <> [] ->
  Forall (fun line => complete_line line = true) l1 /\ file_lines l2 = true.
Proof.
  intros Hlines Hl2. induction l1 as [|line l1 IH]; [by split|].
  cbn [app file_lines] in Hlines.
  destruct (l1 ++ l2) as [|next rest] eqn:Happ.
  - by apply app_eq_nil in Happ as [_ ?].
  - apply andb_prop in Hlines as [Hline Hrest]. destruct (IH Hrest) as [H1 H2].
    split; [by constructor|exact H2].
Qed.

Lemma file_lines_app l1 l2 :
  Forall (fun line => complete_line line = true) l1 -> file_lines l2 = true ->
  file_lines (l1 ++ l2) = true.
Proof.
  intros Hl1 Hl2. induction Hl1 as [|line l1 Hline _ IH]; [exact Hl2|].
  cbn [app file_lines]. rewrite Hline, IH. simpl. by destruct (l1 ++ l2).
Qed.

Lemma complete_line_app prefix line :
  contains "010" prefix = false -> complete_line (prefix +:+ line) = complete_line line.
Proof.
  induction prefix as [|c prefix IH]; [reflexivity|].
  change (String c prefix +:+ line) with (String c (prefix +:+ line)).
  cbn [contains complete_line]. destruct (Ascii.eqb c "010"); [discriminate|].
  exact IH.
Qed.

Lemma contains_spaces n : contains "010" (spaces n) = false.
Proof. induction n as [|n IH]; [reflexivity|exact IH]. Qed.

(** A blank comment line is one line when the comment style holds no
    newline. *)
Lemma complete_blank_for comment :
  contains "010" comment = false -> complete_line (blank_for comment) = true.
Proof.
  intros Hcomment. unfold blank_for.
  rewrite !complete_line_app; [reflexivity| |apply contains_spaces|exact Hcomment].
  by destruct (String.eqb comment " *").
Qed.

(** The lines written for a file with one paragraph are read back as they
    were written. *)
Lemma readlines_blanked content first before start body stop rest :
  readlines content = first :: before ++ start :: body ++ stop :: rest ->
  contains "010" (String.substring 0 2 (hd start before)) = false ->
  readlines (join_lines (blanked first before start body rest))
    = blanked first before start body rest.
Proof.
  intros Hlines Hcomment. apply readlines_join_lines. unfold blanked.
  pose proof (file_lines_readlines content) as Hfile. rewrite Hlines in Hfile.
  assert (Hhead : Forall (fun line => complete_line line = true) (first :: before)).
  { change (first :: before ++ ?l) with ((first :: before) ++ l) in Hfile.
    by apply file_lines_app_inv in Hfile as [? _]. }
  assert (Hrest : file_lines rest = true).
  { destruct rest as [|next rest']; [reflexivity|].
    assert (Heq : first :: before ++ start :: body ++ stop :: next :: rest'
                  = (first :: before ++ start :: body ++ [stop]) ++ next :: rest').
    { cbn [app]. rewrite <- app_assoc. cbn [app]. by rewrite <- app_assoc. }
    rewrite Heq in Hfile. by apply file_lines_app_inv in Hfile as [_ ?]. }
  change (first :: before ++ ?l) with ((first :: before) ++ l).
  apply file_lines_app; [exact Hhead|]. apply file_lines_app; [|exact Hrest].
  apply Forall_forall. intros line ->%elem_of_replicate_inv.
  by apply complete_blank_for.
Qed.

(** Running [remove_paragraph] a second time on a file whose paragraph it
    blanked changes nothing more, provided the comment style of the file
    holds no newline (its second line has two characters before its end)
    and a blank comment line begins no paragraph: the file is written
    back as the first run left it. *)
Theorem remove_paragraph_again_changes_nothing
    fs filename content first before start body stop rest :
  fs !! filename = Some content ->
  readlines content = first :: before ++ start :: body ++ stop :: rest ->
  match_begin first = false ->
  Forall (fun line => match_begin line = false) before ->
  match_begin start = true ->
  Forall (fun line => match_end line = false) body ->
  match_begin stop = false -> match_end stop = true ->
  Forall (fun line => match_begin line = false) rest ->
  contains "010" (String.substring 0 2 (hd start before)) = false ->
  match_begin (blank_for (String.substring 0 2 (hd start before))) = false ->
  result (remove_paragraph fs filename) = inr tt /\
  remove_paragraph (disk (remove_paragraph fs filename)) filename
    = {| calls := [OpenRead filename; OpenWrite filename];
         disk := disk (remove_paragraph fs filename);
         result := inr tt |}.
Proof.
  intros Hfile Hlines Hfirst Hbefore Hstart Hbody Hstop Hend Hrest Hcomment Hblank.
  unfold remove_paragraph at 1 3 4. rewrite Hfile, Hlines.
  destruct (scan_paragraph first before start body stop rest) as (s & -> & Hs & Hout);
    try assumption.
  destruct (Nat.eqb (state s) 0) eqn:Hz; [by apply Nat.eqb_eq in Hz|].
  cbn [result disk]. split; [reflexivity|].
  unfold remove_paragraph. rewrite lookup_insert_eq, Hout.
  rewrite (readlines_blanked content first before start body stop rest Hlines Hcomment).
  destruct (scan_plain (blanked first before start body rest)) as (s' & -> & Hs' & ->).
  { unfold blanked. constructor; [exact Hfirst|].
    apply Forall_app. split; [exact Hbefore|]. apply Forall_app. split; [|exact Hrest].
    apply Forall_forall. by intros line ->%elem_of_replicate_inv. }
  destruct (Nat.eqb (state s') 0) eqn:Hz'; [by apply Nat.eqb_eq in Hz'|].
  by rewrite insert_insert_eq.
Qed.

(** *** The outer function *)

(** [e3.fs.rm] and [e3.fs.find] are not among the sources at hand: they
    are parameters.  [rm fs path] gives the disk the call leaves and, when
    it raises, the message of its exception; [find fs root pattern] reads
    the disk and gives the paths found, or the message of its exception. *)
Variable rm : gmap string string -> string -> gmap string string * option string.
Variable find : gmap string string -> string -> string -> string + list string.

(** The exception that leaves [gplize]: one of [rm] or [find], or one of
    [remove_paragraph]. *)
Inductive failure : Type :=
| FsFailure (message : string)
| InFile (e : exn).

(** The calls [gplize] makes, in order. *)
Inductive action : Type :=
| LogDebug (message : string)
| Rm (path : string)
| Find (root pattern : string)
| Open (call : io).

(** What a call of [gplize] leaves behind. *)
Record session : Type := {
  actions : list action;
  final : gmap string string;
  ended : failure + unit
}.

(** Lines 363-364: [for k in l: remove_paragraph(k)]. *)
Fixpoint remove_paragraphs (fs : gmap string string) (l : list string) : outcome unit :=
  match l with
  | [] => {| calls := []; disk := fs; result := inr tt |}
  | k :: rest =>
      let o := remove_paragraph fs k in
      match result o with
      | inl _ => o
      | inr _ =>
          let o' := remove_paragraphs (disk o) rest in
          {| calls := calls o ++ calls o'; disk := disk o'; result := result o' |}
      end
  end.

(** Line 362: [for l in (gpb_files, ada_files, c_files, java_files)]. *)
Fixpoint remove_in_each (fs : gmap string string) (lists : list (list string))
  : outcome unit :=
  match lists with
  | [] => {| calls := []; disk := fs; result := inr tt |}
  | l :: rest =>
      let o := remove_paragraphs fs l in
      match result o with
      | inl _ => o
      | inr _ =>
          let o' := remove_in_each (disk o) rest in
          {| calls := calls o ++ calls o'; disk := disk o'; result := result o' |}
      end
  end.

(** Line 353: [config.get('release_mode', '') == 'gpl' or force];
    [release_mode] is [None] when the configuration has no such key. *)
Definition gpl_wanted (release_mode : option string) (force : bool) : bool :=
  orb (String.eqb (default EmptyString release_mode) "gpl") force.

(** Line 356: the file removed first. *)
Definition runtime_exception_file (src_dir : string) : string :=
  os_path_join src_dir "COPYING.RUNTIME".

(** The calls made before the first file is read, lines 354-360. *)
Definition gplize_setup (src_dir : string) : list action :=
  [LogDebug "move files to GPL license"; Rm (runtime_exception_file src_dir);
   Find src_dir "*.gp*"; Find src_dir "*.ad*"; Find src_dir "*.[hc]";
   Find src_dir "*.java"].

(** Lines 353-364. *)
Definition gplize (release_mode : option string) (fs : gmap string string)
    (src_dir : string) (force : bool) : session :=
  if gpl_wanted release_mode force then
    let stop n fs' message :=
      {| actions := take n (gplize_setup src_dir); final := fs';
         ended := inl (FsFailure message) |} in
    match rm fs (runtime_exception_file src_dir) with
    | (fs1, Some message) => stop 2 fs1 message
    | (fs1, None) =>
    match find fs1 src_dir "*.gp*" with
    | inl message => stop 3 fs1 message
    | inr gpb_files =>
    match find fs1 src_dir "*.ad*" with
    | inl message => stop 4 fs1 message
    | inr ada_files =>
    match find fs1 src_dir "*.[hc]" with
    | inl message => stop 5 fs1 message
    | inr c_files =>
    match find fs1 src_dir "*.java" with
    | inl message => stop 6 fs1 message
    | inr java_files =>
        let o := remove_in_each fs1 [gpb_files; ada_files; c_files; java_files] in
        {| actions := gplize_setup src_dir ++ map Open (calls o);
           final := disk o;
           ended := match result o with
                    | inl e => inl (InFile e)
                    | inr u => inr u
                    end |}
    end end end end end
  else {| actions := []; final := fs; ended := inr tt |}.

(** One file: the call either raises, having opened the file for reading
    only and changed nothing, or returns, having written new contents to
    a file that was there. *)
Lemma remove_paragraph_cases fs filename :
  (exists e, remove_paragraph fs filename
             = {| calls := [OpenRead filename]; disk := fs; result := inl e |}) \/
  (exists content new,
     fs !! filename = Some content /\
     remove_paragraph fs filename
       = {| calls := [OpenRead filename; OpenWrite filename];
            disk := <[filename := new]> fs; result := inr tt |}).
Proof.
  unfold remove_paragraph. destruct (fs !! filename) as [content|] eqn:Hfile.
  - destruct (scan_lines scan_start (readlines content)) as [e|s].
    + left. by exists e.
    + destruct (Nat.eqb (state s) 0).
      * left. by eexists.
      * right. exists content, (output s). by split.
  - left. by eexists.
Qed.

(** The files a list of [open] calls names. *)
Definition opened_file (call : io) : string :=
  match call with
  | OpenRead filename => filename
  | OpenWrite filename => filename
  end.

(** What the loop does on success: each file read, then written. *)
Definition read_and_write (l : list string) : list io :=
  l ≫= (fun k => [OpenRead k; OpenWrite k]).

Lemma remove_paragraphs_app fs l1 l2 :
  remove_paragraphs fs (l1 ++ l2) =
    let o := remove_paragraphs fs l1 in
    match result o with
    | inl _ => o
    | inr _ =>
        let o' := remove_paragraphs (disk o) l2 in
        {| calls := calls o ++ calls o'; disk := disk o'; result := result o' |}
    end.
Proof.
  revert fs. induction l1 as [|k l1 IH]; intros fs.
  - simpl. by destruct (remove_paragraphs fs l2).
  - cbn [app remove_paragraphs]. cbv zeta.
    destruct (remove_paragraph_cases fs k) as [[e ->]|(content & new & _ & ->)].
    + reflexivity.
    + cbn [result disk calls]. rewrite IH. cbv zeta.
      destruct (result (remove_paragraphs (<[k:=new]> fs) l1)) eqn:Hrest;
        cbn [result disk calls].
      * by rewrite Hrest.
      * by rewrite app_assoc.
Qed.

(** The loop over the four lists is the loop over their concatenation. *)
Lemma remove_in_each_concat fs lists :
  remove_in_each fs lists = remove_paragraphs fs (concat lists).
Proof.
  revert fs. induction lists as [|l lists IH]; intros fs; [reflexivity|].
  cbn [remove_in_each concat]. rewrite remove_paragraphs_app. cbv zeta.
  destruct (result (remove_paragraphs fs l)); [reflexivity|]. by rewrite IH.
Qed.

(** The loop creates and deletes no file, leaves alone the files that are
    not in its list, and opens only files of its list. *)
Lemma remove_paragraphs_frame fs l :
  dom (disk (remove_paragraphs fs l)) = dom fs /\
  (forall p, p ∉ l -> disk (remove_paragraphs fs l) !! p = fs !! p) /\
  Forall (fun call => opened_file call ∈ l) (calls (remove_paragraphs fs l)).
Proof.
  revert fs. induction l as [|k l IH]; intros fs.
  - simpl. split; [reflexivity|]. split; [reflexivity|constructor].
  - cbn [remove_paragraphs]. cbv zeta.
    destruct (remove_paragraph_cases fs k) as [[e ->]|(content & new & Hfile & ->)];
      cbn [result disk calls].
    + split; [reflexivity|]. split; [reflexivity|].
      constructor; [apply list_elem_of_here|constructor].
    + destruct (IH (<[k:=new]> fs)) as (Hdom & Hframe & Hcalls).
      split; [|split].
      * rewrite Hdom, dom_insert_L.
        apply subseteq_union_1_L, singleton_subseteq_l, elem_of_dom. eauto.
      * intros p Hp. apply not_elem_of_cons in Hp as [Hpk Hpl].
        rewrite (Hframe p Hpl). by apply lookup_insert_ne.
      * cbn [app]. constructor; [apply list_elem_of_here|].
        constructor; [apply list_elem_of_here|].
        eapply Forall_impl; [exact Hcalls|]. intros call Hcall. by apply list_elem_of_further.
Qed.

(** When the loop returns, every file of the list was there and was read
    and then written, in the order of the list. *)
Lemma remove_paragraphs_success fs l u :
  result (remove_paragraphs fs l) = inr u ->
  calls (remove_paragraphs fs l) = read_and_write l /\
  Forall (fun k => is_Some (fs !! k)) l.
Proof.
  revert fs. induction l as [|k l IH]; intros fs.
  - simpl. intros _. split; [reflexivity|constructor].
  - cbn [remove_paragraphs]. cbv zeta.
    destruct (remove_paragraph_cases fs k) as [[e ->]|(content & new & Hfile & ->)];
      cbn [result disk calls]; [discriminate|].
    intros Hok. destruct (IH _ Hok) as [Hcalls Hthere]. split.
    + rewrite Hcalls. reflexivity.
    + constructor; [eauto|].
      eapply Forall_impl; [exact Hthere|]. intros k' [c Hk'].
      destruct (decide (k = k')) as [<-|Hne]; [eauto|].
      rewrite lookup_insert_ne in Hk' by done. eauto.
Qed.

(** When a file of the list makes [remove_paragraph] raise, the loop ends
    there. *)
Lemma remove_paragraphs_failure fs done bad later e :
  result (remove_paragraphs fs done) = inr tt ->
  result (remove_paragraph (disk (remove_paragraphs fs done)) bad) = inl e ->
  remove_paragraphs fs (done ++ bad :: later)
    = {| calls := read_and_write done ++ [OpenRead bad];
         disk := disk (remove_paragraphs fs done);
         result := inl e |}.
Proof.
  intros Hdone Hbad. rewrite remove_paragraphs_app. cbv zeta. rewrite Hdone.
  destruct (remove_paragraphs_success _ _ _ Hdone) as [-> _].
  cbn [remove_paragraphs]. cbv zeta.
  destruct (remove_paragraph_cases (disk (remove_paragraphs fs done)) bad)
    as [[e' Heq]|(content & new & _ & Heq)]; rewrite Heq in Hbad |- *;
    cbn [result disk calls] in *; [|discriminate].
  by injection Hbad as ->.
Qed.

(** The four patterns of lines 357-360. *)
Definition gplize_patterns : list string := ["*.gp*"; "*.ad*"; "*.[hc]"; "*.java"].

(** The disk [rm] leaves. *)
Definition after_rm (fs : gmap string string) (src_dir : string) : gmap string string :=
  fst (rm fs (runtime_exception_file src_dir)).

(** No call that opens file [p]. *)
Definition never_opens (p : string) (done : list action) : Prop :=
  Forall (fun a => match a with Open call => opened_file call <> p | _ => True end) done.

Lemma never_opens_outside p (l : list string) calls0 :
  p ∉ l -> Forall (fun call => opened_file call ∈ l) calls0 ->
  never_opens p (map Open calls0).
Proof.
  intros Hp Hcalls. unfold never_opens. apply Forall_fmap.
  eapply Forall_impl; [exact Hcalls|]. intros call Hcall. simpl. intros Heq.
  apply Hp. by rewrite <- Heq.
Qed.

(** A path that [find] returns for none of the four patterns is never
    opened and keeps the contents [rm] left it with (the contents it had,
    when neither the release mode nor [force] asks for the GPL); and apart
    from what [rm] does, no file is created or deleted.  This holds however
    the call ends. *)
Theorem gplize_changes_found_files_only release_mode fs src_dir force p :
  (forall pattern files,
     pattern ∈ gplize_patterns ->
     find (after_rm fs src_dir) src_dir pattern = inr files -> p ∉ files) ->
  let before := if gpl_wanted release_mode force then after_rm fs src_dir else fs in
  final (gplize release_mode fs src_dir force) !! p = before !! p /\
  never_opens p (actions (gplize release_mode fs src_dir force)) /\
  dom (final (gplize release_mode fs src_dir force)) = dom before.
Proof.
  intros Hp before. subst before. unfold gplize, after_rm in *.
  destruct (gpl_wanted release_mode force); [|by repeat constructor].
  destruct (rm fs (runtime_exception_file src_dir)) as [fs1 [message|]]; cbn [fst] in *;
    [by repeat constructor|].
  assert (Hin : forall pattern, pattern ∈ gplize_patterns ->
            forall files, find fs1 src_dir pattern = inr files -> p ∉ files)
    by (intros pattern Hpattern files; by apply Hp).
  assert (H1 := Hin "*.gp*" ltac:(repeat constructor)).
  assert (H2 := Hin "*.ad*" ltac:(repeat constructor)).
  assert (H3 := Hin "*.[hc]" ltac:(repeat constructor)).
  assert (H4 := Hin "*.java" ltac:(repeat constructor)).
  destruct (find fs1 src_dir "*.gp*") as [?|gpb_files]; [by repeat constructor|].
  destruct (find fs1 src_dir "*.ad*") as [?|ada_files]; [by repeat constructor|].
  destruct (find fs1 src_dir "*.[hc]") as [?|c_files]; [by repeat constructor|].
  destruct (find fs1 src_dir "*.java") as [?|java_files]; [by repeat constructor|].
  cbn [actions final]. rewrite remove_in_each_concat.
  set (l := concat [gpb_files; ada_files; c_files; java_files]).
  assert (Hpl : p ∉ l).
  { subst l. cbn [concat]. rewrite app_nil_r, !not_elem_of_app.
    split; [by apply H1|]. split; [by apply H2|]. split; [by apply H3|by apply H4]. }
  destruct (remove_paragraphs_frame fs1 l) as (Hdom & Hframe & Hcalls).
  split; [by apply Hframe|]. split; [|exact Hdom].
  unfold never_opens. apply Forall_app. split; [by repeat constructor|].
  by apply (never_opens_outside p l).
Qed.

(** When [gplize] is asked for the GPL and returns, [rm] and the four
    [find] calls returned, and every path found was a file that was read
    and then written: first the files of the first pattern, in the order
    [find] gave them, then those of the second, and so on; a path found
    for two patterns is processed twice. *)
Theorem gplize_rewrites_every_found_file release_mode fs src_dir force :
  gpl_wanted release_mode force = true ->
  ended (gplize release_mode fs src_dir force) = inr tt ->
  exists gpb_files ada_files c_files java_files,
    rm fs (runtime_exception_file src_dir) = (after_rm fs src_dir, None) /\
    find (after_rm fs src_dir) src_dir "*.gp*" = inr gpb_files /\
    find (after_rm fs src_dir) src_dir "*.ad*" = inr ada_files /\
    find (after_rm fs src_dir) src_dir "*.[hc]" = inr c_files /\
    find (after_rm fs src_dir) src_dir "*.java" = inr java_files /\
    actions (gplize release_mode fs src_dir force)
      = gplize_setup src_dir
        ++ map Open (read_and_write (gpb_files ++ ada_files ++ c_files ++ java_files)) /\
    Forall (fun k => is_Some (after_rm fs src_dir !! k))
           (gpb_files ++ ada_files ++ c_files ++ java_files).
Proof.
  intros Hwanted. unfold gplize, after_rm. rewrite Hwanted.
  destruct (rm fs (runtime_exception_file src_dir)) as [fs1 [message|]]; cbn [fst];
    [discriminate|].
  destruct (find fs1 src_dir "*.gp*") as [?|gpb_files]; [discriminate|].
  destruct (find fs1 src_dir "*.ad*") as [?|ada_files]; [discriminate|].
  destruct (find fs1 src_dir "*.[hc]") as [?|c_files]; [discriminate|].
  destruct (find fs1 src_dir "*.java") as [?|java_files]; [discriminate|].
  cbn [actions ended]. rewrite remove_in_each_concat. cbn [concat]. rewrite app_nil_r.
  set (l := gpb_files ++ ada_files ++ c_files ++ java_files).
  destruct (result (remove_paragraphs fs1 l)) as [e|[]] eqn:Hresult; [discriminate|].
  intros _. destruct (remove_paragraphs_success fs1 l tt Hresult) as [Hcalls Hthere].
  exists gpb_files, ada_files, c_files, java_files.
  do 5 (split; [reflexivity|]). split; [by rewrite Hcalls|exact Hthere].
Qed.

(** Nothing is rolled back: when [remove_paragraph] raises on one of the
    files found, [gplize] ends with that exception; the files before it
    stay rewritten, the files after it are not opened. *)
Theorem gplize_stops_at_first_failure
    release_mode fs src_dir force fs1 gpb_files ada_files c_files java_files
    done bad later e :
  gpl_wanted release_mode force = true ->
  rm fs (runtime_exception_file src_dir) = (fs1, None) ->
  find fs1 src_dir "*.gp*" = inr gpb_files ->
  find fs1 src_dir "*.ad*" = inr ada_files ->
  find fs1 src_dir "*.[hc]" = inr c_files ->
  find fs1 src_dir "*.java" = inr java_files ->
  gpb_files ++ ada_files ++ c_files ++ java_files = done ++ bad :: later ->
  result (remove_paragraphs fs1 done) = inr tt ->
  result (remove_paragraph (disk (remove_paragraphs fs1 done)) bad) = inl e ->
  gplize release_mode fs src_dir force
    = {| actions := gplize_setup src_dir
                    ++ map Open (read_and_write done ++ [OpenRead bad]);
         final := disk (remove_paragraphs fs1 done);
         ended := inl (InFile e) |}.
Proof.
  intros Hwanted Hrm Hgpb Hada Hc Hjava Hsplit Hdone Hbad.
  unfold gplize. rewrite Hwanted, Hrm, Hgpb, Hada, Hc, Hjava.
  rewrite remove_in_each_concat. cbn [concat]. rewrite app_nil_r, Hsplit.
  by rewrite (remove_paragraphs_failure fs1 done bad later e Hdone Hbad).
Qed.

End Gplize.

End Helper.

(** ** A concrete world for the helpers *)

Module HelperDemo.
Import PyStr Helper.
Local Open Scope nat_scope.

(** A stand-in for [re.subn] on one-character patterns: every occurrence of
    the character is replaced. *)
Fixpoint subst_char (c : ascii) (replacement line : string) : string * nat :=
  match line with
  | EmptyString => (EmptyString, 0)
  | String a rest =>
      let '(rest', n) := subst_char c replacement rest in
      if Ascii.eqb a c then (replacement +:+ rest', S n) else (String a rest', n)
  end.

Definition subn (regexp replacement line : string) : string * nat :=
  match regexp with
  | String c EmptyString => subst_char c replacement line
  | _ => (line, 0)
  end.

(** Stand-ins for the two regular expressions of [remove_paragraph]. *)
Definition match_begin (line : string) : bool :=
  String.prefix "-- As a special exception" line.
Definition match_end (line : string) : bool :=
  String.prefix "-- covered by the GNU Public License" line.

Definition notes : string := "ab" +:+ newline +:+ "ba" +:+ newline.

Definition unit_head : string :=
  "-- As a special exception, if other files instantiate generics from this unit"
    +:+ newline +:+ "-- or you link this unit with other files" +:+ newline.

Definition unit_body : string :=
  "--  S p e c" +:+ newline
    +:+ "-- As a special exception, if other files instantiate generics from this unit"
    +:+ newline +:+ "package P is" +:+ newline.

Definition fs : gmap string string :=
  {[ "notes.txt" := notes; "head.ads" := unit_head; "body.ads" := unit_body ]}.

Example readlines_notes : readlines notes = ["ab" +:+ newline; "ba" +:+ newline].
Proof. reflexivity. Qed.

Example text_replace_notes :
  text_replace subn fs "notes.txt" [("a", "b"); ("b", "c")] =
    {| calls := [OpenRead "notes.txt"; OpenWrite "notes.txt"];
       disk := <["notes.txt" := "cc" +:+ newline +:+ "cc" +:+ newline]> fs;
       result := inr [2; 4] |}.
Proof. vm_compute. reflexivity. Qed.

Example text_replace_nothing :
  text_replace subn fs "notes.txt" [("x", "y"); ("z", "t")] =
    {| calls := [OpenRead "notes.txt"]; disk := fs; result := inr [0; 0] |}.
Proof. vm_compute. reflexivity. Qed.

Lemma text_replace_witness :
  fs !! "notes.txt" = Some notes /\
  exists nb,
    result (text_replace subn fs "notes.txt" [("x", "y"); ("b", "c")]) = inr nb /\
    length nb = 2 /\
    (forall i, i < 2 ->
       nb !! i = Some (sum_list (map (count_at subn [("x", "y"); ("b", "c")] i)
                                     (readlines notes)))) /\
    (Forall (fun n => n = 0) nb ->
       calls (text_replace subn fs "notes.txt" [("x", "y"); ("b", "c")])
         = [OpenRead "notes.txt"] /\
       disk (text_replace subn fs "notes.txt" [("x", "y"); ("b", "c")]) = fs).
Proof.
  split; [vm_compute; reflexivity|].
  apply (text_replace_counts_and_frame subn fs "notes.txt" notes [("x", "y"); ("b", "c")]).
  vm_compute. reflexivity.
Defined.

(** A unit whose exception paragraph starts on its second line and is
    never ended. *)
Example remove_paragraph_body :
  remove_paragraph match_begin match_end fs "body.ads" =
    {| calls := [OpenRead "body.ads"]; disk := fs;
       result := inl (AnodError "gplize: End of paragraph was not detected in body.ads") |}.
Proof. vm_compute. reflexivity. Qed.

(** A unit whose exception paragraph starts on its first line. *)
Lemma remove_paragraph_head_witness :
  fs !! "head.ads" = Some unit_head /\
  match_begin "-- As a special exception, if other files instantiate generics from this unit"
    = true /\
  remove_paragraph match_begin match_end fs "head.ads" =
    {| calls := [OpenRead "head.ads"]; disk := fs;
       result := inl (UnboundLocalError "comment1") |}.
Proof.
  split; [vm_compute; reflexivity|]. split; [reflexivity|].
  eapply (remove_paragraph_begin_on_first_line match_begin match_end fs "head.ads" unit_head);
    vm_compute; reflexivity.
Defined.

(** *** More of [text_replace] *)

Lemma text_replace_writes_witness :
  fs !! "notes.txt" = Some notes /\
  result (text_replace subn fs "notes.txt" [("a", "b"); ("b", "c")]) = inr [2; 4] /\
  calls (text_replace subn fs "notes.txt" [("a", "b"); ("b", "c")])
    = [OpenRead "notes.txt"; OpenWrite "notes.txt"] /\
  disk (text_replace subn fs "notes.txt" [("a", "b"); ("b", "c")])
    = <["notes.txt" := join_lines (map (line_after subn [("a", "b"); ("b", "c")])
                                       (readlines notes))]> fs.
Proof.
  split; [vm_compute; reflexivity|]. split; [vm_compute; reflexivity|].
  apply (text_replace_writes_rewritten_lines subn fs "notes.txt" notes
           [("a", "b"); ("b", "c")] [2; 4]).
  - vm_compute; reflexivity.
  - vm_compute; reflexivity.
  - intros Hzero. inversion Hzero. discriminate.
Defined.

Lemma text_replace_no_pattern_witness :
  fs !! "notes.txt" = Some notes /\
  text_replace subn fs "notes.txt" []
    = {| calls := [OpenRead "notes.txt"]; disk := fs; result := inr [] |}.
Proof.
  split; [vm_compute; reflexivity|].
  apply (text_replace_nothing_to_do subn fs "notes.txt" notes []).
  - vm_compute; reflexivity.
  - left. reflexivity.
Defined.

(** *** A source tree for [gplize] *)

(** A stand-in for [e3.fs.rm]: the file is deleted if it is there. *)
Definition rm (fs : gmap string string) (path : string)
  : gmap string string * option string :=
  (delete path fs, None).

Definition is_substring (s name : string) : bool :=
  match String.index 0 s name with
  | Some _ => true
  | None => false
  end.

Definition ends_with (suffix name : string) : bool :=
  String.eqb (String.substring (String.length name - String.length suffix)
                               (String.length suffix) name) suffix.

(** The four patterns of [gplize], on path names. *)
Definition glob (pattern name : string) : bool :=
  if String.eqb pattern "*.gp*" then is_substring ".gp" name
  else if String.eqb pattern "*.ad*" then is_substring ".ad" name
  else if String.eqb pattern "*.[hc]" then orb (ends_with ".h" name) (ends_with ".c" name)
  else if String.eqb pattern "*.java" then ends_with ".java" name
  else false.

(** A stand-in for [e3.fs.find]: the files below [root] whose name the
    pattern matches. *)
Definition find (fs : gmap string string) (root pattern : string) : string + list string :=
  inr (List.filter (fun path => andb (String.prefix root path) (glob pattern path))
                   (map fst (map_to_list fs))).

(** A unit with an exception paragraph of three lines. *)
Definition unit_spec : string :=
  "--  S p e c" +:+ newline
    +:+ "--" +:+ newline
    +:+ "-- As a special exception, if other files instantiate generics from this unit"
    +:+ newline
    +:+ "-- this unit does not by itself cause the resulting executable to be" +:+ newline
    +:+ "-- covered by the GNU Public License." +:+ newline
    +:+ "package P is" +:+ newline.

(** What [gplize] makes of it. *)
Definition unit_spec_gpl : string :=
  "--  S p e c" +:+ newline
    +:+ "--" +:+ newline
    +:+ blank_for "--" +:+ blank_for "--" +:+ blank_for "--"
    +:+ "package P is" +:+ newline.

Definition tree : gmap string string :=
  {[ "src/COPYING.RUNTIME" := "exception text" +:+ newline;
     "src/p.gpr" := "project P is" +:+ newline +:+ "end P;" +:+ newline;
     "src/u.ads" := unit_spec;
     "src/v.adb" := unit_body;
     "src/w.c" := "int x;" +:+ newline;
     "doc/readme" := "read me" +:+ newline ]}.

(** The same tree without the unit whose paragraph is not ended. *)
Definition sound_tree : gmap string string := delete "src/v.adb" tree.

Example find_in_tree :
  (find tree "src" "*.gp*", find tree "src" "*.ad*",
   find tree "src" "*.[hc]", find tree "src" "*.java")
  = (inr ["src/p.gpr"], inr ["src/u.ads"; "src/v.adb"], inr ["src/w.c"], inr []).
Proof. vm_compute. reflexivity. Qed.

Example blank_line_of_ada :
  blank_for "--"
  = "--                                                                          --"
      +:+ newline.
Proof. reflexivity. Qed.

Example remove_paragraph_unit_spec :
  remove_paragraph match_begin match_end tree "src/u.ads" =
    {| calls := [OpenRead "src/u.ads"; OpenWrite "src/u.ads"];
       disk := <["src/u.ads" := unit_spec_gpl]> tree;
       result := inr tt |}.
Proof. vm_compute. reflexivity. Qed.

Lemma remove_paragraph_plain_witness :
  tree !! "src/p.gpr" = Some ("project P is" +:+ newline +:+ "end P;" +:+ newline) /\
  remove_paragraph match_begin match_end tree "src/p.gpr" =
    {| calls := [OpenRead "src/p.gpr"; OpenWrite "src/p.gpr"]; disk := tree;
       result := inr tt |}.
Proof.
  split; [vm_compute; reflexivity|].
  apply (remove_paragraph_rewrites_plain_file match_begin match_end tree "src/p.gpr"
           ("project P is" +:+ newline +:+ "end P;" +:+ newline)).
  - vm_compute; reflexivity.
  - repeat constructor.
Defined.

Lemma remove_paragraph_blanks_witness :
  tree !! "src/u.ads" = Some unit_spec /\
  remove_paragraph match_begin match_end tree "src/u.ads" =
    {| calls := [OpenRead "src/u.ads"; OpenWrite "src/u.ads"];
       disk := <["src/u.ads" :=
                  join_lines
                    (blanked ("--  S p e c" +:+ newline) ["--" +:+ newline]
                       ("-- As a special exception, if other files instantiate generics from this unit"
                          +:+ newline)
                       ["-- this unit does not by itself cause the resulting executable to be"
                          +:+ newline]
                       ["package P is" +:+ newline])]> tree;
       result := inr tt |}.
Proof.
  split; [vm_compute; reflexivity|].
  apply (remove_paragraph_blanks_paragraph match_begin match_end tree "src/u.ads" unit_spec
           ("--  S p e c" +:+ newline) ["--" +:+ newline]
           ("-- As a special exception, if other files instantiate generics from this unit"
              +:+ newline)
           ["-- this unit does not by itself cause the resulting executable to be"
              +:+ newline]
           ("-- covered by the GNU Public License." +:+ newline)
           ["package P is" +:+ newline]).
  - vm_compute; reflexivity.
  - vm_compute; reflexivity.
  - reflexivity.
  - repeat constructor.
  - reflexivity.
  - repeat constructor.
  - reflexivity.
  - reflexivity.
  - repeat constructor.
Defined.

Lemma remove_paragraph_again_witness :
  tree !! "src/u.ads" = Some unit_spec /\
  result (remove_paragraph match_begin match_end tree "src/u.ads") = inr tt /\
  remove_paragraph match_begin match_end
    (disk (remove_paragraph match_begin match_end tree "src/u.ads")) "src/u.ads"
  = {| calls := [OpenRead "src/u.ads"; OpenWrite "src/u.ads"];
       disk := disk (remove_paragraph match_begin match_end tree "src/u.ads");
       result := inr tt |}.
Proof.
  split; [vm_compute; reflexivity|].
  apply (remove_paragraph_again_changes_nothing match_begin match_end tree "src/u.ads"
           unit_spec
           ("--  S p e c" +:+ newline) ["--" +:+ newline]
           ("-- As a special exception, if other files instantiate generics from this unit"
              +:+ newline)
           ["-- this unit does not by itself cause the resulting executable to be"
              +:+ newline]
           ("-- covered by the GNU Public License." +:+ newline)
           ["package P is" +:+ newline]).
  - vm_compute; reflexivity.
  - vm_compute; reflexivity.
  - reflexivity.
  - repeat constructor.
  - reflexivity.
  - repeat constructor.
  - reflexivity.
  - reflexivity.
  - repeat constructor.
  - reflexivity.
  - reflexivity.
Defined.

Lemma remove_paragraph_unterminated_witness :
  tree !! "src/v.adb" = Some unit_body /\
  remove_paragraph match_begin match_end tree "src/v.adb" =
    {| calls := [OpenRead "src/v.adb"]; disk := tree;
       result := inl (AnodError "gplize: End of paragraph was not detected in src/v.adb") |}.
Proof.
  split; [vm_compute; reflexivity|].
  apply (remove_paragraph_unterminated match_begin match_end tree "src/v.adb" unit_body
           ("--  S p e c" +:+ newline) []
           ("-- As a special exception, if other files instantiate generics from this unit"
              +:+ newline)
           ["package P is" +:+ newline]).
  - vm_compute; reflexivity.
  - vm_compute; reflexivity.
  - reflexivity.
  - reflexivity.
  - repeat constructor.
Defined.

(** *** [gplize] on the tree *)

Lemma gplize_frame_witness :
  final (gplize match_begin match_end rm find (Some "gpl") tree "src" false) !! "doc/readme"
    = Some ("read me" +:+ newline) /\
  never_opens "doc/readme"
    (actions (gplize match_begin match_end rm find (Some "gpl") tree "src" false)) /\
  dom (final (gplize match_begin match_end rm find (Some "gpl") tree "src" false))
    = dom (delete "src/COPYING.RUNTIME" tree).
Proof.
  apply (gplize_changes_found_files_only match_begin match_end rm find
           (Some "gpl") tree "src" false "doc/readme").
  intros pattern files Hpattern Hfind Hfound.
  apply list_elem_of_In in Hfound.
  repeat (apply elem_of_cons in Hpattern as [->|Hpattern]);
    [vm_compute in Hfind; injection Hfind as <-; simpl in Hfound; intuition discriminate..|].
  by apply elem_of_nil in Hpattern.
Defined.

Lemma gplize_success_witness :
  ended (gplize match_begin match_end rm find None sound_tree "src" true) = inr tt /\
  actions (gplize match_begin match_end rm find None sound_tree "src" true)
    = gplize_setup "src"
      ++ map Open (read_and_write ["src/p.gpr"; "src/u.ads"; "src/w.c"]).
Proof.
  split; [vm_compute; reflexivity|].
  destruct (gplize_rewrites_every_found_file match_begin match_end rm find
              None sound_tree "src" true)
    as (gpb_files & ada_files & c_files & java_files
        & _ & Hgpb & Hada & Hc & Hjava & Hactions & _).
  - reflexivity.
  - vm_compute; reflexivity.
  - vm_compute in Hgpb, Hada, Hc, Hjava.
    injection Hgpb as <-. injection Hada as <-. injection Hc as <-. injection Hjava as <-.
    exact Hactions.
Defined.

Lemma gplize_stop_witness :
  find (delete "src/COPYING.RUNTIME" tree) "src" "*.ad*" = inr ["src/u.ads"; "src/v.adb"] /\
  gplize match_begin match_end rm find (Some "gpl") tree "src" false
    = {| actions := gplize_setup "src"
                    ++ map Open (read_and_write ["src/p.gpr"; "src/u.ads"]
                                 ++ [OpenRead "src/v.adb"]);
         final := disk (remove_paragraphs match_begin match_end
                          (delete "src/COPYING.RUNTIME" tree) ["src/p.gpr"; "src/u.ads"]);
         ended := inl (InFile (AnodError
                    "gplize: End of paragraph was not detected in src/v.adb")) |}.
Proof.
  split; [vm_compute; reflexivity|].
  apply (gplize_stops_at_first_failure match_begin match_end rm find
           (Some "gpl") tree "src" false (delete "src/COPYING.RUNTIME" tree)
           ["src/p.gpr"] ["src/u.ads"; "src/v.adb"] ["src/w.c"] []
           ["src/p.gpr"; "src/u.ads"] "src/v.adb" ["src/w.c"]).
  - reflexivity.
  - reflexivity.
  - vm_compute; reflexivity.
  - vm_compute; reflexivity.
  - vm_compute; reflexivity.
  - vm_compute; reflexivity.
  - reflexivity.
  - vm_compute; reflexivity.
  - vm_compute; reflexivity.
Defined.

(** The unit before the failing one stays rewritten. *)
Example gplize_leaves_earlier_files_rewritten :
  final (gplize match_begin match_end rm find (Some "gpl") tree "src" false) !! "src/u.ads"
    = Some unit_spec_gpl.
Proof. vm_compute. reflexivity. Qed.

End HelperDemo.

(** ** The wrappers around make and configure

    [Make] and [Configure] of helper.py, lines 20-234.  The Anod instance
    they are given is a record of what they read from it; its methods
    [parse_command] and [shell], and the path functions of [e3.os.fs] and
    [os.path], are parameters. *)

Module Tools.
Import PyStr.

(** The Python values the two classes hand over. *)
#[warnings="-register-all"]
Inductive object : Type :=
| PyNone
| PyBool (b : bool)
| PyInt (z : Z)
| PyStr (s : string)
| PyList (items : list object)
| PyDict (items : gmap string object).

Inductive exn : Type :=
| TypeError (message : string)
| ValueError (message : string)
| CommandError (message : string).

(** [anod_instance.env]: what [Configure] reads of it. *)
Record Env : Type := {
  is_canadian : bool;
  is_cross : bool;
  target_triplet : string;
  host_triplet : string;
  build_triplet : string
}.

(** [anod_instance]: [build_space.build_dir], [build_space.src_dir], [jobs]
    and [env]. *)
Record Anod : Type := {
  build_space_build_dir : string;
  build_space_src_dir : string;
  anod_jobs : Z;
  anod_env : Env
}.

(** A call of [anod_instance.shell]. *)
Inductive invocation : Type :=
| Shell (args : list object) (kwargs : gmap string object).

(** [type(v).__name__]. *)
Definition type_name (v : object) : string :=
  match v with
  | PyNone => "NoneType"
  | PyBool _ => "bool"
  | PyInt _ => "int"
  | PyStr _ => "str"
  | PyList _ => "list"
  | PyDict _ => "dict"
  end.

(** The characters of a string, each as a string: what iterating over a
    string gives. *)
Fixpoint characters (s : string) : list string :=
  match s with
  | EmptyString => []
  | String c rest => String c EmptyString :: characters rest
  end.

Section Calls.
(** The keys of a dictionary in the order in which iterating over it
    gives them: some order of its keys. *)
Variable keys_of : forall A : Type, gmap string A -> list string.
Hypothesis keys_of_spec : forall A (d : gmap string A), keys_of A d ≡ₚ (map_to_list d).*1.

(** [anod_instance.shell(...)], when it is reached. *)
Variable shell : list object -> gmap string object -> exn + object.

(** [list(v)]: the items iterating over a value gives. *)
Definition iterate (v : object) : exn + list object :=
  match v with
  | PyStr s => inr (PyStr <$> characters s)
  | PyList items => inr items
  | PyDict items => inr (PyStr <$> keys_of object items)
  | _ => inl (TypeError ("'" +:+ type_name v +:+ "' object is not iterable"))
  end.

(** [a, b = v]. *)
Definition unpack_two (v : object) : exn + object * object :=
  match iterate v with
  | inl e => inl e
  | inr [] => inl (ValueError "need more than 0 values to unpack")
  | inr [_] => inl (ValueError "need more than 1 value to unpack")
  | inr [a; b] => inr (a, b)
  | inr _ => inl (ValueError "too many values to unpack")
  end.

(** [self.anod_instance.shell( *cmd, **options)]: the value after the
    two stars must be a mapping and the value after the star a sequence,
    or the call raises before [shell] is entered. *)
Definition call_shell (cmd options : object) : list invocation * (exn + object) :=
  match options with
  | PyDict kwargs =>
      match iterate cmd with
      | inl _ =>
          ([], inl (TypeError ("shell() argument after * must be a sequence, not "
                               +:+ type_name cmd)))
      | inr args => ([Shell args kwargs], shell args kwargs)
      end
  | _ =>
      ([], inl (TypeError ("shell() argument after ** must be a mapping, not "
                           +:+ type_name options)))
  end.

(** Lines 85-87 and 233-234: [cmd, options = self.cmdline(...)] and the
    call of [shell]. *)
Definition unpack_and_call (cmdline : exn + object) : list invocation * (exn + object) :=
  match cmdline with
  | inl e => ([], inl e)
  | inr d =>
      match unpack_two d with
      | inl e => ([], inl e)
      | inr (cmd, options) => call_shell cmd options
      end
  end.

(** Unpacking a dictionary of two keys binds the two names to the keys,
    which are strings: the call of [shell] is refused. *)
Lemma unpack_and_call_two_keys k1 v1 k2 v2 :
  k1 <> k2 ->
  unpack_and_call (inr (PyDict {[ k1 := v1; k2 := v2 ]}))
    = ([], inl (TypeError "shell() argument after ** must be a mapping, not str")).
Proof.
  intros Hne. unfold unpack_and_call, unpack_two, iterate.
  pose proof (keys_of_spec object {[ k1 := v1; k2 := v2 ]}) as Hkeys.
  assert (Hlen : length (keys_of object {[ k1 := v1; k2 := v2 ]}) = 2%nat).
  { rewrite Hkeys, length_fmap, length_map_to_list.
    rewrite map_size_insert_None; [by rewrite map_size_singleton|].
    by rewrite lookup_singleton_ne. }
  destruct (keys_of object {[ k1 := v1; k2 := v2 ]}) as [|a [|b [|c keys]]];
    try discriminate.
  reflexivity.
Qed.

End Calls.

(** *** Make *)

Module Make.

(** A make target: a name or a list of names. *)
Inductive target : Type :=
| Name (name : string)
| Names (names : list string).

(** The value given for a make variable: a string or a list of strings. *)
Inductive value : Type :=
| Text (text : string)
| Items (items : list string).

Record t : Type := {
  anod_instance : Anod;
  exec_dir : string;
  makefile : option string;
  jobs : Z;
  var_list : gmap string string;
  default_target : option target
}.

(** Lines 23-46. *)
Definition init (anod_instance : Anod) (makefile exec_dir : option string)
    (jobs : option Z) : t :=
  {| anod_instance := anod_instance;
     exec_dir := match exec_dir with
                 | None => build_space_build_dir anod_instance
                 | Some d => d
                 end;
     makefile := makefile;
     jobs := match jobs with
             | None => anod_jobs anod_instance
             | Some j => j
             end;
     var_list := ∅;
     default_target := None |}.

(** What is stored for a variable, lines 58-62. *)
Definition stored (v : value) : string :=
  match v with
  | Text text => text
  | Items items => String.concat " " items
  end.

(** Lines 48-62. *)
Definition set_var (self : t) (name : string) (v : value) : t :=
  {| anod_instance := anod_instance self;
     exec_dir := exec_dir self;
     makefile := makefile self;
     jobs := jobs self;
     var_list := <[name := stored v]> (var_list self);
     default_target := default_target self |}.

(** Lines 64-71. *)
Definition set_default_target (self : t) (tgt : target) : t :=
  {| anod_instance := anod_instance self;
     exec_dir := exec_dir self;
     makefile := makefile self;
     jobs := jobs self;
     var_list := var_list self;
     default_target := Some tgt |}.

Section Methods.
Variable keys_of : forall A : Type, gmap string A -> list string.
Hypothesis keys_of_spec : forall A (d : gmap string A), keys_of A d ≡ₚ (map_to_list d).*1.
Variable shell : list object -> gmap string object -> exn + object.
(** [e3.os.fs.unixpath]. *)
Variable unixpath : string -> string.
(** [anod_instance.parse_command]: the command line it returns, or the
    message of the exception it raises. *)
Variable parse_command : Anod -> list string -> string + list string.

(** Lines 106-112: the arguments before the variables. *)
Definition head_args (self : t) (jobs_arg : option Z) : list string :=
  ["make"]
    ++ match makefile self with
       | Some f => ["-f"; unixpath f]
       | None => []
       end
    ++ ["-j"; match jobs_arg with
              | Some j => pretty j
              | None => pretty (jobs self)
              end].

(** Lines 114-115: one argument for each variable, in the order of the
    dictionary. *)
Definition var_args (self : t) : list string :=
  (fun key => key +:+ "=" +:+ (var_list self !!! key)) <$> keys_of string (var_list self).

(** Lines 117-124: the target given, or the default one. *)
Definition target_args (self : t) (tgt : option target) : list string :=
  let tgt := match tgt with
             | None => default_target self
             | Some _ => tgt
             end in
  match tgt with
  | None => []
  | Some (Names names) => names
  | Some (Name name) => [name]
  end.

(** Lines 106-124: [cmd_arg_list]. *)
Definition cmd_arg_list (self : t) (tgt : option target) (jobs_arg : option Z)
  : list string :=
  head_args self jobs_arg ++ var_args self ++ target_args self tgt.

(** Lines 126-128: [options]; an empty [exec_dir] counts as none. *)
Definition options (self : t) (exec_dir_arg : option string) (timeout : option Z)
  : gmap string object :=
  {[ "cwd" := PyStr (match exec_dir_arg with
                     | None | Some EmptyString => exec_dir self
                     | Some d => d
                     end);
     "timeout" := match timeout with
                  | None => PyNone
                  | Some seconds => PyInt seconds
                  end ]}.

(** Lines 89-131. *)
Definition cmdline (self : t) (tgt : option target) (jobs_arg : option Z)
    (exec_dir_arg : option string) (timeout : option Z) : exn + object :=
  match parse_command (anod_instance self) (cmd_arg_list self tgt jobs_arg) with
  | inl message => inl (CommandError message)
  | inr cmd =>
      inr (PyDict {[ "cmd" := PyList (PyStr <$> cmd);
                     "options" := PyDict (options self exec_dir_arg timeout) ]})
  end.

(** Lines 73-87: [__call__]. *)
Definition call (self : t) (tgt : option target) (jobs_arg : option Z)
    (exec_dir_arg : option string) (timeout : option Z)
  : list invocation * (exn + object) :=
  unpack_and_call keys_of shell (cmdline self tgt jobs_arg exec_dir_arg timeout).

(** The arguments for the variables are those of the dictionary, one for
    each key, in some order. *)
Lemma var_args_spec self :
  var_args self ≡ₚ (fun kv => kv.1 +:+ "=" +:+ kv.2) <$> map_to_list (var_list self).
Proof.
  unfold var_args. rewrite (keys_of_spec string (var_list self)).
  rewrite <- list_fmap_compose.
  erewrite Forall_fmap_ext_1; [reflexivity|].
  apply Forall_forall. intros [key text] Hin%elem_of_map_to_list. simpl.
  by rewrite (lookup_total_correct _ _ _ Hin).
Qed.

(** After [set_var name v] the command line has one argument for [name],
    with the value just given (a list joined with spaces), whatever was
    set for [name] before; the arguments of the other variables, the
    options before them and the targets after them are as they were. *)
Theorem set_var_last_value_wins self name v tgt jobs_arg :
  exists vars,
    cmd_arg_list (set_var self name v) tgt jobs_arg
      = head_args self jobs_arg ++ vars ++ target_args self tgt /\
    vars ≡ₚ (name +:+ "=" +:+ stored v)
             :: ((fun kv => kv.1 +:+ "=" +:+ kv.2)
                   <$> map_to_list (delete name (var_list self))).
Proof.
  exists (var_args (set_var self name v)). split; [reflexivity|].
  rewrite var_args_spec. cbn [var_list set_var].
  rewrite <- insert_delete_eq.
  rewrite map_to_list_insert by apply lookup_delete_eq. reflexivity.
Qed.

(** [__call__] never runs make: when [cmdline] returns, its dictionary is
    unpacked into its two keys, and the call of [shell] is refused with
    [TypeError] before [shell] is entered; when [parse_command] raises,
    its exception ends the call. *)
Theorem make_call_never_runs_make self tgt jobs_arg exec_dir_arg timeout :
  fst (call self tgt jobs_arg exec_dir_arg timeout) = [] /\
  exists e, snd (call self tgt jobs_arg exec_dir_arg timeout) = inl e /\
    (forall cmd,
       parse_command (anod_instance self) (cmd_arg_list self tgt jobs_arg) = inr cmd ->
       e = TypeError "shell() argument after ** must be a mapping, not str").
Proof.
  unfold call, cmdline.
  destruct (parse_command (anod_instance self) (cmd_arg_list self tgt jobs_arg))
    as [message|cmd].
  - split; [reflexivity|]. eexists. split; [reflexivity|]. discriminate.
  - rewrite (unpack_and_call_two_keys keys_of keys_of_spec); [|done].
    split; [reflexivity|]. eexists. split; reflexivity.
Qed.

End Methods.
End Make.

(** *** Configure *)

Module Configure.

Record t : Type := {
  anod_instance : Anod;
  src_dir : string;
  exec_dir : string;
  args : list string;
  target : option string;
  host : option string;
  build : option string;
  env : gmap string string
}.

(** Lines 137-178. *)
Definition init (anod_instance : Anod) (src_dir exec_dir : option string)
    (auto_target : bool) : t :=
  let e := anod_env anod_instance in
  let '(target, host, build) :=
    if auto_target then
      if is_canadian e
      then (Some (target_triplet e), Some (host_triplet e), Some (build_triplet e))
      else if is_cross e
      then (Some (target_triplet e), None, Some (build_triplet e))
      else (None, None, Some (target_triplet e))
    else (None, None, None) in
  {| anod_instance := anod_instance;
     src_dir := match src_dir with
                | None => build_space_src_dir anod_instance
                | Some d => d
                end;
     exec_dir := match exec_dir with
                 | None => build_space_build_dir anod_instance
                 | Some d => d
                 end;
     args := [];
     target := target;
     host := host;
     build := build;
     env := ∅ |}.

(** Lines 180-186. *)
Definition add (self : t) (new_args : list string) : t :=
  {| anod_instance := anod_instance self;
     src_dir := src_dir self;
     exec_dir := exec_dir self;
     args := args self ++ new_args;
     target := target self;
     host := host self;
     build := build self;
     env := env self |}.

(** Lines 188-196. *)
Definition add_env (self : t) (key value : string) : t :=
  {| anod_instance := anod_instance self;
     src_dir := src_dir self;
     exec_dir := exec_dir self;
     args := args self;
     target := target self;
     host := host self;
     build := build self;
     env := <[key := value]> (env self) |}.

(** A call of one of the two methods that prepare the command. *)
Inductive step : Type :=
| Add (new_args : list string)
| AddEnv (key value : string).

Definition apply_step (self : t) (s : step) : t :=
  match s with
  | Add new_args => add self new_args
  | AddEnv key value => add_env self key value
  end.

(** The object after a sequence of calls. *)
Definition after (self : t) (steps : list step) : t := foldl apply_step self steps.

Section Methods.
Variable keys_of : forall A : Type, gmap string A -> list string.
Hypothesis keys_of_spec : forall A (d : gmap string A), keys_of A d ≡ₚ (map_to_list d).*1.
Variable shell : list object -> gmap string object -> exn + object.
(** [e3.os.fs.unixpath] and [os.path.relpath]. *)
Variable unixpath : string -> string.
Variable relpath : string -> string -> string.
(** [os.environ]. *)
Variable environ : gmap string string.
Variable parse_command : Anod -> list string -> string + list string.

(** Lines 209-223: [cmd]. *)
Definition cmd_list (self : t) : list string :=
  match environ !! "CONFIG_SHELL" with
  | Some config_shell => [config_shell]
  | None => []
  end
    ++ [unixpath (relpath (os_path_join (src_dir self) "configure") (exec_dir self))]
    ++ args self
    ++ match target self with
       | Some triplet => ["--target=" +:+ triplet]
       | None => []
       end
    ++ match host self with
       | Some triplet => ["--host=" +:+ triplet]
       | None => []
       end
    ++ match build self with
       | Some triplet => ["--build=" +:+ triplet]
       | None => []
       end.

(** Lines 225-227: [cmd_options]. *)
Definition cmd_options (self : t) : gmap string object :=
  {[ "cwd" := PyStr (exec_dir self);
     "ignore_environ" := PyBool false;
     "env" := PyDict (PyStr <$> env self) ]}.

(** Lines 198-230. *)
Definition cmdline (self : t) : exn + object :=
  match parse_command (anod_instance self) (cmd_list self) with
  | inl message => inl (CommandError message)
  | inr cmd =>
      inr (PyDict {[ "cmd" := PyList (PyStr <$> cmd);
                     "options" := PyDict (cmd_options self) ]})
  end.

(** Lines 232-234: [__call__]. *)
Definition call (self : t) : list invocation * (exn + object) :=
  unpack_and_call keys_of shell (cmdline self).

(** The options given by the [add] calls of a sequence, in order. *)
Definition added (steps : list step) : list string :=
  steps ≫= (fun s => match s with
                     | Add new_args => new_args
                     | AddEnv _ _ => []
                     end).

(** No [add_env] for [key] among the calls. *)
Definition unset (key : string) (steps : list step) : Prop :=
  Forall (fun s => match s with
                   | AddEnv key' _ => key' <> key
                   | Add _ => True
                   end) steps.

Lemma after_frame self steps :
  anod_instance (after self steps) = anod_instance self /\
  src_dir (after self steps) = src_dir self /\
  exec_dir (after self steps) = exec_dir self /\
  target (after self steps) = target self /\
  host (after self steps) = host self /\
  build (after self steps) = build self /\
  args (after self steps) = args self ++ added steps.
Proof.
  revert self. induction steps as [|s steps IH]; intros self.
  - unfold after, added. simpl. by rewrite app_nil_r.
  - unfold after in *. cbn [foldl].
    destruct (IH (apply_step self s)) as (-> & -> & -> & -> & -> & -> & ->).
    destruct s; cbn; repeat split; try reflexivity.
    by rewrite <- app_assoc.
Qed.

Lemma after_env_unset self steps key :
  unset key steps -> env (after self steps) !! key = env self !! key.
Proof.
  revert self. induction steps as [|s steps IH]; intros self Hunset; [reflexivity|].
  apply Forall_cons in Hunset as [Hs Hsteps]. unfold after in *. cbn [foldl].
  rewrite (IH _ Hsteps). destruct s as [new_args|key' value]; [reflexivity|].
  cbn. by rewrite lookup_insert_ne.
Qed.

(** The command line of a new object after any sequence of [add] and
    [add_env] calls: the shell of CONFIG_SHELL if that variable is set,
    the configure script of the source directory relative to the
    directory of the call, the options in the order they were added, and
    then the triplets: target, host and build for a canadian environment,
    target and build for another cross environment, and for a native one
    only the build, which is given the target triplet; none without
    [auto_target].  The directories default to those of the build space,
    and each environment variable has the last value set for it. *)
Theorem configure_command_line anod src exec auto_target steps :
  let self := after (init anod src exec auto_target) steps in
  let e := anod_env anod in
  cmd_list self
    = match environ !! "CONFIG_SHELL" with
      | Some config_shell => [config_shell]
      | None => []
      end
      ++ [unixpath (relpath (os_path_join (default (build_space_src_dir anod) src)
                                          "configure")
                            (default (build_space_build_dir anod) exec))]
      ++ added steps
      ++ (if negb auto_target then []
          else if is_canadian e
          then ["--target=" +:+ target_triplet e; "--host=" +:+ host_triplet e;
                "--build=" +:+ build_triplet e]
          else if is_cross e
          then ["--target=" +:+ target_triplet e; "--build=" +:+ build_triplet e]
          else ["--build=" +:+ target_triplet e]) /\
  (forall key, unset key steps -> env self !! key = None) /\
  (forall before key value later,
     steps = before ++ AddEnv key value :: later -> unset key later ->
     env self !! key = Some value).
Proof.
  intros self e. subst self e. split; [|split].
  - unfold cmd_list.
    destruct (after_frame (init anod src exec auto_target) steps)
      as (_ & -> & -> & -> & -> & -> & ->).
    unfold init. destruct auto_target; [|by destruct src, exec].
    destruct (is_canadian (anod_env anod)); [by destruct src, exec|].
    by destruct (is_cross (anod_env anod)), src, exec.
  - intros key Hunset. rewrite (after_env_unset _ _ _ Hunset).
    unfold init. destruct auto_target; [|reflexivity].
    destruct (is_canadian (anod_env anod)); [reflexivity|].
    by destruct (is_cross (anod_env anod)).
  - intros before key value later -> Hunset. unfold after.
    rewrite foldl_app. cbn [foldl]. fold (after (apply_step
      (foldl apply_step (init anod src exec auto_target) before) (AddEnv key value)) later).
    rewrite (after_env_unset _ _ _ Hunset). cbn. by rewrite lookup_insert_eq.
Qed.

(** [__call__] never runs configure: as for [Make], the dictionary of
    [cmdline] is unpacked into its two keys and the call of [shell] is
    refused with [TypeError]. *)
Theorem configure_call_never_runs_configure self :
  fst (call self) = [] /\
  exists e, snd (call self) = inl e /\
    (forall cmd,
       parse_command (anod_instance self) (cmd_list self) = inr cmd ->
       e = TypeError "shell() argument after ** must be a mapping, not str").
Proof.
  unfold call, cmdline.
  destruct (parse_command (anod_instance self) (cmd_list self)) as [message|cmd].
  - split; [reflexivity|]. eexists. split; [reflexivity|]. discriminate.
  - rewrite (unpack_and_call_two_keys keys_of keys_of_spec); [|done].
    split; [reflexivity|]. eexists. split; reflexivity.
Qed.

End Methods.
End Configure.
End Tools.

(** ** A concrete world for the wrappers *)

Module ToolsDemo.
Import Tools.

(** Dictionaries are read in the order of their list of items. *)
Definition keys_of (A : Type) (d : gmap string A) : list string := (map_to_list d).*1.

Lemma keys_of_spec A (d : gmap string A) : keys_of A d ≡ₚ (map_to_list d).*1.
Proof. reflexivity. Qed.

Definition shell (args : list object) (kwargs : gmap string object) : exn + object :=
  inr PyNone.

Definition unixpath (path : string) : string := path.

Definition relpath (path start : string) : string := "../src/configure".

Definition parse_command (anod : Anod) (command : list string) : string + list string :=
  inr command.

Definition native : Env :=
  {| is_canadian := false; is_cross := false;
     target_triplet := "x86_64-pc-linux-gnu";
     host_triplet := "x86_64-pc-linux-gnu";
     build_triplet := "x86_64-pc-linux-gnu" |}.

Definition anod : Anod :=
  {| build_space_build_dir := "/sandbox/build";
     build_space_src_dir := "/sandbox/src";
     anod_jobs := 4;
     anod_env := native |}.

(** [Make(anod, makefile='Makefile.in')] after [set_var('CFLAGS', '-O0')]. *)
Definition make : Make.t :=
  Make.set_var (Make.init anod (Some "Makefile.in") None None) "CFLAGS" (Make.Text "-O0").

Example make_command_line :
  Make.cmd_arg_list keys_of unixpath
    (Make.set_var make "CFLAGS" (Make.Items ["-O2"; "-g"])) (Some (Make.Name "all")) None
  = ["make"; "-f"; "Makefile.in"; "-j"; "4"; "CFLAGS=-O2 -g"; "all"].
Proof. vm_compute. reflexivity. Qed.

Lemma set_var_witness :
  (forall A (d : gmap string A), keys_of A d ≡ₚ (map_to_list d).*1) /\
  exists vars,
    Make.cmd_arg_list keys_of unixpath
      (Make.set_var make "CFLAGS" (Make.Items ["-O2"; "-g"])) (Some (Make.Name "all")) None
      = Make.head_args unixpath make None ++ vars
          ++ Make.target_args make (Some (Make.Name "all")) /\
    vars ≡ₚ ("CFLAGS" +:+ "=" +:+ Make.stored (Make.Items ["-O2"; "-g"]))
             :: ((fun kv => kv.1 +:+ "=" +:+ kv.2)
                   <$> map_to_list (delete "CFLAGS" (Make.var_list make))).
Proof.
  split; [exact keys_of_spec|].
  apply (Make.set_var_last_value_wins keys_of keys_of_spec unixpath make "CFLAGS"
           (Make.Items ["-O2"; "-g"]) (Some (Make.Name "all")) None).
Defined.

Lemma make_call_witness :
  (forall A (d : gmap string A), keys_of A d ≡ₚ (map_to_list d).*1) /\
  fst (Make.call keys_of shell unixpath parse_command make None None None None) = [] /\
  exists e,
    snd (Make.call keys_of shell unixpath parse_command make None None None None) = inl e /\
    (forall cmd,
       parse_command (Make.anod_instance make)
         (Make.cmd_arg_list keys_of unixpath make None None) = inr cmd ->
       e = TypeError "shell() argument after ** must be a mapping, not str").
Proof.
  split; [exact keys_of_spec|].
  apply (Make.make_call_never_runs_make keys_of keys_of_spec shell unixpath parse_command
           make None None None None).
Defined.

(** [Configure(anod)] for a native build. *)
Definition configure : Configure.t := Configure.init anod None None true.

Example configure_native_command_line :
  Configure.cmd_list unixpath relpath {[ "CONFIG_SHELL" := "/bin/bash" ]}
    (Configure.after configure
       [Configure.Add ["--prefix=/usr"]; Configure.AddEnv "CC" "gcc";
        Configure.Add ["--disable-nls"; "--with-gmp"]])
  = ["/bin/bash"; "../src/configure"; "--prefix=/usr"; "--disable-nls"; "--with-gmp";
     "--build=x86_64-pc-linux-gnu"].
Proof. vm_compute. reflexivity. Qed.

Lemma configure_call_witness :
  (forall A (d : gmap string A), keys_of A d ≡ₚ (map_to_list d).*1) /\
  fst (Configure.call keys_of shell unixpath relpath ∅ parse_command configure) = [] /\
  exists e,
    snd (Configure.call keys_of shell unixpath relpath ∅ parse_command configure) = inl e /\
    (forall cmd,
       parse_command (Configure.anod_instance configure)
         (Configure.cmd_list unixpath relpath ∅ configure) = inr cmd ->
       e = TypeError "shell() argument after ** must be a mapping, not str").
Proof.
  split; [exact keys_of_spec|].
  apply (Configure.configure_call_never_runs_configure keys_of keys_of_spec shell unixpath
           relpath ∅ parse_command configure).
Defined.

End ToolsDemo.

(** ** The closure resolver

    [e3.python.pypi.PyPIClosure] is not among the sources at hand: the
    resolver is modelled from sections 3 and 4.1 of the specification. *)

Module Resolver.
Local Open Scope nat_scope.

(** *** Data model (specification, section 3) *)

(** Modelled from the spec: a version, as the numbers of its release
    segment, ordered lexicographically ([1.3] is [[1; 3]]). *)
Definition version : Type := list nat.

(** Modelled from the spec: the order of versions that the resolver of
    [PyPIClosure] compares candidates with, [v <= w]. *)
Definition vleb (v w : version) : bool :=
  match trichotomyT lexico v w with
  | inleft _ => true
  | inright _ => false
  end.

(** Modelled from the spec: a Target, a platform tag with an interpreter
    version (major, minor). *)
Definition target : Type := (string * (nat * nat))%type.

(** Modelled from the spec: one bound of a version constraint; a
    constraint is a set of bounds and intersecting two constraints unites
    their bounds. *)
Inductive op : Type := Ge | Gt | Le | Lt | Eq | Ne.

Global Instance op_eq_dec : EqDecision op.
Proof. solve_decision. Defined.

Global Instance op_countable : Countable op.
Proof.
  refine (inj_countable'
            (fun o => match o with
                      | Ge => 0 | Gt => 1 | Le => 2 | Lt => 3 | Eq => 4 | Ne => 5
                      end)
            (fun n => match n with
                      | 0 => Ge | 1 => Gt | 2 => Le | 3 => Lt | 4 => Eq | _ => Ne
                      end) _).
  by intros [].
Defined.

Definition bound : Type := (op * version)%type.

(** Modelled from the spec: whether a version satisfies a bound of a
    Requirement. *)
Definition bound_holds (b : bound) (v : version) : bool :=
  match fst b with
  | Ge => vleb (snd b) v
  | Gt => negb (vleb v (snd b))
  | Le => vleb v (snd b)
  | Lt => negb (vleb (snd b) v)
  | Eq => bool_decide (v = snd b)
  | Ne => negb (bool_decide (v = snd b))
  end.

(** Modelled from the spec: a Requirement, a package name with its bounds
    and, for a dependency of a candidate, the Targets its environment
    marker restricts it to ([None]: every Target). *)
Record requirement : Type := {
  req_name : string;
  req_bounds : list bound;
  req_marker : option (list target)
}.

(** Modelled from the spec: a PackageCandidate, one distributable file of
    a package; [cand_targets = None] is a source-only candidate,
    compatible with every Target. *)
Record candidate : Type := {
  cand_name : string;
  cand_version : version;
  cand_file : string;
  cand_targets : option (list target);
  cand_requires : list requirement
}.

(** Modelled from the spec: Target-applicability of a Requirement
    (environment marker) and compatibility of a candidate file. *)
Definition on_target (marker : option (list target)) (t : target) : bool :=
  match marker with
  | None => true
  | Some ts => bool_decide (t ∈ ts)
  end.

(** Modelled from the spec: the error conditions of section 4.1. *)
Inductive error : Type :=
| InvalidRequirementError (text : string)
| UnsatisfiableConstraintError (pkg : string) (conflicting : list bound)
| CandidateLookupError (pkg : string).

(** Modelled from the spec: the Package Index collaborator of section 6,
    as the table of the candidates it knows and the lookups that fail. *)
Record index : Type := {
  known : list candidate;
  unreachable : string -> target -> bool
}.

(** Modelled from the spec: [query name target] of the Package Index, all
    the candidates known for the name that are compatible with the Target,
    or a lookup failure. *)
Definition query (ix : index) (name : string) (t : target) : error + list candidate :=
  if unreachable ix name t then inl (CandidateLookupError name)
  else inr (filter (fun c => cand_name c = name /\ on_target (cand_targets c) t) (known ix)).

(** Modelled from the spec: the state the resolver instance owns between
    calls, the LocalOverrides by package name and the top-level
    Requirements. *)
Record resolver : Type := {
  overrides : gmap string candidate;
  toplevel : list requirement
}.

(** Modelled from the spec: a fresh [PyPIClosure] instance. *)
Definition new_resolver : resolver := {| overrides := ∅; toplevel := [] |}.

(** Modelled from the spec: [PyPIClosure.add_local_candidate], last write
    wins. *)
Definition add_local_candidate (c : candidate) (r : resolver) : resolver :=
  {| overrides := <[cand_name c := c]> (overrides r); toplevel := toplevel r |}.

Section Resolution.
(** Modelled from the spec: the single parsing function of section 9,
    taken as given: a typed Requirement, or
    nothing for a malformed string. *)
Variable parse : string -> option requirement.
Variable ix : index.

(** Modelled from the spec: [PyPIClosure.add_requirement]. *)
Definition add_requirement (text : string) (r : resolver) : error + resolver :=
  match parse text with
  | None => inl (InvalidRequirementError text)
  | Some q => inr {| overrides := overrides r; toplevel := toplevel r ++ [q] |}
  end.

(** *** Resolution for one Target (specification, section 4.1, steps 1-5) *)

(** Modelled from the spec: the state of a resolution of
    [PyPIClosure.resolve], the names required so far, the bounds collected
    so far (by name), the candidate selected for each resolved name and
    the work-set of pending names. *)
Record state : Type := {
  required : gset string;
  bounds : gset (string * bound);
  selected : gmap string candidate;
  work : list string
}.

(** Modelled from the spec: the bounds collected for [name], as the
    error reports them. *)
Definition bounds_of (bs : gset (string * bound)) (name : string) : list bound :=
  omap (fun nb => if decide (fst nb = name) then Some (snd nb) else None) (elements bs).

(** Modelled from the spec: [v] satisfies the intersection of the
    bounds collected for [name]. *)
Definition admits (bs : gset (string * bound)) (name : string) (v : version) : Prop :=
  set_Forall (fun nb => fst nb = name -> bound_holds (snd nb) v) bs.

(** Modelled from the spec: the work-set of [resolve] is a set, a pending
    name is not added twice. *)
Definition enqueue (name : string) (w : list string) : list string :=
  if decide (name ∈ w) then w else w ++ [name].

(** Modelled from the spec: step 3 of [resolve], for one Requirement: merge its bounds into those of its name,
    and queue the name when it was never required or its bounds changed. *)
Definition require (st : state) (q : requirement) : state :=
  let merged := bounds st ∪ list_to_set ((fun b => (req_name q, b)) <$> req_bounds q) in
  {| required := {[req_name q]} ∪ required st;
     bounds := merged;
     selected := selected st;
     work := if decide (req_name q ∉ required st \/ merged <> bounds st)
             then enqueue (req_name q) (work st) else work st |}.

(** Modelled from the spec: the newest-compatible-wins policy of
    [resolve], the highest version of a list of candidates,
    the earliest of them when several files have it. *)
Fixpoint best (l : list candidate) : option candidate :=
  match l with
  | [] => None
  | c :: l' =>
      match best l' with
      | Some b => if vleb (cand_version b) (cand_version c) then Some c else Some b
      | None => Some c
      end
  end.

(** Modelled from the spec: step 2 of [resolve], the candidates a name
    can be resolved to: its LocalOverride alone when it has one (it is
    preferred to whatever the index holds for the name, which is not
    asked), else the candidates the index knows for the Target. *)
Definition candidates (r : resolver) (t : target) (name : string) : error + list candidate :=
  match overrides r !! name with
  | Some local => inr [local]
  | None => query ix name t
  end.

(** Modelled from the spec: [c] is a candidate that [name] can be
    resolved to on the Target: its LocalOverride when it has one, else a
    candidate of that name that the index knows and that is compatible
    with the Target. *)
Definition candidate_for (r : resolver) (t : target) (name : string) (c : candidate) : Prop :=
  match overrides r !! name with
  | Some local => c = local
  | None => c ∈ known ix /\ cand_name c = name /\ on_target (cand_targets c) t
  end.

(** Modelled from the spec: step 2 of [resolve], the filter: the
    candidates of [name] that satisfy the collected bounds.  By the
    invariant of section 3 a chosen version satisfies every Requirement,
    so the filter applies to a LocalOverride too. *)
Definition admissible (r : resolver) (t : target) (bs : gset (string * bound))
    (name : string) : error + list candidate :=
  match candidates r t name with
  | inl e => inl e
  | inr l => inr (filter (fun c => admits bs name (cand_version c)) l)
  end.

(** Modelled from the spec: steps 2 and 4 of [resolve], the candidate for
    [name]: the newest admitted candidate (the LocalOverride, whatever
    the versions of the index, when the name has one), or
    [UnsatisfiableConstraintError] when the bounds admit none. *)
Definition select (r : resolver) (t : target) (bs : gset (string * bound)) (name : string)
  : error + candidate :=
  match admissible r t bs name with
  | inl e => inl e
  | inr l =>
      match best l with
      | Some c => inr c
      | None => inl (UnsatisfiableConstraintError name (bounds_of bs name))
      end
  end.

(** Modelled from the spec: steps 2 and 3 of [resolve] for the next
    pending name. *)
Definition step (r : resolver) (t : target) (st : state) : error + state :=
  match work st with
  | [] => inr st
  | name :: rest =>
      match select r t (bounds st) name with
      | inl e => inl e
      | inr c =>
          inr (foldl require
                 {| required := required st; bounds := bounds st;
                    selected := <[name := c]> (selected st); work := rest |}
                 (filter (fun q => on_target (req_marker q) t) (cand_requires c)))
      end
  end.

(** Modelled from the spec: step 1 of [resolve], the work-set seeded with
    the top-level Requirements. *)
Definition seed (r : resolver) : state :=
  foldl require {| required := ∅; bounds := ∅; selected := ∅; work := [] |} (toplevel r).

(** Modelled from the spec: steps 2-4 of [resolve] repeated, at most
    [fuel] times; [None] when the work-set is
    not empty by then. *)
Fixpoint run (r : resolver) (t : target) (fuel : nat) (st : state) : option (error + state) :=
  match work st with
  | [] => Some (inr st)
  | _ :: _ =>
      match fuel with
      | 0 => None
      | S fuel' =>
          match step r t st with
          | inl e => Some (inl e)
          | inr st' => run r t fuel' st'
          end
      end
  end.

(** *** [resolve] (specification, section 4.1) *)

(** Modelled from the spec: every Requirement a resolution of
    [PyPIClosure.resolve] can meet, the top-level ones and the
    dependencies of the candidates of the index and of the LocalOverrides. *)
Definition all_requirements (r : resolver) : list requirement :=
  toplevel r ++ (known ix ≫= cand_requires)
    ++ ((snd <$> map_to_list (overrides r)) ≫= cand_requires).

Definition all_names (r : resolver) : gset string :=
  list_to_set (req_name <$> all_requirements r).

Definition all_bounds (r : resolver) : gset (string * bound) :=
  list_to_set (all_requirements r ≫= fun q => (fun b => (req_name q, b)) <$> req_bounds q).

(** Modelled from the spec: the guard of step 5 of [resolve]; a name is
    processed again only when its bounds changed, and bounds
    only grow: this many steps are enough (see [run_terminates]). *)
Definition enough_fuel (r : resolver) : nat :=
  size (all_names r) + size (all_bounds r).

(** Modelled from the spec: the resolution of [resolve] for one Target. *)
Definition resolve_target (r : resolver) (t : target) : option (error + state) :=
  run r t (enough_fuel r) (seed r).

(** Modelled from the spec: [PyPIClosure.resolve], a Closure (for each Target, the
    candidate chosen for each package name) or the first error met; no
    partial Closure. *)
Fixpoint resolve (r : resolver) (targets : list target)
  : option (error + gmap target (gmap string candidate)) :=
  match targets with
  | [] => Some (inr ∅)
  | t :: rest =>
      match resolve_target r t with
      | None => None
      | Some (inl e) => Some (inl e)
      | Some (inr st) =>
          match resolve r rest with
          | None => None
          | Some (inl e) => Some (inl e)
          | Some (inr closure) => Some (inr (<[t := selected st]> closure))
          end
      end
  end.

End Resolution.

(** *** Versions are totally ordered *)

Lemma vleb_spec v w : vleb v w = true <-> lexico v w \/ v = w.
Proof.
  unfold vleb. destruct (trichotomyT lexico v w) as [[Hlt|Heq]|Hgt].
  - split; [by left|reflexivity].
  - split; [by right|reflexivity].
  - split; [discriminate|]. intros [Hlt| ->].
    + destruct (irreflexivity lexico v). by transitivity w.
    + by destruct (irreflexivity lexico w).
Qed.

Lemma vleb_total v w : vleb v w = false -> vleb w v = true.
Proof.
  intros Hvw. apply vleb_spec.
  destruct (trichotomyT lexico v w) as [[Hlt|Heq]|Hgt]; [| |by left].
  - assert (vleb v w = true) by (apply vleb_spec; by left). congruence.
  - assert (vleb v w = true) by (apply vleb_spec; by right). congruence.
Qed.

Lemma vleb_refl v : vleb v v = true.
Proof. apply vleb_spec. by right. Qed.

Lemma vleb_trans u v w : vleb u v = true -> vleb v w = true -> vleb u w = true.
Proof.
  rewrite !vleb_spec. intros [Huv| ->] [Hvw| ->]; auto.
  left. by transitivity v.
Qed.

Lemma vleb_antisym v w : vleb v w = true -> vleb w v = true -> v = w.
Proof.
  rewrite !vleb_spec. intros [Hvw| ->] [Hwv|Heq]; auto.
  destruct (irreflexivity lexico v). by transitivity w.
Qed.

(** *** Newest wins *)

Lemma best_spec l :
  match best l with
  | Some b => b ∈ l /\ forall c, c ∈ l -> vleb (cand_version c) (cand_version b) = true
  | None => l = []
  end.
Proof.
  induction l as [|c l IH]; simpl; [reflexivity|].
  destruct (best l) as [b|].
  - destruct IH as [Hb Hmax].
    destruct (vleb (cand_version b) (cand_version c)) eqn:Hbc.
    + split; [by left|]. intros c' [->|Hc']%elem_of_cons; [apply vleb_refl|].
      eapply vleb_trans; [by apply Hmax|exact Hbc].
    + split; [by right|]. intros c' [->|Hc']%elem_of_cons; [by apply vleb_total|].
      by apply Hmax.
  - subst l. split; [by left|]. intros c' [->|Hc']%elem_of_cons; [apply vleb_refl|].
    by apply elem_of_nil in Hc'.
Qed.

(** The version selected does not depend on the order in which the index
    lists the candidates. *)
Lemma best_version_permutation l1 l2 :
  l1 ≡ₚ l2 -> cand_version <$> best l1 = cand_version <$> best l2.
Proof.
  intros Hperm. pose proof (best_spec l1) as H1. pose proof (best_spec l2) as H2.
  destruct (best l1) as [b1|], (best l2) as [b2|]; simpl.
  - destruct H1 as [Hb1 Hmax1], H2 as [Hb2 Hmax2]. f_equal.
    apply vleb_antisym.
    + apply Hmax2. by rewrite <- Hperm.
    + apply Hmax1. by rewrite Hperm.
  - subst l2. apply Permutation_nil_r in Hperm. subst l1. destruct H1 as [H1 _].
    by apply elem_of_nil in H1.
  - subst l1. apply Permutation_nil_l in Hperm. subst l2. destruct H2 as [H2 _].
    by apply elem_of_nil in H2.
  - reflexivity.
Qed.

(** *** Merging a Requirement *)

Lemma enqueue_length name w : length (enqueue name w) <= S (length w).
Proof. unfold enqueue. case_decide; [lia|]. rewrite length_app. simpl. lia. Qed.

Lemma elem_of_enqueue name w n : n ∈ enqueue name w <-> n ∈ w \/ n = name.
Proof.
  unfold enqueue. case_decide as Hin.
  - split; [by left|]. intros [Hn| ->]; assumption.
  - rewrite elem_of_app, list_elem_of_singleton. reflexivity.
Qed.

Lemma require_work_mono st q n : n ∈ work st -> n ∈ work (require st q).
Proof.
  intros Hn. unfold require. simpl. case_decide; [|assumption].
  apply elem_of_enqueue. by left.
Qed.

Lemma foldl_require_selected qs st : selected (foldl require st qs) = selected st.
Proof. revert st. induction qs as [|q qs IH]; intros st; simpl; [reflexivity|]. by rewrite IH. Qed.

Lemma foldl_require_required_mono qs st : required st ⊆ required (foldl require st qs).
Proof.
  revert st. induction qs as [|q qs IH]; intros st; simpl; [reflexivity|].
  etransitivity; [|apply IH]. simpl. set_solver.
Qed.

Lemma foldl_require_bounds_mono qs st : bounds st ⊆ bounds (foldl require st qs).
Proof.
  revert st. induction qs as [|q qs IH]; intros st; simpl; [reflexivity|].
  etransitivity; [|apply IH]. simpl. set_solver.
Qed.

(** *** Termination *)

Section Termination.
Variable ix : index.
Variable r : resolver.
Variable t : target.

(** The names and bounds of a state are among those the inputs mention. *)
Definition within (st : state) : Prop :=
  required st ⊆ all_names ix r /\ bounds st ⊆ all_bounds ix r.

(** What is left to do: the names and bounds not met yet, and the pending
    names. *)
Definition potential (st : state) : nat :=
  (size (all_names ix r) - size (required st))
  + (size (all_bounds ix r) - size (bounds st))
  + length (work st).

Lemma requirement_within q :
  q ∈ all_requirements ix r ->
  req_name q ∈ all_names ix r /\
  list_to_set ((fun b => (req_name q, b)) <$> req_bounds q) ⊆ all_bounds ix r.
Proof.
  intros Hq. split.
  - apply elem_of_list_to_set, list_elem_of_fmap. eauto.
  - intros nb Hnb. apply elem_of_list_to_set in Hnb.
    apply elem_of_list_to_set, list_elem_of_bind. eauto.
Qed.

Lemma require_potential st q :
  q ∈ all_requirements ix r -> within st ->
  within (require st q) /\ potential (require st q) <= potential st.
Proof.
  intros Hq [Hreq Hbnd]. destruct (requirement_within q Hq) as [Hname Hnew].
  unfold potential, within, require. cbn [required bounds work].
  revert Hnew. generalize (list_to_set ((fun b => (req_name q, b)) <$> req_bounds q)
                            : gset (string * bound)).
  intros added Hnew.
  assert (Hreq' : {[req_name q]} ∪ required st ⊆ all_names ix r).
  { apply union_subseteq. split; [by apply singleton_subseteq_l|assumption]. }
  assert (Hbnd' : bounds st ∪ added ⊆ all_bounds ix r).
  { apply union_subseteq. split; assumption. }
  split; [split; assumption|].
  pose proof (subseteq_size _ _ Hreq') as Hr1.
  pose proof (subseteq_size _ _ Hbnd') as Hb1.
  assert (Hr0 : size (required st) <= size ({[req_name q]} ∪ required st))
    by (apply subseteq_size, union_subseteq_r).
  assert (Hb0 : size (bounds st) <= size (bounds st ∪ added))
    by (apply subseteq_size, union_subseteq_l).
  case_decide as Hcond; [|lia].
  pose proof (enqueue_length (req_name q) (work st)) as Hlen.
  destruct Hcond as [Hfresh|Hchanged].
  - assert (size (required st) < size ({[req_name q]} ∪ required st)).
    { apply subset_size. split; [apply union_subseteq_r|]. intros Hsub.
      apply Hfresh, Hsub, elem_of_union_l, elem_of_singleton. reflexivity. }
    lia.
  - assert (size (bounds st) < size (bounds st ∪ added)).
    { apply subset_size. split; [apply union_subseteq_l|]. intros Hsub. apply Hchanged.
      apply set_eq. intros x. split; [apply Hsub|apply union_subseteq_l]. }
    lia.
Qed.

Lemma foldl_require_potential qs st :
  Forall (fun q => q ∈ all_requirements ix r) qs -> within st ->
  within (foldl require st qs) /\ potential (foldl require st qs) <= potential st.
Proof.
  intros Hqs. revert st. induction Hqs as [|q qs Hq _ IH]; intros st Hst; simpl.
  - split; [assumption|lia].
  - destruct (require_potential st q Hq Hst) as [Hw Hp].
    destruct (IH _ Hw) as [Hw' Hp']. split; [assumption|lia].
Qed.

Lemma candidates_spec name cs :
  candidates ix r t name = inr cs ->
  forall c, c ∈ cs <-> candidate_for ix r t name c.
Proof.
  unfold candidates, candidate_for, query. destruct (overrides r !! name) as [local|].
  - intros [= <-] c. apply list_elem_of_singleton.
  - destruct (unreachable ix name t); [discriminate|]. intros [= <-] c.
    rewrite list_elem_of_filter. tauto.
Qed.

Lemma admissible_spec bs name l :
  admissible ix r t bs name = inr l ->
  forall c, c ∈ l <-> candidate_for ix r t name c /\ admits bs name (cand_version c).
Proof.
  unfold admissible. destruct (candidates ix r t name) as [e|cs] eqn:Hcs; [discriminate|].
  intros [= <-] c. rewrite list_elem_of_filter, (candidates_spec _ _ Hcs). tauto.
Qed.

Lemma select_cases bs name c :
  select ix r t bs name = inr c ->
  exists l, admissible ix r t bs name = inr l /\ best l = Some c.
Proof.
  unfold select. destruct (admissible ix r t bs name) as [e|l]; [discriminate|].
  destruct (best l) as [b|] eqn:Hbest; [|discriminate]. intros [= ->]. eauto.
Qed.

Lemma candidate_for_requires name c :
  candidate_for ix r t name c ->
  Forall (fun q => q ∈ all_requirements ix r) (cand_requires c).
Proof.
  unfold candidate_for. intros Hc. apply Forall_forall. intros q Hq.
  unfold all_requirements. destruct (overrides r !! name) as [local|] eqn:Hlocal.
  - subst c. apply elem_of_app. right. apply elem_of_app. right.
    apply list_elem_of_bind. exists local. split; [exact Hq|].
    apply list_elem_of_fmap. exists (name, local). split; [reflexivity|].
    by apply elem_of_map_to_list.
  - apply elem_of_app. right. apply elem_of_app. left.
    apply list_elem_of_bind. exists c. split; [exact Hq|]. tauto.
Qed.

Lemma selected_requires bs name c :
  select ix r t bs name = inr c ->
  Forall (fun q => q ∈ all_requirements ix r) (cand_requires c).
Proof.
  intros (l & Hadm & Hbest)%select_cases.
  pose proof (best_spec l) as Hspec. rewrite Hbest in Hspec. destruct Hspec as [Hin _].
  apply (admissible_spec _ _ _ Hadm) in Hin as [Hc _]. by apply (candidate_for_requires name).
Qed.

(** Every step brings the resolution closer to its end. *)
Lemma step_potential st st' :
  work st <> [] -> step ix r t st = inr st' -> within st ->
  within st' /\ potential st' < potential st.
Proof.
  intros Hwork Hstep Hst. unfold step in Hstep.
  destruct (work st) as [|name rest] eqn:Hw; [done|].
  destruct (select ix r t (bounds st) name) as [e|c] eqn:Hsel; [discriminate|].
  injection Hstep as <-.
  set (st1 := {| required := required st; bounds := bounds st;
                 selected := <[name := c]> (selected st); work := rest |}).
  assert (Hst1 : within st1) by exact Hst.
  assert (Hp1 : potential st = S (potential st1)).
  { unfold potential. rewrite Hw. simpl. lia. }
  destruct (foldl_require_potential
              (filter (fun q => on_target (req_marker q) t) (cand_requires c)) st1)
    as [Hw' Hp']; [|exact Hst1|].
  - apply Forall_forall. intros q [_ Hq]%list_elem_of_filter.
    pose proof (selected_requires _ _ _ Hsel) as Hall.
    rewrite Forall_forall in Hall. by apply Hall.
  - split; [assumption|lia].
Qed.

(** With fuel for what is left to do, a resolution ends: with a state
    whose work-set is empty, or with an error. *)
Lemma run_terminates fuel st :
  within st -> potential st <= fuel -> is_Some (run ix r t fuel st).
Proof.
  revert st. induction fuel as [|fuel IH]; intros st Hst Hfuel.
  - unfold potential in Hfuel. destruct (work st) as [|n w] eqn:Hw.
    + simpl. rewrite Hw. eauto.
    + simpl in Hfuel. lia.
  - simpl. destruct (work st) as [|n w] eqn:Hw; [eauto|].
    destruct (step ix r t st) as [e|st'] eqn:Hstep; [eauto|].
    destruct (step_potential st st') as [Hst' Hlt]; [by rewrite Hw|assumption..|].
    apply IH; [assumption|lia].
Qed.

(** A resolution only meets names and bounds that the inputs mention. *)
Lemma run_within fuel st st' :
  run ix r t fuel st = Some (inr st') -> within st -> within st'.
Proof.
  revert st. induction fuel as [|fuel IH]; intros st; simpl.
  - destruct (work st); [|discriminate]. by intros [= <-].
  - destruct (work st) as [|n w] eqn:Hw; [by intros [= <-]|].
    destruct (step ix r t st) as [e|st1] eqn:Hstep; [discriminate|].
    intros Hrun Hst.
    destruct (step_potential st st1) as [Hst1 _]; [by rewrite Hw|assumption..|].
    by apply (IH st1).
Qed.

Lemma seed_within : within (seed r) /\ potential (seed r) <= enough_fuel ix r.
Proof.
  unfold seed.
  destruct (foldl_require_potential (toplevel r)
              {| required := ∅; bounds := ∅; selected := ∅; work := [] |}) as [Hw Hp].
  - apply Forall_forall. intros q Hq. unfold all_requirements. apply elem_of_app. by left.
  - split; simpl; set_solver.
  - split; [assumption|]. etransitivity; [exact Hp|].
    unfold potential, enough_fuel. simpl. lia.
Qed.

Lemma resolve_target_terminates : is_Some (resolve_target ix r t).
Proof. destruct seed_within. by apply run_terminates. Qed.

End Termination.

(** *** What a resolution maintains *)

Section Invariants.
Variable ix : index.
Variable r : resolver.
Variable t : target.

(** Bounds on another name do not change what a name admits. *)
Lemma admissible_other bs name other bl :
  other <> name ->
  admissible ix r t (bs ∪ list_to_set ((fun b => (other, b)) <$> bl)) name =
    admissible ix r t bs name.
Proof.
  intros Hne. unfold admissible. destruct (candidates ix r t name) as [e|l]; [reflexivity|].
  f_equal. apply list_filter_iff. intros c. unfold admits, set_Forall. split.
  - intros Hall nb Hnb. apply Hall. by apply elem_of_union_l.
  - intros Hall nb [Hnb|Hnb]%elem_of_union; [by apply Hall|].
    apply elem_of_list_to_set, list_elem_of_fmap in Hnb as (b & -> & _).
    simpl. intros Hname. by destruct Hne.
Qed.

(** Every required name is pending or resolved; a resolved name is
    pending again or has the newest of its candidates that its bounds
    admit. *)
Record chosen_well (st : state) : Prop := {
  cw_required : forall name,
    name ∈ required st -> name ∈ work st \/ is_Some (selected st !! name);
  cw_selected : forall name c,
    selected st !! name = Some c ->
    name ∈ work st \/
    exists l, admissible ix r t (bounds st) name = inr l /\ best l = Some c
}.

(** Only required names are pending or resolved. *)
Definition needed (st : state) : Prop :=
  (forall name, name ∈ work st -> name ∈ required st) /\
  (forall name, is_Some (selected st !! name) -> name ∈ required st).

(** What the chosen candidates require on this Target is required and
    bounded. *)
Definition closed (st : state) : Prop :=
  forall name c q,
    selected st !! name = Some c ->
    q ∈ cand_requires c -> on_target (req_marker q) t ->
    req_name q ∈ required st /\
    forall b, b ∈ req_bounds q -> (req_name q, b) ∈ bounds st.

Lemma require_chosen_well st q : chosen_well st -> chosen_well (require st q).
Proof.
  intros [Hreq Hsel]. split.
  - intros name [Hname|Hname]%elem_of_union.
    + apply elem_of_singleton in Hname as ->.
      destruct (decide (req_name q ∈ required st)) as [Hold|Hfresh].
      * destruct (Hreq _ Hold) as [Hw|Hs]; [left; by apply require_work_mono|by right].
      * left. unfold require. cbn [work]. rewrite decide_True by (by left).
        apply elem_of_enqueue. by right.
    + destruct (Hreq _ Hname) as [Hw|Hs]; [left; by apply require_work_mono|by right].
  - intros name c Hc. specialize (Hsel name c Hc).
    destruct Hsel as [Hw|(l & Hadm & Hbest)]; [left; by apply require_work_mono|].
    unfold require. cbn [work bounds].
    set (merged := bounds st ∪ _).
    destruct (decide (merged = bounds st)) as [Hsame|Hchanged].
    { right. exists l. by rewrite Hsame. }
    destruct (decide (req_name q = name)) as [<-|Hother].
    + left. rewrite decide_True by (by right). apply elem_of_enqueue. by right.
    + right. exists l. subst merged. by rewrite admissible_other.
Qed.

Lemma foldl_require_chosen_well qs st :
  chosen_well st -> chosen_well (foldl require st qs).
Proof.
  revert st. induction qs as [|q qs IH]; intros st Hst; simpl; [assumption|].
  by apply IH, require_chosen_well.
Qed.

(** Merging a list of Requirements requires and bounds each of them. *)
Lemma foldl_require_covers qs st q :
  q ∈ qs ->
  req_name q ∈ required (foldl require st qs) /\
  forall b, b ∈ req_bounds q -> (req_name q, b) ∈ bounds (foldl require st qs).
Proof.
  revert st. induction qs as [|q' qs IH]; intros st Hq; [by apply elem_of_nil in Hq|].
  apply elem_of_cons in Hq as [->|Hq]; [|by apply IH].
  simpl. split.
  - apply (foldl_require_required_mono qs). simpl.
    apply elem_of_union_l, elem_of_singleton. reflexivity.
  - intros b Hb. apply (foldl_require_bounds_mono qs). simpl.
    apply elem_of_union_r, elem_of_list_to_set, list_elem_of_fmap. eauto.
Qed.

Lemma seed_chosen_well : chosen_well (seed r).
Proof.
  apply foldl_require_chosen_well. split; simpl.
  - intros name Hname. by apply elem_of_empty in Hname.
  - intros name c Hc. by rewrite lookup_empty in Hc.
Qed.

Lemma seed_closed : closed (seed r).
Proof.
  intros name c q Hc. unfold seed in Hc. rewrite foldl_require_selected in Hc.
  simpl in Hc. by rewrite lookup_empty in Hc.
Qed.

(** A step keeps all of this, and only adds names and bounds. *)
Lemma step_chosen_well st st' :
  step ix r t st = inr st' -> chosen_well st -> closed st ->
  chosen_well st' /\ closed st' /\
  required st ⊆ required st' /\ bounds st ⊆ bounds st'.
Proof.
  unfold step. destruct (work st) as [|name rest] eqn:Hw.
  { intros [= <-]. auto. }
  destruct (select ix r t (bounds st) name) as [e|c] eqn:Hsel; [discriminate|].
  intros [= <-] [Hreq Hsel'] Hclosed.
  set (qs := filter (fun q => on_target (req_marker q) t) (cand_requires c)).
  set (st1 := {| required := required st; bounds := bounds st;
                 selected := <[name := c]> (selected st); work := rest |}).
  assert (Hst1 : chosen_well st1).
  { split; simpl.
    - intros n Hn. destruct (decide (n = name)) as [->|Hne].
      + right. rewrite lookup_insert_eq. eauto.
      + rewrite lookup_insert_ne by done.
        destruct (Hreq n Hn) as [Hin|Hs]; [|by right].
        rewrite Hw in Hin. apply elem_of_cons in Hin as [->|Hin]; [done|by left].
    - intros n c' Hc'. destruct (decide (n = name)) as [->|Hne].
      + rewrite lookup_insert_eq in Hc'. injection Hc' as <-.
        right. by apply select_cases.
      + rewrite lookup_insert_ne in Hc' by done. specialize (Hsel' n c' Hc').
        destruct Hsel' as [Hin|Hbest]; [|by right].
        rewrite Hw in Hin. apply elem_of_cons in Hin as [->|Hin]; [done|by left]. }
  split; [by apply foldl_require_chosen_well|].
  split; [|split; [apply (foldl_require_required_mono qs st1)
                  |apply (foldl_require_bounds_mono qs st1)]].
  intros n c' q Hc' Hq Hon. rewrite foldl_require_selected in Hc'. simpl in Hc'.
  destruct (decide (n = name)) as [->|Hne].
  - rewrite lookup_insert_eq in Hc'. injection Hc' as <-.
    apply foldl_require_covers. subst qs. by apply list_elem_of_filter.
  - rewrite lookup_insert_ne in Hc' by done.
    destruct (Hclosed n c' q Hc' Hq Hon) as [Hn Hb]. split.
    + by apply (foldl_require_required_mono qs st1).
    + intros b Hin. apply (foldl_require_bounds_mono qs st1). by apply Hb.
Qed.

Lemma require_needed st q : needed st -> needed (require st q).
Proof.
  intros [Hwork Hsel]. unfold needed, require. cbn [required work selected]. split.
  - intros name Hname.
    assert (Hcases : name ∈ work st \/ name = req_name q).
    { case_decide; [by apply elem_of_enqueue|by left]. }
    destruct Hcases as [Hin| ->].
    + apply elem_of_union_r. by apply Hwork.
    + apply elem_of_union_l, elem_of_singleton. reflexivity.
  - intros name Hname. apply elem_of_union_r. by apply Hsel.
Qed.

Lemma foldl_require_needed qs st : needed st -> needed (foldl require st qs).
Proof.
  revert st. induction qs as [|q qs IH]; intros st Hst; simpl; [assumption|].
  by apply IH, require_needed.
Qed.

Lemma seed_needed : needed (seed r).
Proof.
  apply foldl_require_needed. split; simpl.
  - intros name Hname. by apply elem_of_nil in Hname.
  - intros name [c Hc]. by rewrite lookup_empty in Hc.
Qed.

Lemma step_needed st st' : step ix r t st = inr st' -> needed st -> needed st'.
Proof.
  unfold step. destruct (work st) as [|name rest] eqn:Hw; [by intros [= <-]|].
  destruct (select ix r t (bounds st) name) as [e|c]; [discriminate|].
  intros [= <-] [Hwork Hsel]. apply foldl_require_needed. split; simpl.
  - intros n Hn. apply Hwork. rewrite Hw. by right.
  - intros n Hn. destruct (decide (n = name)) as [->|Hne].
    + apply Hwork. rewrite Hw. by left.
    + rewrite lookup_insert_ne in Hn by done. by apply Hsel.
Qed.

Lemma run_needed fuel st st' :
  run ix r t fuel st = Some (inr st') -> needed st -> needed st'.
Proof.
  revert st. induction fuel as [|fuel IH]; intros st; simpl.
  - destruct (work st); [|discriminate]. by intros [= <-].
  - destruct (work st) eqn:Hw; [by intros [= <-]|].
    destruct (step ix r t st) as [e|st1] eqn:Hstep; [discriminate|].
    intros Hrun Hst. apply (IH st1 Hrun). by apply (step_needed st).
Qed.

(** A resolution that ends without error ends with an empty work-set and
    has kept all of this. *)
Lemma run_chosen_well fuel st st' :
  run ix r t fuel st = Some (inr st') -> chosen_well st -> closed st ->
  work st' = [] /\ chosen_well st' /\ closed st' /\
  required st ⊆ required st' /\ bounds st ⊆ bounds st'.
Proof.
  revert st. induction fuel as [|fuel IH]; intros st; simpl.
  - destruct (work st) eqn:Hw; [|discriminate]. intros [= <-]. auto.
  - destruct (work st) eqn:Hw; [intros [= <-]; auto|].
    destruct (step ix r t st) as [e|st1] eqn:Hstep; [discriminate|].
    intros Hrun Hcw Hcl.
    destruct (step_chosen_well _ _ Hstep Hcw Hcl) as (Hcw1 & Hcl1 & Hr1 & Hb1).
    destruct (IH _ Hrun Hcw1 Hcl1) as (Hw' & Hcw' & Hcl' & Hr' & Hb').
    split; [assumption|]. split; [assumption|]. split; [assumption|].
    split; by etransitivity.
Qed.

End Invariants.

(** [resolve] always answers: a Closure or an error. *)
Lemma resolve_terminates ix r targets : is_Some (resolve ix r targets).
Proof.
  induction targets as [|t rest IH]; simpl; [eauto|].
  destruct (resolve_target_terminates ix r t) as [[e|st] ->]; [eauto|].
  destruct IH as [[e|closure] ->]; eauto.
Qed.

(** *** What a Closure holds *)

(** Modelled from the spec: the bounds of the top-level Requirements,
    intersected by name (step 1 of [resolve]). *)
Definition toplevel_bounds (r : resolver) : gset (string * bound) := bounds (seed r).

Lemma toplevel_bounds_spec r q b :
  q ∈ toplevel r -> b ∈ req_bounds q -> (req_name q, b) ∈ toplevel_bounds r.
Proof. intros Hq Hb. by apply (foldl_require_covers (toplevel r)). Qed.

Lemma resolve_target_sound ix r t st :
  resolve_target ix r t = Some (inr st) ->
  work st = [] /\ chosen_well ix r t st /\ closed t st /\
  required (seed r) ⊆ required st /\ toplevel_bounds r ⊆ bounds st.
Proof.
  intros Hrun. eapply run_chosen_well; [exact Hrun|apply seed_chosen_well|apply seed_closed].
Qed.

Lemma resolve_lookup ix r targets closure :
  resolve ix r targets = Some (inr closure) ->
  (forall t, t ∈ targets -> is_Some (closure !! t)) /\
  (forall t chosen, closure !! t = Some chosen ->
     t ∈ targets /\
     exists st, resolve_target ix r t = Some (inr st) /\ selected st = chosen).
Proof.
  revert closure. induction targets as [|t0 rest IH]; intros closure; simpl.
  - intros [= <-]. split.
    + intros t Ht. by apply elem_of_nil in Ht.
    + intros t chosen Hc. by rewrite lookup_empty in Hc.
  - destruct (resolve_target ix r t0) as [[e|st]|] eqn:Ht0; try discriminate.
    destruct (resolve ix r rest) as [[e|closure']|]; try discriminate.
    intros [= <-]. destruct (IH closure' eq_refl) as [Hdom Hlook]. split.
    + intros t [->|Ht]%elem_of_cons.
      * rewrite lookup_insert_eq. eauto.
      * destruct (decide (t0 = t)) as [->|Hne]; [rewrite lookup_insert_eq; eauto|].
        rewrite lookup_insert_ne by done. by apply Hdom.
    + intros t chosen. destruct (decide (t0 = t)) as [->|Hne].
      * rewrite lookup_insert_eq. intros [= <-]. split; [by left|eauto].
      * rewrite lookup_insert_ne by done. intros Hc.
        destruct (Hlook _ _ Hc) as [Hin Hst]. split; [by right|exact Hst].
Qed.

Lemma add_local_candidate_registers c r :
  overrides (add_local_candidate c r) !! cand_name c = Some c.
Proof. apply lookup_insert_eq. Qed.

Lemma resolve_target_scope ix r t st :
  resolve_target ix r t = Some (inr st) -> needed st /\ within ix r st.
Proof.
  intros Hrun. split.
  - eapply run_needed; [exact Hrun|apply seed_needed].
  - eapply run_within; [exact Hrun|apply seed_within].
Qed.

(** The bounds reported for a name are the bounds collected for it, and a
    version satisfies their intersection when it satisfies each. *)
Lemma elem_of_bounds_of bs name b : b ∈ bounds_of bs name <-> (name, b) ∈ bs.
Proof.
  unfold bounds_of. rewrite list_elem_of_omap. split.
  - intros ([n b'] & Hin & Hsome). simpl in Hsome.
    case_decide as Hn; [|discriminate]. injection Hsome as ->. subst n.
    by apply elem_of_elements.
  - intros Hin. exists (name, b). split; [by apply elem_of_elements|].
    simpl. by rewrite decide_True.
Qed.

Lemma admits_bounds_of bs name v :
  admits bs name v <-> Forall (fun b => bound_holds b v) (bounds_of bs name).
Proof.
  rewrite Forall_forall. unfold admits, set_Forall. split.
  - intros Hall b Hb%elem_of_bounds_of. by apply (Hall (name, b)).
  - intros Hall [n b] Hin Hn. simpl in Hn. subst n. simpl.
    by apply Hall, elem_of_bounds_of.
Qed.

Lemma admits_mono bs bs' name v : bs ⊆ bs' -> admits bs' name v -> admits bs name v.
Proof. intros Hsub Hall nb Hnb. apply Hall. by apply Hsub. Qed.

(** Every bound collected comes from a Requirement of the inputs. *)
Lemma elem_of_all_bounds ix r name b :
  (name, b) ∈ all_bounds ix r <->
  exists q, q ∈ all_requirements ix r /\ req_name q = name /\ b ∈ req_bounds q.
Proof.
  unfold all_bounds. rewrite elem_of_list_to_set, list_elem_of_bind. split.
  - intros (q & (b' & [= -> ->] & Hb)%list_elem_of_fmap & Hq). eauto.
  - intros (q & Hq & <- & Hb). exists q. split; [|exact Hq].
    apply list_elem_of_fmap. eauto.
Qed.

(** C5, amended.  In every Closure that [resolve] returns, for every
    Target of the call: an entry for a package name that has a
    LocalOverride is that local candidate, whatever the index knows for
    the name; the entry is there whenever the name is needed, as a
    top-level Requirement or as a Requirement, applying to the Target, of
    a chosen candidate; and there is no entry for a name that no
    Requirement of the inputs mentions. *)
Theorem local_override_is_selected ix r targets closure name local :
  resolve ix r targets = Some (inr closure) ->
  overrides r !! name = Some local ->
  forall t, t ∈ targets ->
    exists chosen,
      closure !! t = Some chosen /\
      (forall c, chosen !! name = Some c -> c = local) /\
      ((exists q, q ∈ toplevel r /\ req_name q = name) ->
         chosen !! name = Some local) /\
      (forall other c q,
         chosen !! other = Some c -> q ∈ cand_requires c ->
         on_target (req_marker q) t -> req_name q = name ->
         chosen !! name = Some local) /\
      ((forall q, q ∈ all_requirements ix r -> req_name q <> name) ->
         chosen !! name = None).
Proof.
  intros Hres Hlocal t Ht. destruct (resolve_lookup _ _ _ _ Hres) as [Hdom Hlook].
  destruct (Hdom t Ht) as [chosen Hchosen]. exists chosen. split; [exact Hchosen|].
  destruct (Hlook _ _ Hchosen) as (_ & st & Hst & <-).
  destruct (resolve_target_sound _ _ _ _ Hst) as (Hwork & [Hreq Hsel] & Hclosed & Hseed & _).
  destruct (resolve_target_scope _ _ _ _ Hst) as [[_ Hneeded] [Hnames _]].
  assert (Honly : forall c, selected st !! name = Some c -> c = local).
  { intros c Hc. destruct (Hsel name c Hc) as [Hin|(l & Hadm & Hbest)].
    { rewrite Hwork in Hin. by apply elem_of_nil in Hin. }
    pose proof (best_spec l) as Hspec. rewrite Hbest in Hspec. destruct Hspec as [Hcl _].
    apply (admissible_spec _ _ _ _ _ _ Hadm) in Hcl as [Hfor _].
    unfold candidate_for in Hfor. by rewrite Hlocal in Hfor. }
  assert (Hthere : name ∈ required st -> selected st !! name = Some local).
  { intros Hname. destruct (Hreq name Hname) as [Hin|[c Hc]].
    - rewrite Hwork in Hin. by apply elem_of_nil in Hin.
    - by rewrite Hc, (Honly c Hc). }
  split; [exact Honly|]. split; [|split].
  - intros (q & Hq & <-). apply Hthere, Hseed.
    by apply (foldl_require_covers (toplevel r)).
  - intros other c q Hc Hq Hon <-. apply Hthere. by apply (Hclosed other c q).
  - intros Hnone. destruct (selected st !! name) as [c|] eqn:Hc; [|reflexivity].
    exfalso. assert (Hin : name ∈ all_names ix r) by (apply Hnames, Hneeded; eauto).
    apply elem_of_list_to_set, list_elem_of_fmap in Hin as (q & -> & Hq).
    by apply (Hnone q).
Qed.

(** C7.  In a Closure that [resolve] returns, the candidate chosen for a
    package name without LocalOverride is, among the candidates of that
    name that the index knows for the Target and whose version satisfies
    all the bounds that the resolution of that Target has collected for
    the name when it ends, one of the highest version.  The bounds
    collected are those of the state the resolution ends in: they hold
    the bounds of the top-level Requirements and of the Requirements of
    the chosen candidates, and only bounds of Requirements of the inputs;
    for a name that only top-level Requirements mention they are the
    top-level bounds.  The version chosen from a list of candidates does
    not depend on the order of the list. *)
Theorem newest_admitted_version_is_selected ix r targets closure t chosen name c :
  resolve ix r targets = Some (inr closure) ->
  closure !! t = Some chosen ->
  chosen !! name = Some c ->
  overrides r !! name = None ->
  (exists st,
     resolve_target ix r t = Some (inr st) /\ selected st = chosen /\
     (c ∈ known ix /\ cand_name c = name /\ on_target (cand_targets c) t /\
      admits (bounds st) name (cand_version c)) /\
     (forall c', c' ∈ known ix -> cand_name c' = name ->
        on_target (cand_targets c') t -> admits (bounds st) name (cand_version c') ->
        vleb (cand_version c') (cand_version c) = true) /\
     toplevel_bounds r ⊆ bounds st /\
     (forall other c' q b,
        chosen !! other = Some c' -> q ∈ cand_requires c' ->
        on_target (req_marker q) t -> b ∈ req_bounds q ->
        (req_name q, b) ∈ bounds st) /\
     bounds st ⊆ all_bounds ix r /\
     ((forall q, q ∈ all_requirements ix r -> req_name q = name -> q ∈ toplevel r) ->
      forall v, admits (bounds st) name v <-> admits (toplevel_bounds r) name v)) /\
  (forall l1 l2, l1 ≡ₚ l2 -> cand_version <$> best l1 = cand_version <$> best l2).
Proof.
  intros Hres Hchosen Hc Hnone. split; [|apply best_version_permutation].
  destruct (resolve_lookup _ _ _ _ Hres) as [_ Hlook].
  destruct (Hlook _ _ Hchosen) as (_ & st & Hst & <-).
  destruct (resolve_target_sound _ _ _ _ Hst) as (Hwork & [_ Hsel] & Hclosed & _ & Htop).
  destruct (resolve_target_scope _ _ _ _ Hst) as [_ [_ Hbounds]].
  exists st. split; [exact Hst|]. split; [reflexivity|].
  destruct (Hsel name c Hc) as [Hin|(l & Hadm & Hbest)].
  { rewrite Hwork in Hin. by apply elem_of_nil in Hin. }
  pose proof (admissible_spec _ _ _ _ _ _ Hadm) as Hl.
  unfold candidate_for in Hl. rewrite Hnone in Hl.
  pose proof (best_spec l) as Hspec. rewrite Hbest in Hspec. destruct Hspec as [Hcl Hmax].
  split; [apply Hl in Hcl; tauto|].
  split; [intros c' Hk Hn Ht Ha; apply Hmax, Hl; auto|].
  split; [exact Htop|].
  split; [intros other c' q b Hc' Hq Hon Hb; by apply (Hclosed other c' q)|].
  split; [exact Hbounds|].
  intros Honly v. split; [by apply admits_mono|].
  intros Hall [n b] Hin Hn. simpl in Hn. subst n. simpl.
  assert (Hfrom : (name, b) ∈ all_bounds ix r) by (by apply Hbounds).
  apply elem_of_all_bounds in Hfrom as (q & Hq & Hname & Hb).
  apply (Hall (name, b)); [|reflexivity].
  rewrite <- Hname. apply (toplevel_bounds_spec r q); [by apply Honly|exact Hb].
Qed.

(** *** Failures *)

(** Why a step fails: the index lookup for a pending name without
    LocalOverride failed, or the bounds collected for a pending name admit
    none of its candidates. *)
Lemma step_error ix r t st e :
  step ix r t st = inl e ->
  exists name w,
    work st = name :: w /\
    ((e = CandidateLookupError name /\ overrides r !! name = None /\
      unreachable ix name t = true) \/
     (e = UnsatisfiableConstraintError name (bounds_of (bounds st) name) /\
      (is_Some (overrides r !! name) \/ unreachable ix name t = false) /\
      admissible ix r t (bounds st) name = inr [])).
Proof.
  unfold step. destruct (work st) as [|name rest]; [discriminate|].
  destruct (select ix r t (bounds st) name) as [e'|c] eqn:Hsel; [|discriminate].
  intros [= ->]. exists name, rest. split; [reflexivity|].
  unfold select in Hsel.
  destruct (admissible ix r t (bounds st) name) as [e'|l] eqn:Hadm.
  - injection Hsel as ->. left. unfold admissible, candidates, query in Hadm.
    destruct (overrides r !! name); [discriminate|].
    destruct (unreachable ix name t); [by injection Hadm as <-|discriminate].
  - pose proof (best_spec l) as Hspec. destruct (best l); [discriminate|].
    injection Hsel as <-. right. subst l. split; [reflexivity|]. split; [|reflexivity].
    unfold admissible, candidates, query in Hadm.
    destruct (overrides r !! name); [left; eauto|].
    destruct (unreachable ix name t); [discriminate|by right].
Qed.

Lemma run_error ix r t fuel st e :
  run ix r t fuel st = Some (inl e) -> chosen_well ix r t st -> closed t st ->
  within ix r st ->
  exists st', bounds st ⊆ bounds st' /\ within ix r st' /\ step ix r t st' = inl e.
Proof.
  revert st. induction fuel as [|fuel IH]; intros st; simpl.
  - destruct (work st); discriminate.
  - destruct (work st) eqn:Hw; [discriminate|].
    destruct (step ix r t st) as [e'|st1] eqn:Hstep.
    + intros [= ->] _ _ Hin. exists st. split; [reflexivity|]. split; assumption.
    + intros Hrun Hcw Hcl Hin.
      destruct (step_chosen_well _ _ _ _ _ Hstep Hcw Hcl) as (Hcw1 & Hcl1 & _ & Hb1).
      destruct (step_potential ix r t st st1) as [Hin1 _]; [by rewrite Hw|assumption..|].
      destruct (IH _ Hrun Hcw1 Hcl1 Hin1) as (st' & Hsub & Hin' & Hfail).
      exists st'. split; [by etransitivity|]. split; assumption.
Qed.

Lemma resolve_error ix r targets e :
  resolve ix r targets = Some (inl e) ->
  exists t, t ∈ targets /\ resolve_target ix r t = Some (inl e).
Proof.
  induction targets as [|t0 rest IH]; simpl; [discriminate|].
  destruct (resolve_target ix r t0) as [[e'|st]|] eqn:Ht0; try discriminate.
  - intros [= ->]. exists t0. split; [by left|exact Ht0].
  - destruct (resolve ix r rest) as [[e'|closure]|]; try discriminate.
    intros [= ->]. destruct (IH eq_refl) as (t & Ht & Hfail).
    exists t. split; [by right|exact Hfail].
Qed.

(** The first top-level Requirement is the first name resolved. *)
Lemma require_work_head st q name w :
  work st = name :: w -> exists w', work (require st q) = name :: w'.
Proof.
  intros Hw. unfold require. cbn [work]. case_decide; [|eauto].
  unfold enqueue. case_decide; [eauto|]. rewrite Hw. simpl. eauto.
Qed.

Lemma foldl_require_work_head qs st name w :
  work st = name :: w -> exists w', work (foldl require st qs) = name :: w'.
Proof.
  revert st w. induction qs as [|q qs IH]; intros st w Hw; simpl; [eauto|].
  destruct (require_work_head st q name w Hw) as [w1 Hw1]. eapply IH, Hw1.
Qed.

Lemma seed_work_head r q rest :
  toplevel r = q :: rest -> exists w, work (seed r) = req_name q :: w.
Proof.
  intros Htop. unfold seed. rewrite Htop. simpl.
  eapply foldl_require_work_head. unfold require. cbn [work required].
  rewrite decide_True; [reflexivity|]. left. apply not_elem_of_empty.
Qed.

Lemma enough_fuel_pos ix r q : q ∈ toplevel r -> 0 < enough_fuel ix r.
Proof.
  intros Hq. unfold enough_fuel.
  assert (req_name q ∈ all_names ix r) as Hin.
  { apply elem_of_list_to_set, list_elem_of_fmap. exists q. split; [reflexivity|].
    unfold all_requirements. apply elem_of_app. by left. }
  assert (size (all_names ix r) <> 0); [|lia].
  intros Hzero. apply size_empty_inv in Hzero. by apply Hzero in Hin.
Qed.

(** C6, amended.  When the bounds of the top-level Requirements on a
    package name admit none of its candidates (its LocalOverride when it
    has one, else the candidates the index knows for the Target) on some
    Target of the call, [resolve] returns no Closure but the first error
    it meets, which is never a parsing error.  When the error is
    [UnsatisfiableConstraintError], none of the candidates of the package
    it names, on some Target of the call, satisfies all the bounds it
    reports, which hold the top-level bounds on that package and only
    bounds of Requirements of the inputs.  When it is
    [CandidateLookupError], the index lookup of the package it names
    fails on some Target of the call.  And when the name is that of the
    first top-level Requirement and the Target is the first of the call,
    the error is about that name: the failure of its lookup when the
    lookup fails, else [UnsatisfiableConstraintError] naming it with the
    top-level bounds. *)
Theorem unsatisfiable_bounds_fail_resolve ix r targets t name :
  t ∈ targets ->
  (exists q, q ∈ toplevel r /\ req_name q = name) ->
  (forall c, candidate_for ix r t name c ->
     ~ admits (toplevel_bounds r) name (cand_version c)) ->
  exists e,
    resolve ix r targets = Some (inl e) /\
    (forall text, e <> InvalidRequirementError text) /\
    (forall pkg conflicting, e = UnsatisfiableConstraintError pkg conflicting ->
       (exists t', t' ∈ targets /\
          forall c, candidate_for ix r t' pkg c ->
            ~ Forall (fun b => bound_holds b (cand_version c)) conflicting) /\
       (forall b, (pkg, b) ∈ toplevel_bounds r -> b ∈ conflicting) /\
       (forall b, b ∈ conflicting -> (pkg, b) ∈ all_bounds ix r)) /\
    (forall pkg, e = CandidateLookupError pkg ->
       overrides r !! pkg = None /\
       exists t', t' ∈ targets /\ unreachable ix pkg t' = true) /\
    ((exists rest, targets = t :: rest) ->
     (exists q rest, toplevel r = q :: rest /\ req_name q = name) ->
     (e = CandidateLookupError name /\ overrides r !! name = None /\
      unreachable ix name t = true) \/
     (e = UnsatisfiableConstraintError name (bounds_of (toplevel_bounds r) name) /\
      (is_Some (overrides r !! name) \/ unreachable ix name t = false))).
Proof.
  intros Ht (q0 & Hq0 & Hname) Hunsat.
  destruct (resolve_terminates ix r targets) as [[e|closure] Hres].
  2:{ exfalso. destruct (resolve_lookup _ _ _ _ Hres) as [Hdom Hlook].
      destruct (Hdom t Ht) as [chosen Hchosen].
      destruct (Hlook _ _ Hchosen) as (_ & st & Hst & _).
      destruct (resolve_target_sound _ _ _ _ Hst)
        as (Hwork & [Hreq Hsel] & _ & Hseed & Htop).
      assert (name ∈ required st) as Hin.
      { apply Hseed. subst name. by apply (foldl_require_covers (toplevel r)). }
      destruct (Hreq name Hin) as [Hw|[c Hc]].
      { rewrite Hwork in Hw. by apply elem_of_nil in Hw. }
      destruct (Hsel name c Hc) as [Hw|(l & Hadm & Hbest)].
      { rewrite Hwork in Hw. by apply elem_of_nil in Hw. }
      pose proof (best_spec l) as Hspec. rewrite Hbest in Hspec.
      destruct Hspec as [Hcl _].
      apply (admissible_spec _ _ _ _ _ _ Hadm) in Hcl as [Hfor Hadmits].
      apply (Hunsat c Hfor). by apply (admits_mono _ (bounds st)). }
  exists e. split; [exact Hres|].
  destruct (resolve_error _ _ _ _ Hres) as (t' & Ht' & Hfail).
  destruct (seed_within ix r) as [Hseedin _].
  destruct (run_error _ _ _ _ _ _ Hfail (seed_chosen_well ix r t') (seed_closed r t')
              Hseedin) as (st' & Hsub & [_ Hin'] & Hstep).
  destruct (step_error _ _ _ _ _ Hstep) as (pkg & w & _ & Hwhy).
  split; [|split; [|split]].
  - intros text ->. destruct Hwhy as [[? _]|[? _]]; discriminate.
  - intros pkg' conflicting ->. destruct Hwhy as [[? _]|(Heq & _ & Hadm)]; [discriminate|].
    injection Heq as -> ->. split; [|split].
    + exists t'. split; [exact Ht'|]. intros c Hfor Hall.
      assert (c ∈ []) as Hc.
      { apply (admissible_spec _ _ _ _ _ _ Hadm). split; [exact Hfor|].
        by apply admits_bounds_of. }
      by apply elem_of_nil in Hc.
    + intros b Hb. by apply elem_of_bounds_of, Hsub.
    + intros b Hb%elem_of_bounds_of. by apply Hin'.
  - intros pkg' ->. destruct Hwhy as [(Heq & Hnone & Hun)|[? _]]; [|discriminate].
    injection Heq as ->. split; [exact Hnone|]. eauto.
  - intros [rest ->] (q & qs & Htop & Hq).
    simpl in Hres. unfold resolve_target in Hres.
    destruct (seed_work_head r q qs Htop) as [w0 Hw]. rewrite Hq in Hw.
    pose proof (enough_fuel_pos ix r q0 Hq0) as Hfuel.
    destruct (enough_fuel ix r) as [|fuel]; [lia|].
    simpl in Hres. rewrite Hw in Hres.
    destruct (step ix r t (seed r)) as [e1|st1] eqn:Hstep1.
    + assert (e = e1) as -> by (destruct (resolve ix r rest) as [[?|?]|]; congruence).
      destruct (step_error _ _ _ _ _ Hstep1) as (n & w1 & Hw1 & Hwhy1).
      rewrite Hw in Hw1. injection Hw1 as <- <-.
      destruct Hwhy1 as [(-> & Hnone & Hun)|(-> & Hcan & _)]; [by left|by right].
    + exfalso. unfold step in Hstep1. rewrite Hw in Hstep1.
      destruct (select ix r t (bounds (seed r)) name) as [e2|c] eqn:Hsel; [discriminate|].
      apply select_cases in Hsel as (l & Hadm & Hbest).
      pose proof (best_spec l) as Hspec. rewrite Hbest in Hspec. destruct Hspec as [Hcl _].
      apply (admissible_spec _ _ _ _ _ _ Hadm) in Hcl as [Hfor Hadmits].
      by apply (Hunsat c Hfor).
Qed.

End Resolver.

(** ** A concrete index for the resolver *)

Module ResolverDemo.
Import Resolver.
Local Open Scope nat_scope.

Definition linux : target := ("x86_64-linux", (3, 10)).
Definition windows : target := ("x86_64-windows", (3, 10)).

Definition needs (name : string) (bs : list bound) : requirement :=
  {| req_name := name; req_bounds := bs; req_marker := None |}.

Definition wheel (name : string) (v : version) (requires : list requirement) : candidate :=
  {| cand_name := name; cand_version := v; cand_file := name +:+ ".whl";
     cand_targets := None; cand_requires := requires |}.

(** Three versions of [pkg] below 2.0 and one above, the newest of the
    three needing [dep >= 2], whose newest version needs [pkg >= 1.1] in
    turn; and two releases of [e3-core]. *)
Definition pypi : index := {|
  known := [wheel "pkg" [1; 0] [];
            wheel "pkg" [1; 3] [needs "dep" [(Ge, [2])]];
            wheel "pkg" [1; 2] [];
            wheel "pkg" [2; 0] [];
            wheel "dep" [1] [];
            wheel "dep" [2; 5] [needs "pkg" [(Ge, [1; 1])]];
            wheel "e3-core" [22; 1] [];
            wheel "e3-core" [22; 3] []];
  unreachable := fun _ _ => false
|}.

(** [pkg>=1.0,<2.0]. *)
Definition ranged : resolver :=
  {| overrides := ∅; toplevel := [needs "pkg" [(Ge, [1; 0]); (Lt, [2; 0])]] |}.

(** [pkg>=2.0] and [pkg<2.0]. *)
Definition conflicting : resolver :=
  {| overrides := ∅; toplevel := [needs "pkg" [(Ge, [2; 0])]; needs "pkg" [(Lt, [2; 0])]] |}.

(** A locally built [e3-core], older than the releases of the index. *)
Definition local_core : candidate := wheel "e3-core" [0; 1] [needs "pkg" [(Lt, [1; 3])]].

Definition with_local : resolver :=
  add_local_candidate local_core {| overrides := ∅; toplevel := [needs "e3-core" []] |}.

(** The conflicting requirements again, with a locally built [pkg]. *)
Definition local_pkg : candidate := wheel "pkg" [0; 1] [].

Definition conflicting_with_local : resolver := add_local_candidate local_pkg conflicting.

(** A locally built package that no Requirement mentions, registered
    beside the requirement on [pkg]. *)
Definition local_extra : candidate := wheel "extra" [1; 0] [].

Definition with_unneeded : resolver := add_local_candidate local_extra ranged.

(** Two packages whose top-level bounds nothing satisfies: [dep>9], and
    [pkg>=2.0] with [pkg<2.0]. *)
Definition two_conflicts : resolver :=
  {| overrides := ∅;
     toplevel := [needs "dep" [(Gt, [9])]; needs "pkg" [(Ge, [2; 0])];
                  needs "pkg" [(Lt, [2; 0])]] |}.

(** The same index when its lookups of [dep] fail, and the conflicting
    requirements on [pkg] after one on [dep]. *)
Definition flaky : index :=
  {| known := known pypi; unreachable := fun name _ => String.eqb name "dep" |}.

Definition dep_then_conflict : resolver :=
  {| overrides := ∅;
     toplevel := [needs "dep" []; needs "pkg" [(Ge, [2; 0])]; needs "pkg" [(Lt, [2; 0])]] |}.

(** The versions chosen for a Target. *)
Definition versions (res : option (error + gmap target (gmap string candidate)))
    (t : target) : option (list (string * version)) :=
  match res with
  | Some (inr closure) =>
      (fun chosen => (fun nc => (fst nc, cand_version (snd nc))) <$> map_to_list chosen)
        <$> closure !! t
  | _ => None
  end.

Definition closure_of (res : option (error + gmap target (gmap string candidate)))
  : gmap target (gmap string candidate) :=
  match res with
  | Some (inr closure) => closure
  | _ => ∅
  end.

(** Newest wins, and the needs of the chosen candidates are followed. *)
Example resolve_ranged :
  versions (resolve pypi ranged [linux]) linux = Some [("dep", [2; 5]); ("pkg", [1; 3])].
Proof. vm_compute. reflexivity. Qed.

(** Conflict detection. *)
Example resolve_conflicting :
  resolve pypi conflicting [linux] =
    Some (inl (UnsatisfiableConstraintError "pkg" [(Ge, [2; 0]); (Lt, [2; 0])])).
Proof. vm_compute. reflexivity. Qed.

(** The local candidate wins over newer releases, and its needs narrow
    the choice for [pkg]. *)
Example resolve_with_local :
  versions (resolve pypi with_local [linux; windows]) windows =
    Some [("e3-core", [0; 1]); ("pkg", [1; 2])].
Proof. vm_compute. reflexivity. Qed.

Lemma no_version_between bs name v :
  (name, (Ge, [2; 0])) ∈ bs -> (name, (Lt, [2; 0])) ∈ bs -> ~ admits bs name v.
Proof.
  intros Hge Hlt Hall.
  pose proof (Hall _ Hge eq_refl) as H1. pose proof (Hall _ Hlt eq_refl) as H2.
  unfold bound_holds in H1, H2. simpl in H1, H2.
  destruct (vleb [2; 0] v); [exact H2|exact H1].
Qed.

Lemma conflict_admits_nothing r v :
  needs "pkg" [(Ge, [2; 0])] ∈ toplevel r -> needs "pkg" [(Lt, [2; 0])] ∈ toplevel r ->
  ~ admits (toplevel_bounds r) "pkg" v.
Proof.
  intros Hge Hlt. apply no_version_between.
  - apply (toplevel_bounds_spec r (needs "pkg" [(Ge, [2; 0])])); [exact Hge|].
    apply list_elem_of_here.
  - apply (toplevel_bounds_spec r (needs "pkg" [(Lt, [2; 0])])); [exact Hlt|].
    apply list_elem_of_here.
Qed.

Lemma conflicting_admits_nothing r v :
  toplevel r = toplevel conflicting -> ~ admits (toplevel_bounds r) "pkg" v.
Proof.
  intros Htop. apply conflict_admits_nothing; rewrite Htop.
  - apply list_elem_of_here.
  - apply list_elem_of_further, list_elem_of_here.
Qed.

(** A locally built [pkg] does not lift the conflict: its version breaks
    [pkg>=2.0], and the resolution fails as without it. *)
Example resolve_conflicting_with_local :
  resolve pypi conflicting_with_local [linux] =
    Some (inl (UnsatisfiableConstraintError "pkg" [(Ge, [2; 0]); (Lt, [2; 0])])).
Proof. vm_compute. reflexivity. Qed.

(** The bounds reported hold those met on the way: [dep] is resolved
    first, and its newest version needs [pkg>=1.1]. *)
Example resolve_dep_then_conflict :
  resolve pypi dep_then_conflict [linux] =
    Some (inl (UnsatisfiableConstraintError "pkg"
                 [(Ge, [2; 0]); (Ge, [1; 1]); (Lt, [2; 0])])).
Proof. vm_compute. reflexivity. Qed.

(** Whether a resolution returned a Closure, and whether a Closure has
    an entry. *)
Definition returned (res : option (error + gmap target (gmap string candidate))) : bool :=
  match res with
  | Some (inr _) => true
  | _ => false
  end.

Lemma closure_of_returned res : returned res = true -> res = Some (inr (closure_of res)).
Proof. destruct res as [[e|closure]|]; simpl; [discriminate|reflexivity|discriminate]. Qed.

Lemma entry_of_closure (entry : option (gmap string candidate)) :
  bool_decide (is_Some entry) = true -> entry = Some (default ∅ entry).
Proof. destruct entry; [reflexivity|]. intros H. apply bool_decide_eq_true in H. by destruct H. Qed.

(** The locally built [e3-core] is chosen on both Targets, although the
    index has newer releases. *)
Lemma local_override_witness :
  resolve pypi with_local [linux; windows]
    = Some (inr (closure_of (resolve pypi with_local [linux; windows]))) /\
  overrides with_local !! "e3-core" = Some local_core /\
  forall t, t ∈ [linux; windows] ->
    exists chosen,
      closure_of (resolve pypi with_local [linux; windows]) !! t = Some chosen /\
      chosen !! "e3-core" = Some local_core.
Proof.
  assert (Hres : resolve pypi with_local [linux; windows]
                 = Some (inr (closure_of (resolve pypi with_local [linux; windows]))))
    by (apply closure_of_returned; vm_compute; reflexivity).
  assert (Hlocal : overrides with_local !! "e3-core" = Some local_core)
    by apply add_local_candidate_registers.
  split; [exact Hres|]. split; [exact Hlocal|].
  intros t Ht.
  destruct (local_override_is_selected pypi with_local [linux; windows]
              (closure_of (resolve pypi with_local [linux; windows])) "e3-core"
              local_core Hres Hlocal t Ht) as (chosen & Hchosen & _ & Htop & _).
  exists chosen. split; [exact Hchosen|]. apply Htop.
  exists (needs "e3-core" []). split; [apply list_elem_of_here|reflexivity].
Defined.

(** C5 as stated fails for a local candidate that nothing requires: the
    locally built [extra] is registered, the resolution returns a Closure
    for the Target, and the Closure has no entry for [extra]. *)
Lemma unneeded_local_override_is_absent :
  overrides with_unneeded !! "extra" = Some local_extra /\
  versions (resolve pypi with_unneeded [linux]) linux
    = Some [("dep", [2; 5]); ("pkg", [1; 3])] /\
  closure_of (resolve pypi with_unneeded [linux]) !! linux ≫= (.!! "extra") = None.
Proof.
  split; [apply add_local_candidate_registers|].
  split; vm_compute; reflexivity.
Qed.

(** From versions 1.0, 1.2, 1.3 and 2.0 under [>=1.0,<2.0], version 1.3 is
    chosen: every candidate of [pkg] that the bounds collected by the
    resolution admit is at most that new. *)
Lemma newest_version_witness :
  resolve pypi ranged [linux] = Some (inr (closure_of (resolve pypi ranged [linux]))) /\
  closure_of (resolve pypi ranged [linux]) !! linux
    = Some (default ∅ (closure_of (resolve pypi ranged [linux]) !! linux)) /\
  default ∅ (closure_of (resolve pypi ranged [linux]) !! linux) !! "pkg"
    = Some (wheel "pkg" [1; 3] [needs "dep" [(Ge, [2])]]) /\
  overrides ranged !! "pkg" = None /\
  exists st,
    resolve_target pypi ranged linux = Some (inr st) /\
    toplevel_bounds ranged ⊆ bounds st /\
    forall c', c' ∈ known pypi -> cand_name c' = "pkg" ->
      on_target (cand_targets c') linux -> admits (bounds st) "pkg" (cand_version c') ->
      vleb (cand_version c') [1; 3] = true.
Proof.
  assert (H1 : resolve pypi ranged [linux]
               = Some (inr (closure_of (resolve pypi ranged [linux]))))
    by (apply closure_of_returned; vm_compute; reflexivity).
  assert (H2 : closure_of (resolve pypi ranged [linux]) !! linux
               = Some (default ∅ (closure_of (resolve pypi ranged [linux]) !! linux)))
    by (apply entry_of_closure; vm_compute; reflexivity).
  assert (H3 : default ∅ (closure_of (resolve pypi ranged [linux]) !! linux) !! "pkg"
               = Some (wheel "pkg" [1; 3] [needs "dep" [(Ge, [2])]]))
    by (vm_compute; reflexivity).
  assert (H4 : overrides ranged !! "pkg" = None) by reflexivity.
  split; [exact H1|]. split; [exact H2|]. split; [exact H3|]. split; [exact H4|].
  destruct (newest_admitted_version_is_selected pypi ranged [linux]
              (closure_of (resolve pypi ranged [linux])) linux
              (default ∅ (closure_of (resolve pypi ranged [linux]) !! linux)) "pkg"
              (wheel "pkg" [1; 3] [needs "dep" [(Ge, [2])]])
              H1 H2 H3 H4) as [(st & Hst & _ & _ & Hmax & Htop & _) _].
  exists st. split; [exact Hst|]. split; [exact Htop|exact Hmax].
Defined.

(** [pkg>=2.0] with [pkg<2.0]: no Closure, and the error names [pkg]. *)
Lemma unsatisfiable_bounds_witness :
  linux ∈ [linux] /\
  (forall c, candidate_for pypi conflicting linux "pkg" c ->
     ~ admits (toplevel_bounds conflicting) "pkg" (cand_version c)) /\
  resolve pypi conflicting [linux]
    = Some (inl (UnsatisfiableConstraintError "pkg"
                   (bounds_of (toplevel_bounds conflicting) "pkg"))).
Proof.
  assert (Hunsat : forall c, candidate_for pypi conflicting linux "pkg" c ->
                     ~ admits (toplevel_bounds conflicting) "pkg" (cand_version c)).
  { intros c _. apply conflicting_admits_nothing. reflexivity. }
  split; [apply list_elem_of_here|]. split; [exact Hunsat|].
  destruct (unsatisfiable_bounds_fail_resolve pypi conflicting [linux] linux "pkg")
    as (e & Hres & _ & _ & _ & Hhead).
  - apply list_elem_of_here.
  - exists (needs "pkg" [(Ge, [2; 0])]). split; [apply list_elem_of_here|reflexivity].
  - exact Hunsat.
  - rewrite Hres. f_equal. f_equal.
    destruct Hhead as [(_ & _ & Hun)|[He _]].
    + exists []. reflexivity.
    + exists (needs "pkg" [(Ge, [2; 0])]), [needs "pkg" [(Lt, [2; 0])]].
      split; reflexivity.
    + discriminate Hun.
    + exact He.
Defined.

(** C6 as stated fails when another failure comes first.  Nothing
    satisfies [pkg>=2.0] with [pkg<2.0]; but with [dep>9] required before,
    the error names [dep], and when the lookup of [dep] fails the error
    is that of the lookup. *)
Lemma first_failure_is_reported :
  (forall c, ~ admits (toplevel_bounds two_conflicts) "pkg" (cand_version c)) /\
  resolve pypi two_conflicts [linux]
    = Some (inl (UnsatisfiableConstraintError "dep" [(Gt, [9])])) /\
  (forall c, ~ admits (toplevel_bounds dep_then_conflict) "pkg" (cand_version c)) /\
  resolve flaky dep_then_conflict [linux] = Some (inl (CandidateLookupError "dep")).
Proof.
  split; [|split; [|split]].
  - intros c. apply conflict_admits_nothing.
    + apply list_elem_of_further, list_elem_of_here.
    + apply list_elem_of_further, list_elem_of_further, list_elem_of_here.
  - vm_compute. reflexivity.
  - intros c. apply conflict_admits_nothing.
    + apply list_elem_of_further, list_elem_of_here.
    + apply list_elem_of_further, list_elem_of_further, list_elem_of_here.
  - vm_compute. reflexivity.
Qed.

End ResolverDemo.
